(** * annealing.metamodes: permutation search over a correlation tensor

    A shallow embedding of the four modules of [annealing.metamodes]
    ([objectives.py], [solution.py], [problem.py], [solver.py]) and of the
    part of NumPy they call, followed by the properties of the search
    engine.

    Conventions of the embedding.
    - A NumPy array is a shape and a row-major buffer.  Integer entries
      are mathematical integers ([Z]); the entries of the correlation
      tensor are modelled as exact numbers as well, so rounding of
      floating-point sums is outside the model.
    - Python exceptions are values of [exn]; an operation that may raise
      returns a [result].
    - Objects that the Python code mutates (arrays held by a solution,
      solution objects, the solver object) live in a store indexed by
      references; the process-wide random generator is part of the same
      state. *)

From stdpp Require Import base option list gmap strings sorting.
From Stdlib Require Import ZArith Lia.
From Stdlib Require PrimFloat SpecFloat FloatOps.

Local Open Scope Z_scope.
Local Open Scope nat_scope.

(** ** Exceptions and fallible results *)

Inductive exn :=
| KeyError (msg : string)
| TypeError
| AttributeError
| IndexError
| ValueError
| TypingError
| SystemError.

#[global] Instance exn_eq_dec : EqDecision exn.
Proof. solve_decision. Defined.

Inductive result (A : Type) :=
| Ok (a : A)
| Raise (e : exn).
Arguments Ok {A} a.
Arguments Raise {A} e.

Definition rbind {A B} (r : result A) (k : A → result B) : result B :=
  match r with
  | Ok a => k a
  | Raise e => Raise e
  end.

Declare Scope result_scope.
Delimit Scope result_scope with R.
Notation "x <- r ;; k" := (rbind r (λ x, k))
  (at level 100, r at next level, k at level 200, right associativity,
   format "'[v' x  <-  r  ;;  '/' k ']'") : result_scope.

(** ** The numeric layer *)

Module Np.

Local Open Scope result_scope.

Record ndarray := NdArray { shape : list nat; data : list Z }.

Definition ndim (a : ndarray) : nat := length (shape a).

Definition size_of (sh : list nat) : nat := foldr Nat.mul 1 sh.

(** All multi-indices of a shape, in row-major (C) order. *)
Fixpoint indices (sh : list nat) : list (list nat) :=
  match sh with
  | [] => [[]]
  | n :: sh' => flat_map (λ i, cons i <$> indices sh') (seq 0 n)
  end.

Fixpoint offset (sh idx : list nat) : nat :=
  match sh, idx with
  | _ :: sh', i :: idx' => i * size_of sh' + offset sh' idx'
  | _, _ => 0
  end.

Fixpoint in_bounds (sh idx : list nat) : bool :=
  match sh, idx with
  | [], [] => true
  | n :: sh', i :: idx' => (i <? n) && in_bounds sh' idx'
  | _, _ => false
  end.

(** The array of shape [sh] whose entry at [idx] is [f idx]. *)
Definition tabulate (sh : list nat) (f : list nat → Z) : ndarray :=
  NdArray sh (f <$> indices sh).

(** [a[idx]] for a full multi-index that is known to be in bounds. *)
Definition item (a : ndarray) (idx : list nat) : Z :=
  nth (offset (shape a) idx) (data a) 0%Z.

Definition sum_Z (l : list Z) : Z := foldr Z.add 0%Z l.

(** [a.sum()] *)
Definition sum (a : ndarray) : Z := sum_Z (data a).

(** An integer used as an index on an axis of length [n]: negative
    values count from the end, anything outside [-n, n) is an
    [IndexError]. *)
Definition norm_index (n : nat) (k : Z) : result nat :=
  if decide (0 ≤ k < Z.of_nat n)%Z then Ok (Z.to_nat k)
  else if decide (- Z.of_nat n ≤ k < 0)%Z then Ok (Z.to_nat (k + Z.of_nat n))
  else Raise IndexError.

Definition index_ok (n : nat) (k : Z) : bool :=
  bool_decide (- Z.of_nat n ≤ k < Z.of_nat n)%Z.

Definition wrap_index (n : nat) (k : Z) : nat :=
  if decide (0 ≤ k)%Z then Z.to_nat k else Z.to_nat (k + Z.of_nat n).

(** [np.arange(n)] *)
Definition arange (n : nat) : ndarray :=
  tabulate [n] (λ idx, Z.of_nat (hd 0 idx)).

(** [np.tile(A=row, reps=(reps, 1))] for a one-dimensional [row]. *)
Definition tile_rows (row : ndarray) (reps : nat) : ndarray :=
  tabulate (reps :: shape row) (λ idx, item row (tail idx)).

(** [a * k] for a Python integer [k]. *)
Definition scale (a : ndarray) (k : Z) : ndarray :=
  NdArray (shape a) ((λ x, x * k)%Z <$> data a).

(** [a[:, None]] for a one-dimensional [a]. *)
Definition as_column (a : ndarray) : ndarray :=
  NdArray (shape a ++ [1]) (data a).

(** Broadcasting of two shapes of the same rank. *)
Fixpoint broadcast_shape (s1 s2 : list nat) : result (list nat) :=
  match s1, s2 with
  | [], [] => Ok []
  | n1 :: s1', n2 :: s2' =>
      rest <- broadcast_shape s1' s2';;
      if decide (n1 = n2) then Ok (n1 :: rest)
      else if decide (n1 = 1) then Ok (n2 :: rest)
      else if decide (n2 = 1) then Ok (n1 :: rest)
      else Raise ValueError
  | _, _ => Raise ValueError
  end.

(** Shapes of lower rank are padded with leading ones. *)
Definition pad_shape (n : nat) (sh : list nat) : list nat :=
  replicate (n - length sh) 1 ++ sh.

(** The index into an operand of shape [sh] that the broadcast index
    [idx] reads: leading padded axes are dropped and axes of length
    one are read at position zero. *)
Definition bcast_index (sh idx : list nat) : list nat :=
  zip_with (λ n i, if decide (n = 1) then 0 else i)
           sh (drop (length idx - length sh) idx).

(** [a + b] with broadcasting. *)
Definition add (a b : ndarray) : result ndarray :=
  let n := ndim a `max` ndim b in
  sh <- broadcast_shape (pad_shape n (shape a)) (pad_shape n (shape b));;
  Ok (tabulate sh (λ idx, (item a (bcast_index (shape a) idx)
                           + item b (bcast_index (shape b) idx))%Z)).

(** [a[..., k, ...]] with the integer [k] on axis [axis] and full
    slices elsewhere (in the code: [perm[:, i]]). *)
Definition index_axis (a : ndarray) (axis : nat) (k : Z) : result ndarray :=
  match shape a !! axis with
  | None => Raise IndexError
  | Some n =>
      k' <- norm_index n k;;
      Ok (tabulate (take axis (shape a) ++ drop (S axis) (shape a))
            (λ idx, item a (take axis idx ++ k' :: drop axis idx)))
  end.

(** [a[..., idx, ...]] with the integer array [idx] on axis [axis] and
    full slices elsewhere (in the code: [big_corr[rows]],
    [first_pass[:, cols]], [corr[perm]], [x[:, :, perm]]). *)
Definition take_along (a : ndarray) (axis : nat) (idx : ndarray)
  : result ndarray :=
  match shape a !! axis with
  | None => Raise IndexError
  | Some n =>
      if forallb (index_ok n) (data idx) then
        Ok (tabulate (take axis (shape a) ++ shape idx ++ drop (S axis) (shape a))
              (λ i, item a (take axis i
                            ++ wrap_index n (item idx (take (ndim idx) (drop axis i)))
                            :: drop (axis + ndim idx) i)))
      else Raise IndexError
  end.

Definition insert_at {A} (pos : nat) (x : A) (l : list A) : list A :=
  take pos l ++ x :: drop pos l.

Definition remove_at {A} (pos : nat) (l : list A) : list A :=
  take pos l ++ drop (S pos) l.

(** [np.diagonal(a, axis1=axis1, axis2=axis2)] for [axis1 < axis2]: the
    two axes are removed and the diagonal becomes the last axis. *)
Definition diagonal (a : ndarray) (axis1 axis2 : nat) : result ndarray :=
  match shape a !! axis1, shape a !! axis2 with
  | Some d1, Some d2 =>
      if decide (axis1 < axis2) then
        let rest := remove_at axis1 (remove_at axis2 (shape a)) in
        Ok (tabulate (rest ++ [d1 `min` d2])
              (λ idx, let k := List.last idx 0 in
                      item a (insert_at axis2 k
                                (insert_at axis1 k (removelast idx)))))
      else Raise ValueError
  | _, _ => Raise ValueError
  end.

(** [a.T]: all axes reversed. *)
Definition transpose (a : ndarray) : ndarray :=
  tabulate (rev (shape a)) (λ idx, item a (rev idx)).

(** Row [r] of a two-dimensional array, as a list. *)
Definition row (a : ndarray) (r : nat) : list Z :=
  (λ j, item a [r; j]) <$> seq 0 (nth 1 (shape a) 0).

Definition rows (a : ndarray) : list (list Z) :=
  row a <$> seq 0 (nth 0 (shape a) 0).

(** The two-dimensional array with the given rows of length [m]. *)
Definition of_rows (m : nat) (rs : list (list Z)) : ndarray :=
  tabulate [length rs; m] (λ idx,
    match idx with
    | [r; j] => nth j (nth r rs []) 0%Z
    | _ => 0%Z
    end).

(** [a[k] = v] on a copy of [a]: the index is resolved first, then [v]
    is broadcast to the shape of the sub-array. *)
Definition setitem (a : ndarray) (k : Z) (v : ndarray) : result ndarray :=
  match shape a with
  | [] => Raise IndexError
  | n :: sub =>
      k' <- norm_index n k;;
      let r := length sub `max` ndim v in
      sh <- broadcast_shape (pad_shape r sub) (pad_shape r (shape v));;
      if decide (sh = sub) then
        Ok (tabulate (shape a) (λ idx,
              match idx with
              | i :: idx' =>
                  if decide (i = k') then item v (bcast_index (shape v) idx')
                  else item a idx
              | [] => 0%Z
              end))
      else Raise ValueError
  end.

End Np.

(** ** The random generator

    [numpy.random.default_rng()] is modelled by the stream of raw draws
    it will still deliver; a draw below a bound reduces the next raw
    value modulo the bound.  Every finite run of the program is the run
    on some such stream. *)

Module Rng.

Definition state := list nat.

Definition next (bound : nat) (g : state) : nat * state :=
  match g with
  | [] => (0, [])
  | x :: g' => (x `mod` bound, g')
  end.

(** [rng.integers(high)]: uniform in [[0, high)], [ValueError] when
    [high <= 0]. *)
Definition integers (high : nat) (g : state) : result nat * state :=
  if decide (high = 0) then (Raise ValueError, g)
  else let '(x, g') := next high g in (Ok x, g').

(** A shuffled copy of a list: the next element is drawn among the
    remaining ones until none is left. *)
Fixpoint shuffle {A} (n : nat) (l : list A) (g : state) : list A * state :=
  match n with
  | 0 => ([], g)
  | S n' =>
      let '(j, g1) := next (length l) g in
      match l !! j with
      | Some x => let '(r, g2) := shuffle n' (delete j l) g1 in (x :: r, g2)
      | None => ([], g1)
      end
  end.

(** [rng.permutation(x)] for a one-dimensional array [x]. *)
Definition permutation (x : list Z) (g : state) : list Z * state :=
  shuffle (length x) x g.

(** [rng.permutation(n)] for an integer [n]: a shuffled [arange(n)]. *)
Definition permutation_int (n : nat) (g : state) : Np.ndarray * state :=
  let '(l, g') := permutation (Z.of_nat <$> seq 0 n) g in
  (Np.NdArray [n] l, g').

(** [np.apply_along_axis(rng.permutation, axis=1, arr=...)] on the
    rows of a table, first row first. *)
Fixpoint permute_rows (rs : list (list Z)) (g : state)
  : list (list Z) * state :=
  match rs with
  | [] => ([], g)
  | r :: rs' =>
      let '(r1, g1) := permutation r g in
      let '(rs1, g2) := permute_rows rs' g1 in
      (r1 :: rs1, g2)
  end.

End Rng.

(** ** objectives.py *)

Module objectives.

Import Np.
Local Open Scope result_scope.

Inductive Objective := SUM | ABS_SUM | DYN_SUM.

#[global] Instance Objective_eq_dec : EqDecision Objective.
Proof. solve_decision. Defined.

Definition name (o : Objective) : string :=
  match o with
  | SUM => "SUM"
  | ABS_SUM => "ABS_SUM"
  | DYN_SUM => "DYN_SUM"
  end.

Definition value (o : Objective) : string :=
  match o with
  | SUM => "sum"
  | ABS_SUM => "abs_sum"
  | DYN_SUM => "dyn_sum"
  end.

(** [Objective.__members__], in definition order. *)
Definition __members__ : list (string * Objective) :=
  (λ o, (name o, o)) <$> [SUM; ABS_SUM; DYN_SUM].

(** [Objective[key]]: lookup of a member by name; the [KeyError] of a
    failed lookup carries the key. *)
Definition __getitem__ (key : string) : result Objective :=
  match list_find (λ m, m.1 = key) __members__ with
  | Some (_, (_, o)) => Ok o
  | None => Raise (KeyError key)
  end.

Definition _names (self : Objective) : list string := fst <$> __members__.

(** [repr] of the bound method [self._names], which is what the
    f-string in [func] formats (the method is not called there). *)
Definition repr_bound__names (self : Objective) : string :=
  "<bound method Objective._names of <Objective." +:+ name self
    +:+ ": '" +:+ value self +:+ "'>>".

(** One pass of the loop body shared by the two objective functions:
    the sum of the sub-matrix of [big_corr] selected on both axes by
    column [i] of [perm].  The two functions are compiled by Numba,
    which does not check bounds; an index outside the tensor is
    reported here as [IndexError], and the properties below only
    concern runs in which every index is in range. *)
Definition slot_sum (big_corr perm : ndarray) (i : nat) : result Z :=
  col <- index_axis perm 1 (Z.of_nat i);;
  first_pass <- take_along big_corr 0 col;;
  second_pass <- take_along first_pass 1 col;;
  Ok (sum second_pass).

Fixpoint for_range_acc (f : Z → nat → result Z) (ret : Z) (ks : list nat)
  : result Z :=
  match ks with
  | [] => Ok ret
  | i :: ks' => ret' <- f ret i;; for_range_acc f ret' ks'
  end.

Definition sum_perms (big_corr perm : ndarray) (n_modes n_channels : nat)
  : result Z :=
  ret <- for_range_acc
           (λ ret i, s <- slot_sum big_corr perm i;; Ok (ret + s)%Z)
           0%Z (seq 0 n_modes);;
  Ok (ret - Z.of_nat n_modes * Z.of_nat n_channels)%Z.

Definition abs_sum_perms (big_corr perm : ndarray) (n_modes n_channels : nat)
  : result Z :=
  ret <- for_range_acc
           (λ ret i, s <- slot_sum big_corr perm i;; Ok (ret + Z.abs s)%Z)
           0%Z (seq 0 n_modes);;
  Ok (ret - Z.of_nat n_modes * Z.of_nat n_channels)%Z.

Definition objective_fn := ndarray → ndarray → nat → nat → result Z.

(** The property [Objective.func]. *)
Definition func (self : Objective) : result objective_fn :=
  let undefined_msg :=
    "Objective not recognised. Choose from " +:+ repr_bound__names self in
  match self with
  | SUM => Ok sum_perms
  | ABS_SUM => Ok abs_sum_perms
  | _ => Raise (KeyError undefined_msg)
  end.

End objectives.

(** ** Object layouts and the store *)

Abbreviation ref := nat (only parsing).

(** Attributes of a [MetaModeSolution].  The two tables are references
    to arrays in the store; [permuted_modes] is [None] until a
    permutation has been generated.  Numbers of modes, channels and
    steps are natural numbers throughout. *)
Module MetaModeSolution.
Record t := Make {
  n_modes : nat;
  n_channels : nat;
  n_metamodes : nat;
  unpermuted_modes : ref;
  permuted_modes : option ref;
}.

Definition with_permuted_modes (p : option ref) (s : t) : t :=
  Make (n_modes s) (n_channels s) (n_metamodes s) (unpermuted_modes s) p.
End MetaModeSolution.

(** Attributes of a [MetaModeProblem]; none of them is assigned after
    construction. *)
Module MetaModeProblem.
Record t := Make {
  correlation_matrix : Np.ndarray;
  n_modes : nat;
  n_channels : nat;
  n_metamodes : nat;
  objective : objectives.Objective;
  reindexer : Np.ndarray;
}.
End MetaModeProblem.

(** The progress bar returned by [trange]: purely observational. *)
Module tqdm.
Record t := Make {
  total : nat;
  disable : bool;
  postfix : option Z;
  closed : bool;
}.

Definition trange (n : nat) (disable : bool) : t := Make n disable None false.
Definition set_postfix (best_value : Z) (b : t) : t :=
  Make (total b) (disable b) (Some best_value) (closed b).
Definition close (b : t) : t := Make (total b) (disable b) (postfix b) true.
End tqdm.

(** Attributes of a [MetaModeSolver]. *)
Module MetaModeSolver.
Record t := Make {
  problem : MetaModeProblem.t;
  best_solution : ref;
  best_value : Z;
  _iteration : nat;
  record : list (nat * Z);
  steps : list Np.ndarray;
  _tqdm : option tqdm.t;
}.

Definition with_best (sol : ref) (v : Z) (s : t) : t :=
  Make (problem s) sol v (_iteration s) (record s) (steps s) (_tqdm s).
Definition with__iteration (n : nat) (s : t) : t :=
  Make (problem s) (best_solution s) (best_value s) n (record s) (steps s)
       (_tqdm s).
Definition with_record (r : list (nat * Z)) (s : t) : t :=
  Make (problem s) (best_solution s) (best_value s) (_iteration s) r (steps s)
       (_tqdm s).
Definition with_steps (g : list Np.ndarray) (s : t) : t :=
  Make (problem s) (best_solution s) (best_value s) (_iteration s) (record s) g
       (_tqdm s).
Definition with__tqdm (b : option tqdm.t) (s : t) : t :=
  Make (problem s) (best_solution s) (best_value s) (_iteration s) (record s)
       (steps s) b.
End MetaModeSolver.

(** The state of the Python process that the four modules can observe:
    the arrays, the solution and solver objects, and the generator
    [rng] of [solution.py]. *)
Record world := World {
  arrays : gmap ref Np.ndarray;
  solutions : gmap ref MetaModeSolution.t;
  solvers : gmap ref MetaModeSolver.t;
  rng : Rng.state;
}.

Definition with_arrays (f : gmap ref Np.ndarray → gmap ref Np.ndarray)
    (w : world) : world :=
  World (f (arrays w)) (solutions w) (solvers w) (rng w).
Definition with_solutions
    (f : gmap ref MetaModeSolution.t → gmap ref MetaModeSolution.t)
    (w : world) : world :=
  World (arrays w) (f (solutions w)) (solvers w) (rng w).
Definition with_solvers
    (f : gmap ref MetaModeSolver.t → gmap ref MetaModeSolver.t)
    (w : world) : world :=
  World (arrays w) (solutions w) (f (solvers w)) (rng w).
Definition with_rng (g : Rng.state) (w : world) : world :=
  World (arrays w) (solutions w) (solvers w) g.

(** ** Computations on the store

    A computation maps a state to an outcome and the state it leaves
    behind; a raised exception keeps the state reached so far, as in
    Python. *)
Module Py.

Definition M (A : Type) : Type := world → result A * world.

Definition ret {A} (a : A) : M A := λ w, (Ok a, w).
Definition raise {A} (e : exn) : M A := λ w, (Raise e, w).
Definition lift {A} (r : result A) : M A := λ w, (r, w).

Definition bind {A B} (m : M A) (k : A → M B) : M B := λ w,
  match m w with
  | (Ok a, w') => k a w'
  | (Raise e, w') => (Raise e, w')
  end.

(** Objects: allocation at a fresh reference, attribute reads, and
    updates in place.  A reference that is not in the store cannot be
    produced by the program; reading it is reported as [SystemError]. *)
Definition new_array (a : Np.ndarray) : M ref := λ w,
  let l := fresh (dom (arrays w)) in (Ok l, with_arrays (insert l a) w).
Definition get_array (l : ref) : M Np.ndarray := λ w,
  match arrays w !! l with
  | Some a => (Ok a, w)
  | None => (Raise SystemError, w)
  end.
Definition set_array (l : ref) (a : Np.ndarray) : M unit := λ w,
  (Ok (), with_arrays (insert l a) w).

Definition new_solution (s : MetaModeSolution.t) : M ref := λ w,
  let l := fresh (dom (solutions w)) in (Ok l, with_solutions (insert l s) w).
Definition get_solution (l : ref) : M MetaModeSolution.t := λ w,
  match solutions w !! l with
  | Some s => (Ok s, w)
  | None => (Raise SystemError, w)
  end.
Definition update_solution (l : ref)
    (f : MetaModeSolution.t → MetaModeSolution.t) : M unit := λ w,
  match solutions w !! l with
  | Some s => (Ok (), with_solutions (insert l (f s)) w)
  | None => (Raise SystemError, w)
  end.

Definition new_solver (s : MetaModeSolver.t) : M ref := λ w,
  let l := fresh (dom (solvers w)) in (Ok l, with_solvers (insert l s) w).
Definition get_solver (l : ref) : M MetaModeSolver.t := λ w,
  match solvers w !! l with
  | Some s => (Ok s, w)
  | None => (Raise SystemError, w)
  end.
Definition update_solver (l : ref)
    (f : MetaModeSolver.t → MetaModeSolver.t) : M unit := λ w,
  match solvers w !! l with
  | Some s => (Ok (), with_solvers (insert l (f s)) w)
  | None => (Raise SystemError, w)
  end.

(** A call on the generator. *)
Definition draw {A} (f : Rng.state → A * Rng.state) : M A := λ w,
  let '(a, g) := f (rng w) in (Ok a, with_rng g w).
Definition draw_result {A} (f : Rng.state → result A * Rng.state) : M A := λ w,
  let '(r, g) := f (rng w) in (r, with_rng g w).

End Py.

Declare Scope py_scope.
Delimit Scope py_scope with py.
Notation "x <- m ;; k" := (Py.bind m (λ x, k))
  (at level 100, m at next level, k at level 200, right associativity,
   format "'[v' x  <-  m  ;;  '/' k ']'") : py_scope.
Notation "m ;;; k" := (Py.bind m (λ _, k))
  (at level 100, k at level 200, right associativity,
   format "'[v' m  ;;;  '/' k ']'") : py_scope.

(** ** solution.py *)

Module solution.

Import Np Py MetaModeSolution.
Local Open Scope py_scope.

(** [MetaModeSolution(n_modes, n_channels, permutation)]: a supplied
    table is kept by reference. *)
Definition __init__ (n_modes n_channels : nat) (permutation : option ref)
  : M ref :=
  u <- match permutation with
       | None => new_array (tile_rows (arange n_modes) n_channels)
       | Some l => ret l
       end;;
  new_solution (Make n_modes n_channels n_modes u None).

(** [np.apply_along_axis(func1d=rng.permutation, axis=1, arr=a)] for a
    table [a]: NumPy refuses an array without rows.  Arrays that are
    not two-dimensional are outside the model and reported as
    [ValueError]. *)
Definition apply_along_axis_permutation (a : ndarray) : M ndarray :=
  match shape a with
  | [c; m] =>
      if decide (c = 0) then raise ValueError
      else rs <- draw (Rng.permute_rows (rows a));; ret (of_rows m rs)
  | _ => raise ValueError
  end.

Definition random_permutation (self : ref) : M ref :=
  s <- get_solution self;;
  u <- get_array (unpermuted_modes s);;
  p <- apply_along_axis_permutation u;;
  l <- new_array p;;
  update_solution self (with_permuted_modes (Some l));;;
  ret self.

Definition permute_one_channel (self : ref) (channel : Z) : M ref :=
  s <- get_solution self;;
  u <- get_array (unpermuted_modes s);;
  l <- new_array u;;
  update_solution self (with_permuted_modes (Some l));;;
  v <- draw (Rng.permutation_int (n_modes s));;
  s' <- get_solution self;;
  match permuted_modes s' with
  | None => raise TypeError
  | Some l' =>
      a <- get_array l';;
      a' <- lift (setitem a channel v);;
      set_array l' a';;;
      ret self
  end.

Definition step (self : ref) : M ref :=
  s <- get_solution self;;
  channel <- draw_result (Rng.integers (n_channels s));;
  permute_one_channel self (Z.of_nat channel);;;
  ret self.

Definition copy (self : ref) : M ref :=
  s <- get_solution self;;
  match permuted_modes s with
  | None => raise AttributeError
  | Some l =>
      a <- get_array l;;
      l' <- new_array a;;
      __init__ (n_modes s) (n_channels s) (Some l')
  end.

End solution.

(** ** problem.py *)

Module problem.

Import Np Py objectives MetaModeProblem.

(** The [objective] argument: a member name or a member. *)
Inductive selector :=
| Name (s : string)
| Member (o : Objective).

Definition __init__ (correlation_matrix : ndarray) (n_modes n_channels : nat)
    (objective : selector) : result MetaModeProblem.t :=
  (o <- match objective with
        | Name s => __getitem__ s
        | Member o => Ok o
        end;;
   Ok (Make correlation_matrix n_modes n_channels n_modes o
            (scale (arange n_channels) (Z.of_nat n_modes))))%R.

(** [solution.permuted_modes + self.reindexer[:, None]].  With
    [permuted_modes] unset this is [None + array], which NumPy carries
    out element by element: the first element raises [TypeError].  An
    empty reindexer (no channel) has no element: the sum is then an
    empty array of objects and nothing is raised here; it is the next
    operation of the caller that refuses that array, with the
    exception [refused]. *)
Definition global_indices (self : MetaModeProblem.t) (solution : ref)
    (refused : exn) : M ndarray :=
  (s <- get_solution solution;;
   match MetaModeSolution.permuted_modes s with
   | None =>
       if decide (data (reindexer self) = []) then raise refused
       else raise TypeError
   | Some l =>
       perm <- get_array l;;
       lift (add perm (as_column (reindexer self)))
   end)%py.

(** An array of objects is refused by the Numba dispatcher of the
    scoring function with its [TypingError]. *)
Definition evaluate (self : MetaModeProblem.t) (solution : ref) : M Z :=
  (func <- lift (func (objective self));;
   perm <- global_indices self solution TypingError;;
   lift (func (correlation_matrix self) perm (n_modes self) (n_channels self)))%py.

(** An array of objects is refused as an index by NumPy with
    [IndexError]. *)
Definition generate (self : MetaModeProblem.t) (solution : ref) : M ndarray :=
  (perm <- global_indices self solution IndexError;;
   lift (first <- take_along (correlation_matrix self) 0 perm;;
         perm' <- take_along first 2 perm;;
         d <- diagonal perm' 1 3;;
         Ok (transpose d))%R)%py.

End problem.

(** ** The objectives on a tensor of [float64]

    The two scoring functions are compiled by Numba for the type of
    their arguments.  This module gives them, and [evaluate] and
    [generate] of a problem, for a correlation tensor of [float64]:
    the entries are IEEE 754 binary64 numbers and every addition and
    subtraction rounds to nearest, ties to even.  The index tables
    stay arrays of integers. *)

Module Float64.

Import Np objectives.
Import PrimFloat.
Local Open Scope result_scope.

Record farray := FArray { fshape : list nat; fdata : list float }.

Definition ftabulate (sh : list nat) (f : list nat → float) : farray :=
  FArray sh (f <$> indices sh).

Definition fitem (a : farray) (idx : list nat) : float :=
  nth (offset (fshape a) idx) (fdata a) 0%float.

(** [a[..., idx, ...]], [np.diagonal] and [a.T] move entries and do no
    arithmetic: they are those of [Np] on a buffer of floats. *)
Definition take_along (a : farray) (axis : nat) (idx : ndarray)
  : result farray :=
  match fshape a !! axis with
  | None => Raise IndexError
  | Some n =>
      if forallb (index_ok n) (data idx) then
        Ok (ftabulate
              (take axis (fshape a) ++ shape idx ++ drop (S axis) (fshape a))
              (λ i, fitem a (take axis i
                             ++ wrap_index n (item idx (take (ndim idx) (drop axis i)))
                             :: drop (axis + ndim idx) i)))
      else Raise IndexError
  end.

Definition diagonal (a : farray) (axis1 axis2 : nat) : result farray :=
  match fshape a !! axis1, fshape a !! axis2 with
  | Some d1, Some d2 =>
      if decide (axis1 < axis2) then
        let rest := remove_at axis1 (remove_at axis2 (fshape a)) in
        Ok (ftabulate (rest ++ [d1 `min` d2])
              (λ idx, let k := List.last idx 0 in
                      fitem a (insert_at axis2 k
                                 (insert_at axis1 k (removelast idx)))))
      else Raise ValueError
  | _, _ => Raise ValueError
  end.

Definition transpose (a : farray) : farray :=
  ftabulate (rev (fshape a)) (λ idx, fitem a (rev idx)).

(** [arr.sum()] as Numba compiles it: an accumulator that starts at
    zero and takes the entries one by one, in the order of the
    buffer. *)
Definition sum (a : farray) : float := fold_left add (fdata a) 0%float.

(** The product [n_modes * n_channels] is a product of [int64], and
    the subtraction converts it to [float64]. *)
Definition wrap_int64 (z : Z) : Z :=
  ((z + 2 ^ 63) `mod` 2 ^ 64 - 2 ^ 63)%Z.

Definition of_int64 (z : Z) : float :=
  FloatOps.SF2Prim
    (SpecFloat.binary_normalize FloatOps.prec FloatOps.emax z 0 false).

(** The outcome of a call of a compiled function: the value it
    returns, or [Undefined] when it reads outside an array.  Numba
    does not check bounds; what such a call returns depends on the
    memory next to the buffer and is not described here. *)
Inductive compiled (A : Type) :=
| Returns (a : A)
| Undefined.
Arguments Returns {A} a.
Arguments Undefined {A}.

Definition unchecked {A} (r : result A) : compiled A :=
  match r with
  | Ok a => Returns a
  | Raise _ => Undefined
  end.

Definition slot_sum (big_corr : farray) (perm : ndarray) (i : nat)
  : compiled float :=
  unchecked
    (col <- index_axis perm 1 (Z.of_nat i);;
     first_pass <- take_along big_corr 0 col;;
     second_pass <- take_along first_pass 1 col;;
     Ok (sum second_pass)).

(** The loop [for i in range(n_modes): ret += f(..)] on the
    accumulator [ret], whose type Numba unifies to [float64]. *)
Fixpoint for_range_acc (f : float → nat → compiled float) (ret : float)
    (ks : list nat) : compiled float :=
  match ks with
  | [] => Returns ret
  | i :: ks' =>
      match f ret i with
      | Returns ret' => for_range_acc f ret' ks'
      | Undefined => Undefined
      end
  end.

Definition sum_perms (big_corr : farray) (perm : ndarray)
    (n_modes n_channels : nat) : compiled float :=
  match for_range_acc
          (λ ret i, match slot_sum big_corr perm i with
                    | Returns s => Returns (ret + s)%float
                    | Undefined => Undefined
                    end)
          0%float (seq 0 n_modes) with
  | Returns ret =>
      Returns (ret - of_int64 (wrap_int64 (Z.of_nat n_modes * Z.of_nat n_channels)))%float
  | Undefined => Undefined
  end.

Definition abs_sum_perms (big_corr : farray) (perm : ndarray)
    (n_modes n_channels : nat) : compiled float :=
  match for_range_acc
          (λ ret i, match slot_sum big_corr perm i with
                    | Returns s => Returns (ret + abs s)%float
                    | Undefined => Undefined
                    end)
          0%float (seq 0 n_modes) with
  | Returns ret =>
      Returns (ret - of_int64 (wrap_int64 (Z.of_nat n_modes * Z.of_nat n_channels)))%float
  | Undefined => Undefined
  end.

(** [Objective.func] *)
Definition func (self : Objective)
  : result (farray → ndarray → nat → nat → compiled float) :=
  match objectives.func self with
  | Raise e => Raise e
  | Ok _ =>
      Ok match self with
         | ABS_SUM => abs_sum_perms
         | _ => sum_perms
         end
  end.

(** [MetaModeProblem.evaluate] and [MetaModeProblem.generate] for a
    problem over the tensor [corr] with [n_modes] and [n_channels],
    as functions of the table [permuted_modes] of the solution, which
    is all that they read of the state. *)
Definition evaluate (corr : farray) (n_modes n_channels : nat)
    (o : Objective) (permuted_modes : ndarray) : result (compiled float) :=
  func <- func o;;
  perm <- Np.add permuted_modes
            (as_column (scale (arange n_channels) (Z.of_nat n_modes)));;
  Ok (func corr perm n_modes n_channels).

Definition generate (corr : farray) (n_modes n_channels : nat)
    (permuted_modes : ndarray) : result farray :=
  perm <- Np.add permuted_modes
            (as_column (scale (arange n_channels) (Z.of_nat n_modes)));;
  first <- take_along corr 0 perm;;
  perm' <- take_along first 2 perm;;
  d <- diagonal perm' 1 3;;
  Ok (transpose d).

(** The exact value of a finite float, as a multiple of [2^-1074]
    (every finite binary64 number is one). *)
Definition exact (f : float) : option Z :=
  match FloatOps.Prim2SF f with
  | SpecFloat.S754_zero _ => Some 0%Z
  | SpecFloat.S754_finite s m e =>
      Some ((if s then Z.neg m else Z.pos m) * 2 ^ (e + 1074))%Z
  | _ => None
  end.

(** The exact sum of all entries of a tensor, in the same unit. *)
Definition exact_total (a : farray) : option Z :=
  foldr (λ x acc, v ← exact x; s ← acc; Some (v + s)%Z) (Some 0%Z) (fdata a).

(** A square tensor of side [n] that equals its transpose. *)
Definition symmetric (n : nat) (corr : farray) : Prop :=
  fshape corr = [n; n] ∧
  ∀ i j, i < n → j < n → fitem corr [i; j] = fitem corr [j; i].

End Float64.

(** ** solver.py *)

Module solver.

Import Np Py MetaModeSolver.
Local Open Scope py_scope.

Definition __init__ (correlation_matrix : ndarray) (n_modes n_channels : nat)
    (objective : problem.selector) : M ref :=
  p <- lift (problem.__init__ correlation_matrix n_modes n_channels objective);;
  sol <- solution.__init__ n_modes n_channels None;;
  best <- solution.random_permutation sol;;
  v <- problem.evaluate p best;;
  new_solver (Make p best v 0 [] [] None).

Definition step (self : ref) : M bool :=
  sv <- get_solver self;;
  sol <- solution.copy (best_solution sv);;
  solution.step sol;;;
  value <- problem.evaluate (problem sv) sol;;
  sv <- get_solver self;;
  if decide (value > best_value sv)%Z then
    update_solver self (with_best sol value);;;
    update_solver self (λ s,
      match _tqdm s with
      | Some b => with__tqdm (Some (tqdm.set_postfix (best_value s) b)) s
      | None => s
      end);;;
    ret true
  else ret false.

(** The body of the loop of [solve]. *)
Definition solve_iteration (self : ref) : M unit :=
  accepted <- step self;;
  (if accepted : bool then
     sv <- get_solver self;;
     update_solver self
       (λ s, with_record (record s ++ [(_iteration sv, best_value sv)]) s);;;
     sv <- get_solver self;;
     g <- problem.generate (problem sv) (best_solution sv);;
     update_solver self (λ s, with_steps (steps s ++ [g]) s)
   else ret ());;;
  update_solver self (λ s, with__iteration (_iteration s + 1) s).

Fixpoint for_range (n : nat) (body : M unit) : M unit :=
  match n with
  | 0 => ret ()
  | S n' => body ;;; for_range n' body
  end.

Definition solve (self : ref) (n_steps : nat) (progress : bool) : M unit :=
  update_solver self (with__tqdm (Some (tqdm.trange n_steps (negb progress))));;;
  for_range n_steps (solve_iteration self);;;
  update_solver self (λ s, with__tqdm (tqdm.close <$> _tqdm s) s);;;
  update_solver self (with__tqdm None).

Definition get_solution (self : ref) : M ref :=
  sv <- get_solver self;; ret (best_solution sv).

Definition get_value (self : ref) : M Z :=
  sv <- get_solver self;; ret (best_value sv).

Definition generate (self : ref) : M ndarray :=
  sv <- get_solver self;; problem.generate (problem sv) (best_solution sv).

End solver.

(** ** Vocabulary of the specification *)

Module Spec.

Import Np.

(** The row [0, 1, ..., m-1]. *)
Definition identity_row (m : nat) : list Z := Z.of_nat <$> seq 0 m.

(** A row is a permutation of [0..m-1]: no repeats, all values
    present. *)
Definition is_permutation (m : nat) (r : list Z) : Prop :=
  r ≡ₚ identity_row m.

#[global] Instance is_permutation_dec m r : Decision (is_permutation m r).
Proof. unfold is_permutation. apply _. Defined.

(** A [c] by [m] table all of whose rows are permutations. *)
Definition valid_table (c m : nat) (t : ndarray) : Prop :=
  shape t = [c; m] ∧ Forall (is_permutation m) (rows t).

#[global] Instance valid_table_dec c m t : Decision (valid_table c m t).
Proof. unfold valid_table. apply _. Defined.

(** The table [permuted_modes + reindexer[:, None]] of global row and
    column indices into the correlation tensor. *)
Definition global_table (t : ndarray) (m : nat) : ndarray :=
  tabulate (shape t)
    (λ idx, (item t idx + Z.of_nat (hd 0%nat idx) * Z.of_nat m)%Z).

(** The entry of the correlation tensor that pairs channels [a] and
    [b] in slot [i], for a table [g] of global indices. *)
Definition aligned (corr g : ndarray) (i a b : nat) : Z :=
  item corr [Z.to_nat (item g [a; i]); Z.to_nat (item g [b; i])].

(** The sum over one slot: all pairs of the [c] channels. *)
Definition slot_total (corr g : ndarray) (c i : nat) : Z :=
  sum (tabulate [c; c]
         (λ idx, aligned corr g i (nth 0 idx 0) (nth 1 idx 0))).

(** The stack of aligned sub-matrices in the words of the
    specification: the entry at [(i, a, b)] is the entry of the
    correlation tensor at row [t[a][i] + a * m] and column
    [t[b][i] + b * m]. *)
Definition aligned_stack (corr t : ndarray) (m c : nat) : ndarray :=
  tabulate [m; c; c] (λ idx,
    let i := nth 0 idx 0 in
    let a := nth 1 idx 0 in
    let b := nth 2 idx 0 in
    item corr [Z.to_nat (item t [a; i] + Z.of_nat a * Z.of_nat m);
               Z.to_nat (item t [b; i] + Z.of_nat b * Z.of_nat m)]).

(** A square tensor of side [n] that equals its transpose. *)
Definition symmetric (n : nat) (corr : ndarray) : Prop :=
  shape corr = [n; n] ∧
  ∀ i j, i < n → j < n → item corr [i; j] = item corr [j; i].

(** The entries of [corr] are integers so small that every sum which
    the objectives, or a sum over the tensor of [generate], can form
    from them, in whatever order, and its difference with
    [n_modes * n_channels], stays within [2^53] in magnitude.  On
    such a tensor [float64] adds without rounding and [int64] without
    wrapping around, so that the compiled objectives compute the
    exact sums of [objectives.sum_perms] and
    [objectives.abs_sum_perms]. *)
Definition sums_are_exact (corr : ndarray) (m c : nat) : Prop :=
  ∃ B : Z,
    (∀ j k, j < c * m → k < c * m → (Z.abs (item corr [j; k]) ≤ B)%Z) ∧
    (Z.of_nat m * (Z.of_nat c * Z.of_nat c) * B
     + Z.of_nat m * Z.of_nat c ≤ 2 ^ 53)%Z.

(** The solution object at [sol] is a solution for [c] channels and
    [m] modes whose current table [permuted_modes] is [t]. *)
Definition holds_table (w : world) (sol : ref) (c m : nat) (t : ndarray)
  : Prop :=
  ∃ s l,
    solutions w !! sol = Some s ∧
    MetaModeSolution.n_modes s = m ∧ MetaModeSolution.n_channels s = c ∧
    MetaModeSolution.permuted_modes s = Some l ∧
    arrays w !! l = Some t.

(** The invariant of a solution object: its baseline
    [unpermuted_modes] is a valid table for its [n_channels] and
    [n_modes], and so is [permuted_modes] whenever it is set. *)
Definition table_invariant (w : world) (sol : ref) : Prop :=
  ∃ s u,
    solutions w !! sol = Some s ∧
    arrays w !! MetaModeSolution.unpermuted_modes s = Some u ∧
    valid_table (MetaModeSolution.n_channels s) (MetaModeSolution.n_modes s) u ∧
    ∀ l, MetaModeSolution.permuted_modes s = Some l →
         ∃ t, arrays w !! l = Some t ∧
              valid_table (MetaModeSolution.n_channels s)
                (MetaModeSolution.n_modes s) t.

(** The best solution of the solver at [self] holds a valid table. *)
Definition best_is_valid (w : world) (self : ref) : Prop :=
  ∃ sv c m t,
    solvers w !! self = Some sv ∧
    holds_table w (MetaModeSolver.best_solution sv) c m t ∧
    valid_table c m t.

(** The record that the constructor of [MetaModeProblem] fills in. *)
Abbreviation problem_of corr m c o :=
  (MetaModeProblem.Make corr m c m o (scale (arange c) (Z.of_nat m))).

(** A problem as the constructor builds it, over a correlation tensor
    of side [n_channels * n_modes], with at least one channel and an
    objective that has a scoring function. *)
Definition valid_problem (p : MetaModeProblem.t) : Prop :=
  ∃ corr m c o,
    p = problem_of corr m c o ∧
    shape corr = [c * m; c * m] ∧ o ≠ objectives.DYN_SUM ∧ c ≠ 0.

(** The solver at [self] is in a state from which the search can
    proceed: a valid problem and a best solution with a valid table of
    the problem's dimensions. *)
Definition solver_ready (w : world) (self : ref) : Prop :=
  ∃ sv t,
    solvers w !! self = Some sv ∧
    valid_problem (MetaModeSolver.problem sv) ∧
    holds_table w (MetaModeSolver.best_solution sv)
      (MetaModeProblem.n_channels (MetaModeSolver.problem sv))
      (MetaModeProblem.n_modes (MetaModeSolver.problem sv)) t ∧
    valid_table (MetaModeProblem.n_channels (MetaModeSolver.problem sv))
      (MetaModeProblem.n_modes (MetaModeSolver.problem sv)) t.

(** The table of the initial candidate of a solver constructed in
    state [w], and the state in which that candidate is evaluated:
    the identity table and its row-wise shuffle have been allocated
    and the generator has been advanced. *)
Definition initial_table (m c : nat) (w : world) : ndarray :=
  of_rows m (Rng.permute_rows (rows (tile_rows (arange m) c)) (rng w)).1.

Definition initial_world (m c : nat) (w : world) : world :=
  let la := fresh (dom (arrays w)) in
  let sol := fresh (dom (solutions w)) in
  let la2 := fresh (dom (<[la := tile_rows (arange m) c]> (arrays w))) in
  World (<[la2 := initial_table m c w]>
           (<[la := tile_rows (arange m) c]> (arrays w)))
        (<[sol := MetaModeSolution.Make m c m la (Some la2)]> (solutions w))
        (solvers w)
        (Rng.permute_rows (rows (tile_rows (arange m) c)) (rng w)).2.

(** The ways in which a caller can mutate a solution: its three
    mutating methods, and a write into the buffer of one of its two
    tables. *)
Inductive mutation :=
| Random_permutation
| Permute_one_channel (channel : Z)
| Step
| Write_permuted (a : ndarray)
| Write_unpermuted (a : ndarray).

Definition mutate (sol : ref) (μ : mutation) : Py.M unit :=
  match μ with
  | Random_permutation => (solution.random_permutation sol;;; Py.ret ())%py
  | Permute_one_channel channel =>
      (solution.permute_one_channel sol channel;;; Py.ret ())%py
  | Step => (solution.step sol;;; Py.ret ())%py
  | Write_permuted a =>
      (s <- Py.get_solution sol;;
       match MetaModeSolution.permuted_modes s with
       | Some l => Py.set_array l a
       | None => Py.raise TypeError
       end)%py
  | Write_unpermuted a =>
      (s <- Py.get_solution sol;;
       Py.set_array (MetaModeSolution.unpermuted_modes s) a)%py
  end.

(** The state after a sequence of mutations of [sol], whether or not
    the individual mutations raise. *)
Fixpoint after_mutations (sol : ref) (μs : list mutation) (w : world)
  : world :=
  match μs with
  | [] => w
  | μ :: μs' => after_mutations sol μs' (mutate sol μ w).2
  end.

(** [sol] is an object that did not exist in state [w0], none of
    whose tables existed in [w0], and everything that existed in [w0]
    is unchanged in [w]. *)
Definition apart (w0 : world) (sol : ref) (w : world) : Prop :=
  arrays w0 ⊆ arrays w ∧ solutions w0 ⊆ solutions w ∧
  solutions w0 !! sol = None ∧
  ∃ s, solutions w !! sol = Some s ∧
       arrays w0 !! MetaModeSolution.unpermuted_modes s = None ∧
       ∀ l, MetaModeSolution.permuted_modes s = Some l →
            arrays w0 !! l = None.

(** [needle] occurs in [hay]. *)
Fixpoint contains (needle hay : string) : bool :=
  String.prefix needle hay ||
  match hay with
  | EmptyString => false
  | String _ hay' => contains needle hay'
  end.

(** A message that enumerates the valid selectors names every member
    of [Objective]. *)
Definition enumerates_selectors (msg : string) : Prop :=
  Forall (λ n, contains n msg = true) (fst <$> objectives.__members__).

(** The four modules contain a single [raise] statement, the
    [KeyError] of [Objective.func].  The other exceptions of the model
    are raised by the interpreter or by NumPy when an operation meets
    an operand that it does not support. *)
Definition raised_by_core (e : exn) : Prop :=
  match e with
  | KeyError _ => True
  | _ => False
  end.

(** A computation that never changes the state. *)
Definition read_only {A} (m : Py.M A) : Prop := ∀ w, (m w).2 = w.

(** A computation that never touches the solver objects. *)
Definition keeps_solvers {A} (m : Py.M A) : Prop :=
  ∀ w, solvers (m w).2 = solvers w.

(** What [evaluate] and [generate] compute from the table that a
    solution holds: the score and the stack of aligned sub-matrices
    as functions of the problem and of the table alone. *)
Definition score (p : MetaModeProblem.t) (t : ndarray) : result Z :=
  (f <- objectives.func (MetaModeProblem.objective p);;
   g <- add t (as_column (MetaModeProblem.reindexer p));;
   f (MetaModeProblem.correlation_matrix p) g (MetaModeProblem.n_modes p)
     (MetaModeProblem.n_channels p))%R.

Definition stack (p : MetaModeProblem.t) (t : ndarray) : result ndarray :=
  (g <- add t (as_column (MetaModeProblem.reindexer p));;
   first <- take_along (MetaModeProblem.correlation_matrix p) 0 g;;
   perm' <- take_along first 2 g;;
   d <- diagonal perm' 1 3;;
   Ok (transpose d))%R.

(** The solution object at [sol] has [permuted_modes] set and holds
    the table [t] there. *)
Definition current_table (w : world) (sol : ref) (t : ndarray) : Prop :=
  ∃ s l,
    solutions w !! sol = Some s ∧
    MetaModeSolution.permuted_modes s = Some l ∧
    arrays w !! l = Some t.

(** The [best_value] of the solver at [self] is the score of the table
    that its [best_solution] holds. *)
Definition value_is_score (w : world) (self : ref) : Prop :=
  ∃ sv t,
    solvers w !! self = Some sv ∧
    current_table w (MetaModeSolver.best_solution sv) t ∧
    score (MetaModeSolver.problem sv) t = Ok (MetaModeSolver.best_value sv).

(** A computation that leaves every array and every solution object
    that exists as it is (it may add new ones). *)
Definition keeps_objects {A} (m : Py.M A) : Prop :=
  ∀ w, arrays w ⊆ arrays (m w).2 ∧ solutions w ⊆ solutions (m w).2.

(** From [w] to [w'] no array and no solution object has changed, and
    the solver at [self], if there is one, has kept its problem, its
    best solution and its best value. *)
Definition same_best (self : ref) (w w' : world) : Prop :=
  arrays w' = arrays w ∧ solutions w' = solutions w ∧
  ∀ sv, solvers w !! self = Some sv →
    ∃ sv', solvers w' !! self = Some sv' ∧
      MetaModeSolver.problem sv' = MetaModeSolver.problem sv ∧
      MetaModeSolver.best_solution sv' = MetaModeSolver.best_solution sv ∧
      MetaModeSolver.best_value sv' = MetaModeSolver.best_value sv.

(** A computation whose outcome and whose effect on the rest of the
    state do not depend on the solver objects. *)
Definition ignores_solvers {A} (m : Py.M A) : Prop :=
  ∀ f w, m (with_solvers f w) = ((m w).1, with_solvers f (m w).2).

(** The state with the progress bar of the solver at [self] taken
    away. *)
Definition without_tqdm (self : ref) (w : world) : world :=
  with_solvers (alter (MetaModeSolver.with__tqdm None) self) w.

(** Two computations that cannot be told apart except through the
    progress bar of the solver at [self]: from states that agree up
    to that bar they end alike, in states that agree up to it. *)
Definition tqdm_blind {A} (self : ref) (m1 m2 : Py.M A) : Prop :=
  ∀ w1 w2, without_tqdm self w1 = without_tqdm self w2 →
    (m1 w1).1 = (m2 w2).1 ∧
    without_tqdm self (m1 w1).2 = without_tqdm self (m2 w2).2.

(** The total of the off-diagonal entries of the aligned
    sub-matrices of the table [t]: over all slots [i] and all pairs
    of distinct channels [a] and [b]. *)
Definition off_diagonal_total (corr t : ndarray) (m c : nat) : Z :=
  sum_Z ((λ i,
    sum_Z ((λ a,
      sum_Z ((λ b,
        if decide (a = b) then 0%Z
        else item corr
               [Z.to_nat (item t [a; i] + Z.of_nat a * Z.of_nat m);
                Z.to_nat (item t [b; i] + Z.of_nat b * Z.of_nat m)])
        <$> seq 0 c))
      <$> seq 0 c))
    <$> seq 0 m).

(** The solver object with its bookkeeping reset: the iteration
    counter, the record, the steps and the progress bar.  What is
    left is the problem and what the search has found. *)
Definition forget_history (s : MetaModeSolver.t) : MetaModeSolver.t :=
  MetaModeSolver.Make (MetaModeSolver.problem s)
    (MetaModeSolver.best_solution s) (MetaModeSolver.best_value s)
    0 [] [] None.

(** The state with the bookkeeping of the solver at [self] reset. *)
Definition without_history (self : ref) (w : world) : world :=
  with_solvers (alter forget_history self) w.

(** Two computations that cannot be told apart except through the
    bookkeeping of the solver at [self]. *)
Definition history_blind {A} (self : ref) (m1 m2 : Py.M A) : Prop :=
  ∀ w1 w2, without_history self w1 = without_history self w2 →
    (m1 w1).1 = (m2 w2).1 ∧
    without_history self (m1 w1).2 = without_history self (m2 w2).2.

(** The table [t] with its columns (the metamode slots) taken in the
    order [σ]. *)
Definition reorder_slots (σ : list nat) (t : ndarray) : ndarray :=
  tabulate (shape t) (λ idx,
    item t [nth 0 idx 0; nth (nth 1 idx 0) σ 0]).

(** [n] successive calls of [MetaModeSolver.step()], with the values
    they return. *)
Fixpoint step_calls (self : ref) (n : nat) : Py.M (list bool) :=
  match n with
  | 0 => Py.ret []
  | S n' =>
      (b <- solver.step self;;
       bs <- step_calls self n';;
       Py.ret (b :: bs))%py
  end.

(** The numbers of the accepted calls in a list of acceptance flags,
    the calls being numbered from [k]. *)
Fixpoint positions_of_true (k : nat) (bs : list bool) : list nat :=
  match bs with
  | [] => []
  | b :: bs' => (if b : bool then [k] else []) ++ positions_of_true (S k) bs'
  end.

(** What the specification has [solve] append, read off [n] successive
    calls of [MetaModeSolver.step()] alone, from state [w] and with
    the calls numbered from [it]: for each accepted call, in order,
    its number, the [best_value] after the call and the tensor that
    [generate()] returns after the call.  (A call that is not
    accepted contributes nothing; the number grows with every
    call.) *)
Fixpoint accepted_steps (self : ref) (it n : nat) (w : world)
  : list (nat * Z * ndarray) :=
  match n with
  | 0 => []
  | S n' =>
      match solver.step self w with
      | (Ok b, w1) =>
          (if b : bool then
             match solvers w1 !! self, solver.generate self w1 with
             | Some sv, (Ok g, _) => [(it, MetaModeSolver.best_value sv, g)]
             | _, _ => []
             end
           else [])
          ++ accepted_steps self (S it) n' w1
      | (Raise _, _) => []
      end
  end.

End Spec.

(** ** Concrete inputs

    Two channels with three modes each.  The tensor has ones on the
    diagonal and the constant 5 wherever the same mode of the two
    channels meets. *)

Module Sample.

Import Np.

Definition corr : ndarray :=
  tabulate [6; 6] (λ idx,
    let i := nth 0 idx 0 in
    let j := nth 1 idx 0 in
    if decide (i = j) then 1%Z
    else if decide (i `mod` 3 = j `mod` 3) then 5%Z else 0%Z).

(** An empty store and a generator that will deliver these raw
    draws. *)
Definition start : world :=
  World ∅ ∅ ∅
    [2; 1; 0; 1; 0; 0; 1; 1; 1; 0; 0; 0; 0; 0; 1; 2; 0; 0; 1; 2; 1; 0].

(** A solution that has been constructed but not permuted (object 0),
    and the same solution after [random_permutation()]; the tables
    that it holds in the two states. *)
Definition constructed : world := (solution.__init__ 3 2 None start).2.
Definition permuted : world := (solution.random_permutation 0 constructed).2.

Definition identity : ndarray := NdArray [2; 3] [0; 1; 2; 0; 1; 2]%Z.
Definition shuffled : ndarray := NdArray [2; 3] [2; 1; 0; 1; 0; 2]%Z.

(** A solver for the [sum] objective (object 0) right after its
    construction. *)
Definition solver_new : world :=
  (solver.__init__ corr 3 2 (problem.Name "SUM") start).2.

(** The identity tensor of side [n], and a state in which solution 0
    holds the identity table as its current table. *)
Definition eye (n : nat) : ndarray :=
  tabulate [n; n] (λ idx,
    if decide (nth 0 idx 0 = nth 1 idx 0) then 1%Z else 0%Z).

Definition at_identity : world :=
  World {[ 0 := tile_rows (arange 3) 2 ]}
        {[ 0 := MetaModeSolution.Make 3 2 3 0 (Some 0) ]} ∅ [].

Definition problem_sum : MetaModeProblem.t :=
  MetaModeProblem.Make corr 3 2 3 objectives.SUM
    (scale (arange 2) 3).

(** A symmetric tensor of [float64] for two channels and three modes,
    with ones on the diagonal; its other entries are the floats
    nearest to 0.1, ..., 0.9:
    <<
       1    0.2  0.7  0.3  0.1  0.2
       0.2  1    0.7  0.1  0.9  0.4
       0.7  0.7  1    0.9  0.7  0.6
       0.3  0.1  0.9  1    0.1  0.2
       0.1  0.9  0.7  0.1  1    0.9
       0.2  0.4  0.6  0.2  0.9  1
    >>
    and the identity table for it. *)
Import PrimFloat.

Definition f01 : PrimFloat.float := 0x1.999999999999ap-4%float.
Definition f02 : PrimFloat.float := 0x1.999999999999ap-3%float.
Definition f03 : PrimFloat.float := 0x1.3333333333333p-2%float.
Definition f04 : PrimFloat.float := 0x1.999999999999ap-2%float.
Definition f06 : PrimFloat.float := 0x1.3333333333333p-1%float.
Definition f07 : PrimFloat.float := 0x1.6666666666666p-1%float.
Definition f09 : PrimFloat.float := 0x1.ccccccccccccdp-1%float.
Definition f1 : PrimFloat.float := 1%float.

Definition fcorr : Float64.farray :=
  Float64.FArray [6; 6]
    [f1;  f02; f07; f03; f01; f02;
     f02; f1;  f07; f01; f09; f04;
     f07; f07; f1;  f09; f07; f06;
     f03; f01; f09; f1;  f01; f02;
     f01; f09; f07; f01; f1;  f09;
     f02; f04; f06; f02; f09; f1].

Definition ftable : ndarray := tile_rows (arange 3) 2.

(** 3.6000000000000014 and 3.5999999999999996: three units in the
    last place above the float nearest to 3.6, and one unit below
    it. *)
Definition f36_above : PrimFloat.float := 0x1.cccccccccccd0p+1%float.
Definition f36_below : PrimFloat.float := 0x1.cccccccccccccp+1%float.

(** A state with two solutions: object 0 holds the shuffled table and
    object 1 holds the same table with its slots in the order
    2, 0, 1. *)
Definition reordered : world :=
  World {[ 0 := shuffled; 1 := Spec.reorder_slots [2; 0; 1] shuffled ]}
        {[ 0 := MetaModeSolution.Make 3 2 3 0 (Some 0);
           1 := MetaModeSolution.Make 3 2 3 1 (Some 1) ]} ∅ [].

End Sample.

(** * Properties

    ** Arrays built by [tabulate] *)

Module NpFacts.
Import Np.

Lemma length_indices sh : length (indices sh) = size_of sh.
Proof.
  induction sh as [|n sh IH]; [done|].
  cbn [indices size_of foldr]. fold (size_of sh).
  generalize 0 as s. induction n as [|n IHn]; intros s; [done|].
  cbn [seq flat_map]. rewrite length_app, length_fmap, IH, IHn. lia.
Qed.

Lemma elem_of_indices sh idx : idx ∈ indices sh ↔ in_bounds sh idx = true.
Proof.
  revert idx. induction sh as [|n sh IH]; intros idx; cbn [indices in_bounds].
  - rewrite list_elem_of_singleton. destruct idx; naive_solver.
  - rewrite list_elem_of_In, in_flat_map. setoid_rewrite <- list_elem_of_In.
    setoid_rewrite elem_of_seq. setoid_rewrite list_elem_of_fmap.
    destruct idx as [|i idx].
    + split; [|done]. intros (? & ? & ? & ? & ?). done.
    + rewrite andb_true_iff, Nat.ltb_lt, <- IH. split.
      * intros (x & Hx & y & [= -> ->] & Hy). split; [lia|done].
      * intros [Hi Hidx]. exists i. split; [lia|]. by exists idx.
Qed.

Lemma offset_lt sh idx : in_bounds sh idx = true → offset sh idx < size_of sh.
Proof.
  revert idx. induction sh as [|n sh IH]; intros [|i idx];
    cbn [in_bounds offset size_of foldr]; try done; [lia|].
  rewrite andb_true_iff, Nat.ltb_lt. intros [Hi Hidx%IH].
  fold (size_of sh). nia.
Qed.

(** Reading a concatenation of equally long chunks. *)
Lemma nth_flat_map_chunks (g : nat → list Z) k n s i off d :
  (∀ j, length (g j) = k) → i < n → off < k →
  nth (i * k + off) (flat_map g (seq s n)) d = nth off (g (s + i)) d.
Proof.
  intros Hlen. revert s i. induction n as [|n IH]; intros s i Hi Hoff; [lia|].
  cbn [seq flat_map]. destruct i as [|i].
  - rewrite app_nth1 by (rewrite Hlen; lia). by rewrite Nat.add_0_r.
  - rewrite app_nth2 by (rewrite Hlen; lia). rewrite Hlen.
    replace (S i * k + off - k) with (i * k + off) by lia.
    rewrite IH by lia. f_equal. f_equal. lia.
Qed.

Lemma fmap_flat_map {A B C} (f : B → C) (g : A → list B) l :
  f <$> flat_map g l = flat_map (λ x, f <$> g x) l.
Proof. induction l as [|x l IH]; [done|]. cbn. by rewrite fmap_app, IH. Qed.

Lemma nth_tabulate sh f idx :
  in_bounds sh idx = true → nth (offset sh idx) (f <$> indices sh) 0%Z = f idx.
Proof.
  revert f idx. induction sh as [|n sh IH]; intros f [|i idx]; cbn [in_bounds]; try done.
  rewrite andb_true_iff, Nat.ltb_lt. intros [Hi Hidx].
  cbn [indices offset].
  rewrite fmap_flat_map.
  erewrite flat_map_ext; [|intros a; symmetry; apply list_fmap_compose].
  rewrite nth_flat_map_chunks with (k := size_of sh); try done.
  - by rewrite (IH (f ∘ cons (0 + i))).
  - intros j. by rewrite length_fmap, length_indices.
  - by apply offset_lt.
Qed.

Lemma item_tabulate sh f idx :
  in_bounds sh idx = true → item (tabulate sh f) idx = f idx.
Proof. apply nth_tabulate. Qed.

Lemma tabulate_ext sh f g :
  (∀ idx, in_bounds sh idx = true → f idx = g idx) → tabulate sh f = tabulate sh g.
Proof.
  intros H. unfold tabulate. f_equal. apply list_fmap_ext.
  intros ? idx Hidx. apply H, elem_of_indices. eapply list_elem_of_lookup_2. done.
Qed.

End NpFacts.

(** ** Sums *)

Module NpSums.
Import Np NpFacts.

Lemma sum_Z_app l k : sum_Z (l ++ k) = (sum_Z l + sum_Z k)%Z.
Proof. induction l as [|x l IH]; cbn; [done|]. fold (sum_Z (l ++ k)). fold (sum_Z l). lia. Qed.

Lemma sum_Z_flat_map {A} (g : A → list Z) l :
  sum_Z (flat_map g l) = sum_Z ((λ x, sum_Z (g x)) <$> l).
Proof.
  induction l as [|x l IH]; [done|]. cbn [flat_map fmap list_fmap].
  rewrite sum_Z_app, IH. done.
Qed.

Lemma sum_Z_ext {A} (f g : A → Z) l :
  (∀ x, x ∈ l → f x = g x) → sum_Z (f <$> l) = sum_Z (g <$> l).
Proof.
  intros H. f_equal. apply list_fmap_ext. intros i x Hx. apply H.
  by eapply list_elem_of_lookup_2.
Qed.

Lemma sum_Z_const {A} (c : Z) (l : list A) :
  sum_Z ((λ _, c) <$> l) = (Z.of_nat (length l) * c)%Z.
Proof. induction l as [|x l IH]; [done|]. cbn [fmap list_fmap sum_Z foldr length].
  fold (sum_Z ((λ _, c) <$> l)). rewrite IH. lia. Qed.

(** A sum with exactly one non-zero term. *)
Lemma sum_Z_single (f : nat → Z) n k :
  k < n → (∀ j, j < n → j ≠ k → f j = 0%Z) → sum_Z (f <$> seq 0 n) = f k.
Proof.
  intros Hk Hz.
  assert (∀ s m, (∀ j, s ≤ j < s + m → j ≠ k → f j = 0%Z) →
            sum_Z (f <$> seq s m) = if decide (s ≤ k < s + m) then f k else 0%Z) as Hgen.
  { intros s m. revert s. induction m as [|m IH]; intros s H.
    - cbn. case_decide; [lia|done].
    - cbn [seq fmap list_fmap sum_Z foldr]. fold (sum_Z (f <$> seq (S s) m)).
      rewrite IH by (intros; apply H; lia).
      destruct (decide (s = k)) as [->|Hne].
      + repeat case_decide; try lia.
      + rewrite (H s) by lia. repeat case_decide; try lia. }
  rewrite Hgen by (intros; apply Hz; lia). case_decide; [done|lia].
Qed.

Lemma sum_tabulate_cons n sh f :
  sum (tabulate (n :: sh) f)
  = sum_Z ((λ i, sum (tabulate sh (f ∘ cons i))) <$> seq 0 n).
Proof.
  unfold sum, tabulate. cbn [data indices].
  rewrite fmap_flat_map, sum_Z_flat_map. apply sum_Z_ext. intros i _.
  by rewrite <- list_fmap_compose.
Qed.

Lemma sum_tabulate_ext sh f g :
  (∀ idx, in_bounds sh idx = true → f idx = g idx) →
  sum (tabulate sh f) = sum (tabulate sh g).
Proof. intros H. by rewrite (tabulate_ext sh f g). Qed.

End NpSums.

(** ** Indices and the table of global indices *)

Module NpIndex.
Import Np NpFacts NpSums Spec.

Lemma in_bounds_nil idx : in_bounds [] idx = true ↔ idx = [].
Proof. by destruct idx. Qed.

Lemma in_bounds_cons n sh idx :
  in_bounds (n :: sh) idx = true ↔
  ∃ i idx', idx = i :: idx' ∧ i < n ∧ in_bounds sh idx' = true.
Proof.
  destruct idx as [|i idx]; cbn [in_bounds].
  - split; [done|]. by intros (? & ? & ? & _).
  - rewrite andb_true_iff, Nat.ltb_lt. split.
    + intros [??]. by exists i, idx.
    + by intros (? & ? & [= <- <-] & ? & ?).
Qed.

Lemma in_bounds_1 c idx :
  in_bounds [c] idx = true ↔ ∃ a, idx = [a] ∧ a < c.
Proof.
  rewrite in_bounds_cons. setoid_rewrite in_bounds_nil. split.
  - intros (a & ? & -> & ? & ->). eauto.
  - intros (a & -> & ?). eauto.
Qed.

Lemma in_bounds_2 c m idx :
  in_bounds [c; m] idx = true ↔ ∃ a i, idx = [a; i] ∧ a < c ∧ i < m.
Proof.
  rewrite in_bounds_cons. setoid_rewrite in_bounds_1. split.
  - intros (a & ? & -> & ? & i & -> & ?). eauto.
  - intros (a & i & -> & ? & ?). eauto 10.
Qed.

Lemma in_bounds_3 c m n idx :
  in_bounds [c; m; n] idx = true ↔
  ∃ a i k, idx = [a; i; k] ∧ a < c ∧ i < m ∧ k < n.
Proof.
  rewrite in_bounds_cons. setoid_rewrite in_bounds_2. split.
  - intros (a & ? & -> & ? & i & k & -> & ? & ?). eauto 10.
  - intros (a & i & k & -> & ? & ? & ?). eauto 10.
Qed.

Lemma in_bounds_4 c m n p idx :
  in_bounds [c; m; n; p] idx = true ↔
  ∃ a i k l, idx = [a; i; k; l] ∧ a < c ∧ i < m ∧ k < n ∧ l < p.
Proof.
  rewrite in_bounds_cons. setoid_rewrite in_bounds_3. split.
  - intros (a & ? & -> & ? & i & k & l & -> & ? & ? & ?). eauto 12.
  - intros (a & i & k & l & -> & ? & ? & ? & ?). eauto 12.
Qed.

Lemma in_bounds_intro_2 c m a i : a < c → i < m → in_bounds [c; m] [a; i] = true.
Proof. intros. apply in_bounds_2. eauto. Qed.

Lemma forallb_tabulate (P : Z → bool) sh f :
  (∀ idx, in_bounds sh idx = true → P (f idx) = true) →
  forallb P (data (tabulate sh f)) = true.
Proof.
  intros H. apply forallb_forall. intros x Hx%list_elem_of_In.
  apply list_elem_of_fmap in Hx as (idx & -> & Hidx).
  by apply H, elem_of_indices.
Qed.

Lemma norm_index_nat n k : k < n → norm_index n (Z.of_nat k) = Ok k.
Proof.
  intros. unfold norm_index. rewrite decide_True by lia. by rewrite Nat2Z.id.
Qed.

Lemma wrap_index_nat n k : wrap_index n (Z.of_nat k) = k.
Proof. unfold wrap_index. rewrite decide_True by lia. by rewrite Nat2Z.id. Qed.

Lemma index_ok_nat n k : k < n → index_ok n (Z.of_nat k) = true.
Proof. intros. apply bool_decide_eq_true. lia. Qed.

(** Entries of the reindexer column. *)
Lemma item_reindexer c m a :
  a < c →
  item (as_column (scale (arange c) (Z.of_nat m))) [a; 0]
  = (Z.of_nat a * Z.of_nat m)%Z.
Proof.
  intros Ha. unfold item, as_column, scale, arange, tabulate.
  cbn [shape data app offset size_of foldr].
  replace (a * (1 * 1) + (0 * 1 + 0)) with a by lia.
  rewrite <- list_fmap_compose.
  replace a with (offset [c] [a]) at 1 by (cbn; lia).
  rewrite nth_tabulate.
  - reflexivity.
  - apply in_bounds_1. exists a. done.
Qed.

Lemma broadcast_shape_column c m :
  broadcast_shape [c; m] [c; 1] = Ok [c; m].
Proof.
  cbn [broadcast_shape rbind].
  destruct (decide (m = 1)) as [->|]; cbn [rbind];
    [|rewrite (decide_True (P := 1 = 1)) by done; cbn [rbind]];
    by rewrite decide_True.
Qed.

(** [permuted_modes + reindexer[:, None]] on a [c] by [m] table. *)
Lemma add_reindexer t c m :
  shape t = [c; m] →
  add t (as_column (scale (arange c) (Z.of_nat m))) = Ok (global_table t m).
Proof.
  intros Hsh. unfold add, ndim. rewrite Hsh.
  cbn [as_column scale arange tabulate shape app length Nat.max pad_shape
       Nat.sub replicate].
  rewrite broadcast_shape_column. cbn [rbind]. f_equal.
  unfold global_table. rewrite Hsh. apply tabulate_ext.
  intros idx (a & i & -> & Ha & Hi)%in_bounds_2.
  cbn [bcast_index length Nat.sub drop zip_with hd].
  replace (if decide (c = 1) then 0 else a) with a by (case_decide; lia).
  replace (if decide (m = 1) then 0 else i) with i by (case_decide; lia).
  rewrite decide_True by done. f_equal.
  apply (item_reindexer c m a Ha).
Qed.

End NpIndex.

(** ** The indexing pipelines of the objectives and of [generate] *)

Module NpPipeline.
Import Np NpFacts NpSums NpIndex Spec objectives.

Ltac solve_inb :=
  cbn [in_bounds];
  repeat (rewrite (proj2 (Nat.ltb_lt _ _)) by lia);
  reflexivity.

Lemma wrap_index_nonneg n z : (0 ≤ z)%Z → wrap_index n z = Z.to_nat z.
Proof. intros. unfold wrap_index. by rewrite decide_True. Qed.

Lemma index_ok_range n z : (0 ≤ z < Z.of_nat n)%Z → index_ok n z = true.
Proof. intros. apply bool_decide_eq_true. lia. Qed.

Section with_table.
Context (corr g : ndarray) (c m n : nat).
Hypothesis Hcorr : shape corr = [n; n].
Hypothesis Hg : shape g = [c; m].
Hypothesis Hrange :
  ∀ a i, a < c → i < m → (0 ≤ item g [a; i] < Z.of_nat n)%Z.

Lemma column_ok i :
  i < m →
  index_axis g 1 (Z.of_nat i)
  = Ok (tabulate [c] (λ idx, item g [hd 0 idx; i])).
Proof.
  intros Hi. unfold index_axis. rewrite Hg. cbn [lookup list_lookup].
  rewrite norm_index_nat by done. cbn [rbind take drop app]. f_equal.
  apply tabulate_ext. by intros idx (a & -> & Ha)%in_bounds_1.
Qed.

Lemma slot_sum_ok i :
  i < m →
  slot_sum corr g i = Ok (slot_total corr g c i).
Proof.
  intros Hi. unfold slot_sum, slot_total. rewrite column_ok by done.
  cbn [rbind].
  unfold take_along at 1. rewrite Hcorr. cbn [lookup list_lookup].
  rewrite forallb_tabulate; cycle 1.
  { intros idx (a & -> & Ha)%in_bounds_1. apply index_ok_range. cbn. eauto. }
  cbn [rbind]. unfold take_along. cbn [shape tabulate lookup list_lookup app take drop].
  rewrite forallb_tabulate; cycle 1.
  { intros idx (a & -> & Ha)%in_bounds_1. apply index_ok_range. cbn. eauto. }
  cbn [rbind]. f_equal. unfold ndim. cbn [shape tabulate length].
  apply sum_tabulate_ext.
  intros idx (a & b & -> & Ha & Hb)%in_bounds_2.
  cbn [take drop app Nat.add nth].
  rewrite !(item_tabulate [c]) by solve_inb. cbn [hd].
  rewrite !wrap_index_nonneg by (apply Hrange; lia).
  rewrite item_tabulate; cycle 1.
  { pose proof (Hrange b i Hb Hi). solve_inb. }
  cbn [take drop app Nat.add nth].
  rewrite !(item_tabulate [c]) by solve_inb. cbn [hd].
  rewrite !wrap_index_nonneg by (apply Hrange; lia). done.
Qed.

Lemma for_range_acc_sum (F : nat → result Z) (h : Z → Z) (v : nat → Z) ks r :
  (∀ k, k ∈ ks → F k = Ok (v k)) →
  for_range_acc (λ ret i, rbind (F i) (λ s, Ok (ret + h s)%Z)) r ks
  = Ok (r + sum_Z ((λ k, h (v k)) <$> ks))%Z.
Proof.
  revert r. induction ks as [|k ks IH]; intros r HF; cbn [for_range_acc].
  - cbn. f_equal. lia.
  - rewrite (HF k) by constructor. cbn [rbind].
    rewrite IH by (intros; apply HF; by constructor).
    cbn [fmap list_fmap sum_Z foldr]. f_equal.
    fold (sum_Z ((λ k0, h (v k0)) <$> ks)). lia.
Qed.

Lemma sum_perms_ok c' :
  sum_perms corr g m c'
  = Ok (sum_Z (slot_total corr g c <$> seq 0 m) - Z.of_nat m * Z.of_nat c')%Z.
Proof.
  unfold sum_perms.
  rewrite (for_range_acc_sum (slot_sum corr g) (λ s, s) (slot_total corr g c)).
  - cbn [rbind]. f_equal.
  - intros k Hk%elem_of_seq. apply slot_sum_ok. lia.
Qed.

Lemma abs_sum_perms_ok c' :
  abs_sum_perms corr g m c'
  = Ok (sum_Z ((λ i, Z.abs (slot_total corr g c i)) <$> seq 0 m)
        - Z.of_nat m * Z.of_nat c')%Z.
Proof.
  unfold abs_sum_perms.
  rewrite (for_range_acc_sum (slot_sum corr g) Z.abs (slot_total corr g c)).
  - cbn [rbind]. f_equal.
  - intros k Hk%elem_of_seq. apply slot_sum_ok. lia.
Qed.

Hypothesis Hdata : forallb (index_ok n) (data g) = true.

Lemma aligned_stack_ok :
  rbind (take_along corr 0 g) (λ first,
    rbind (take_along first 2 g) (λ perm',
      rbind (diagonal perm' 1 3) (λ d, Ok (transpose d))))
  = Ok (tabulate [m; c; c]
          (λ idx, aligned corr g (nth 0 idx 0) (nth 2 idx 0) (nth 1 idx 0))).
Proof.
  unfold take_along at 1. rewrite Hcorr. cbn [lookup list_lookup].
  rewrite Hdata. cbn [rbind]. unfold take_along, ndim. rewrite Hg.
  cbn [shape tabulate lookup list_lookup app take drop length Nat.add].
  rewrite Hdata. cbn [rbind]. unfold diagonal.
  cbn [shape tabulate lookup list_lookup].
  rewrite decide_True by lia. cbn [rbind]. f_equal.
  unfold transpose, remove_at.
  cbn [shape tabulate app take drop rev].
  rewrite Nat.min_id. apply tabulate_ext.
  intros idx (i & x & y & -> & Hi & Hx & Hy)%in_bounds_3.
  cbn [rev app nth].
  rewrite item_tabulate by solve_inb.
  unfold insert_at. cbn [List.last removelast take drop app].
  rewrite (item_tabulate [c; m; c; m]) by solve_inb.
  cbn [take drop app].
  rewrite !wrap_index_nonneg by (apply Hrange; lia).
  rewrite item_tabulate; cycle 1.
  { pose proof (Hrange x i Hx Hi). solve_inb. }
  cbn [take drop app].
  rewrite !wrap_index_nonneg by (apply Hrange; lia). done.
Qed.

End with_table.

End NpPipeline.

(** ** The generator produces permutations *)

Module RngFacts.
Import Np NpFacts Spec.

Lemma next_lt bound g : 0 < bound → (Rng.next bound g).1 < bound.
Proof.
  intros. destruct g as [|x g]; cbn; [done|]. apply Nat.mod_upper_bound. lia.
Qed.

Lemma shuffle_perm {A} n (l : list A) g :
  length l = n → (Rng.shuffle n l g).1 ≡ₚ l.
Proof.
  revert l g. induction n as [|n IH]; intros l g Hlen; cbn [Rng.shuffle].
  - by apply nil_length_inv in Hlen as ->.
  - pose proof (next_lt (length l) g ltac:(lia)) as Hj.
    destruct (Rng.next (length l) g) as [j g1]. cbn [fst] in Hj.
    destruct (lookup_lt_is_Some_2 l j Hj) as [x Hx]. rewrite Hx.
    specialize (IH (delete j l) g1).
    destruct (Rng.shuffle n (delete j l) g1) as [r g2]. cbn [fst] in *.
    rewrite IH.
    + symmetry. by apply delete_Permutation.
    + rewrite length_delete by eauto. lia.
Qed.

(** Conversely, every arrangement of the list is the shuffle for some
    stream of draws. *)
Lemma shuffle_reaches {A} (l' l : list A) :
  l ≡ₚ l' → ∃ g, (Rng.shuffle (length l) l g).1 = l'.
Proof.
  revert l. induction l' as [|x r IH]; intros l Hp.
  - apply Permutation_nil_r in Hp as ->. by exists [].
  - assert (x ∈ l) as Hx by (rewrite Hp; constructor).
    apply list_elem_of_lookup in Hx as [j Hj].
    pose proof (lookup_lt_Some _ _ _ Hj) as Hlt.
    assert (delete j l ≡ₚ r) as Hr.
    { apply (Permutation_cons_inv (a := x)).
      by rewrite <- (delete_Permutation l j x Hj). }
    destruct (IH _ Hr) as [g Hg]. exists (j :: g).
    destruct l as [|y l0]; [cbn in Hlt; lia|].
    cbn [length Rng.shuffle Rng.next].
    rewrite Nat.mod_small by done. rewrite Hj.
    rewrite length_delete in Hg by eauto. cbn [length] in Hg.
    replace (S (length l0) - 1) with (length l0) in Hg by lia.
    destruct (Rng.shuffle (length l0) (delete j (y :: l0)) g) as [r' g'].
    cbn [fst] in *. by rewrite Hg.
Qed.

Lemma permutation_perm x g : (Rng.permutation x g).1 ≡ₚ x.
Proof. by apply shuffle_perm. Qed.

Lemma permutation_int_spec n g :
  ∃ l g', Rng.permutation_int n g = (NdArray [n] l, g') ∧
          is_permutation n l.
Proof.
  unfold Rng.permutation_int.
  pose proof (permutation_perm (Z.of_nat <$> seq 0 n) g) as Hp.
  destruct (Rng.permutation _ g) as [l g']. by exists l, g'.
Qed.

Lemma permute_rows_perm rs g :
  Forall2 (≡ₚ) (Rng.permute_rows rs g).1 rs.
Proof.
  revert g. induction rs as [|r rs IH]; intros g; cbn [Rng.permute_rows].
  - constructor.
  - pose proof (permutation_perm r g) as Hp.
    destruct (Rng.permutation r g) as [r1 g1]. specialize (IH g1).
    destruct (Rng.permute_rows rs g1) as [rs1 g2]. by constructor.
Qed.

Lemma integers_ok high g :
  high ≠ 0 →
  ∃ x g', Rng.integers high g = (Ok x, g') ∧ x < high.
Proof.
  intros Hh. unfold Rng.integers. rewrite decide_False by done.
  pose proof (next_lt high g ltac:(lia)).
  destruct (Rng.next high g) as [x g']. by exists x, g'.
Qed.

Lemma is_permutation_length m r : is_permutation m r → length r = m.
Proof.
  intros H%Permutation_length.
  by rewrite H; unfold identity_row; rewrite length_fmap, length_seq.
Qed.

Lemma is_permutation_range m r z :
  is_permutation m r → z ∈ r → (0 ≤ z < Z.of_nat m)%Z.
Proof.
  intros Hp Hz. rewrite Hp in Hz. unfold identity_row in Hz.
  apply list_elem_of_fmap in Hz as (k & -> & Hk%elem_of_seq). lia.
Qed.

End RngFacts.

(** ** Tables and their rows *)

Module TableFacts.
Import Np NpFacts NpIndex NpPipeline RngFacts Spec.

Lemma rows_shape t c m :
  shape t = [c; m] →
  rows t = (λ r, (λ j, item t [r; j]) <$> seq 0 m) <$> seq 0 c.
Proof. intros H. unfold rows, row. by rewrite H. Qed.

Lemma rows_lookup t c m r :
  shape t = [c; m] → r < c →
  rows t !! r = Some ((λ j, item t [r; j]) <$> seq 0 m).
Proof.
  intros H Hr. rewrite (rows_shape t c m H), list_lookup_fmap.
  by rewrite lookup_seq_lt.
Qed.

Lemma length_rows t c m : shape t = [c; m] → length (rows t) = c.
Proof. intros H. by rewrite (rows_shape t c m H), length_fmap, length_seq. Qed.

Lemma list_eq_nth (l : list Z) m :
  length l = m → (λ j, nth j l 0%Z) <$> seq 0 m = l.
Proof.
  intros <-. apply list_eq. intros i. rewrite list_lookup_fmap.
  destruct (decide (i < length l)) as [Hi|Hi].
  - rewrite lookup_seq_lt by done. cbn [fmap option_fmap option_map Nat.add].
    destruct (lookup_lt_is_Some_2 l i Hi) as [x Hx].
    by rewrite Hx, (nth_lookup_Some _ _ _ _ Hx).
  - rewrite lookup_seq_ge by lia. cbn [fmap option_fmap option_map]. symmetry. apply lookup_ge_None. lia.
Qed.

Lemma rows_of_rows m rs :
  Forall (λ r, length r = m) rs → rows (of_rows m rs) = rs.
Proof.
  intros Hlen. rewrite (rows_shape _ (length rs) m) by done.
  apply list_eq. intros r. rewrite list_lookup_fmap.
  destruct (decide (r < length rs)) as [Hr|Hr].
  - rewrite lookup_seq_lt by done. cbn [fmap option_fmap option_map Nat.add].
    destruct (lookup_lt_is_Some_2 rs r Hr) as [x Hx]. rewrite Hx. f_equal.
    rewrite <- (list_eq_nth x m) by (by eapply (Forall_lookup_1 _ _ _ _ Hlen)).
    apply list_fmap_ext. intros j ? [-> Hj]%lookup_seq. cbn [Nat.add].
    unfold of_rows. rewrite item_tabulate by solve_inb.
    by rewrite (nth_lookup_Some _ _ _ _ Hx).
  - rewrite lookup_seq_ge by lia. cbn [fmap option_fmap option_map]. symmetry. apply lookup_ge_None. lia.
Qed.

Lemma item_arange m j : j < m → item (arange m) [j] = Z.of_nat j.
Proof. intros. unfold arange. by rewrite item_tabulate by solve_inb. Qed.

(** The table built by the default constructor: every row is
    [0..m-1]. *)
Lemma rows_identity c m :
  rows (tile_rows (arange m) c) = replicate c (identity_row m).
Proof.
  rewrite (rows_shape _ c m) by done.
  apply list_eq. intros r. rewrite list_lookup_fmap.
  destruct (decide (r < c)) as [Hr|Hr].
  - rewrite lookup_seq_lt, lookup_replicate_2 by done.
    cbn [fmap option_fmap option_map Nat.add]. f_equal.
    apply list_fmap_ext. intros j ? [-> Hj]%lookup_seq. cbn [Nat.add].
    unfold tile_rows. cbn [shape arange tabulate].
    rewrite item_tabulate by solve_inb. cbn [tail].
    by apply item_arange.
  - rewrite lookup_seq_ge by lia. cbn [fmap option_fmap option_map]. symmetry.
    apply lookup_replicate_None. lia.
Qed.

Lemma valid_identity c m : valid_table c m (tile_rows (arange m) c).
Proof.
  split; [done|]. rewrite rows_identity. apply Forall_replicate.
  by unfold is_permutation.
Qed.

Lemma valid_table_range t c m a i :
  valid_table c m t → a < c → i < m →
  (0 ≤ item t [a; i] < Z.of_nat m)%Z.
Proof.
  intros [Hsh Hrows] Ha Hi.
  pose proof (rows_lookup t c m a Hsh Ha) as Hr.
  pose proof (Forall_lookup_1 _ _ _ _ Hrows Hr) as Hp.
  eapply is_permutation_range; [exact Hp|].
  apply list_elem_of_fmap. exists i. split; [done|]. apply elem_of_seq. lia.
Qed.

(** Item of a one-dimensional array. *)
Lemma item_vector n l j : item (NdArray [n] l) [j] = nth j l 0%Z.
Proof. unfold item. cbn. f_equal. lia. Qed.

(** [a[k] = v] on a table replaces exactly row [k]. *)
Lemma setitem_row t c m ch k l :
  shape t = [c; m] → norm_index c ch = Ok k → length l = m →
  ∃ t', setitem t ch (NdArray [m] l) = Ok t' ∧ shape t' = [c; m] ∧
        rows t' = <[k := l]> (rows t).
Proof.
  intros Hsh Hk Hl. unfold setitem, ndim. rewrite Hsh, Hk.
  cbn [rbind shape length Nat.max pad_shape Nat.sub replicate app
       broadcast_shape].
  rewrite decide_True by done. cbn [rbind]. rewrite decide_True by done.
  eexists. split; [done|]. split; [done|].
  assert (k < c) as Hkc.
  { unfold norm_index in Hk. repeat case_decide; simplify_eq; lia. }
  rewrite (rows_shape _ c m) by done.
  apply list_eq. intros r. rewrite list_lookup_fmap.
  destruct (decide (r < c)) as [Hr|Hr].
  - rewrite lookup_seq_lt by done. cbn [fmap option_fmap option_map Nat.add].
    destruct (decide (r = k)) as [->|Hne].
    + rewrite list_lookup_insert_eq by (by rewrite (length_rows t c m)).
      f_equal. etrans; [|apply (list_eq_nth l m Hl)].
      apply list_fmap_ext. intros j ? [-> Hj]%lookup_seq. cbn [Nat.add].
      rewrite item_tabulate by solve_inb. rewrite decide_True by done.
      cbn [bcast_index length Nat.sub drop zip_with].
      replace (if decide (m = 1) then 0 else j) with j by (case_decide; lia).
      apply item_vector.
    + rewrite list_lookup_insert_ne by done.
      rewrite (rows_lookup t c m r Hsh Hr). f_equal.
      apply list_fmap_ext. intros j ? [-> Hj]%lookup_seq. cbn [Nat.add].
      rewrite item_tabulate by solve_inb. by rewrite decide_False.
  - rewrite lookup_seq_ge by lia. cbn [fmap option_fmap option_map]. symmetry.
    apply lookup_ge_None. rewrite length_insert, (length_rows t c m) by done. lia.
Qed.

Lemma setitem_out_of_range t c sub ch v :
  shape t = c :: sub → ¬ (- Z.of_nat c ≤ ch < Z.of_nat c)%Z →
  setitem t ch v = Raise IndexError.
Proof.
  intros Hsh Hch. unfold setitem, norm_index. rewrite Hsh.
  rewrite !decide_False by lia. done.
Qed.

End TableFacts.

(** ** Runs of the methods of [MetaModeSolution] *)

Module SolutionFacts.
Import Np NpFacts NpIndex NpPipeline RngFacts TableFacts Spec Py.
Import MetaModeSolution.

Lemma fresh_array_None w : arrays w !! fresh (dom (arrays w)) = None.
Proof. apply not_elem_of_dom, is_fresh. Qed.

Lemma fresh_solution_None w : solutions w !! fresh (dom (solutions w)) = None.
Proof. apply not_elem_of_dom, is_fresh. Qed.

Lemma fresh_array_ne w l a :
  arrays w !! l = Some a → l ≠ fresh (dom (arrays w)).
Proof. intros H ->. by rewrite fresh_array_None in H. Qed.

Lemma fresh_solution_ne w l s :
  solutions w !! l = Some s → l ≠ fresh (dom (solutions w)).
Proof. intros H ->. by rewrite fresh_solution_None in H. Qed.

(** *** The constructor *)

Lemma init_default_run m c w :
  solution.__init__ m c None w
  = (Ok (fresh (dom (solutions w))),
     World (<[fresh (dom (arrays w)) := tile_rows (arange m) c]> (arrays w))
           (<[fresh (dom (solutions w))
              := Make m c m (fresh (dom (arrays w))) None]> (solutions w))
           (solvers w) (rng w)).
Proof. reflexivity. Qed.

Lemma init_table_run m c l w :
  solution.__init__ m c (Some l) w
  = (Ok (fresh (dom (solutions w))),
     World (arrays w)
           (<[fresh (dom (solutions w)) := Make m c m l None]> (solutions w))
           (solvers w) (rng w)).
Proof. reflexivity. Qed.

(** *** [random_permutation] *)

Lemma random_permutation_run w self s u c m :
  solutions w !! self = Some s →
  arrays w !! unpermuted_modes s = Some u →
  shape u = [c; m] → c ≠ 0 →
  solution.random_permutation self w
  = (Ok self,
     World (<[fresh (dom (arrays w))
              := of_rows m (Rng.permute_rows (rows u) (rng w)).1]> (arrays w))
           (<[self := with_permuted_modes (Some (fresh (dom (arrays w)))) s]>
              (solutions w))
           (solvers w)
           (Rng.permute_rows (rows u) (rng w)).2).
Proof.
  intros Hs Hu Hsh Hc.
  unfold solution.random_permutation, bind, get_solution, get_array.
  rewrite Hs, Hu. unfold solution.apply_along_axis_permutation.
  rewrite Hsh, decide_False by done. unfold bind, draw.
  destruct (Rng.permute_rows (rows u) (rng w)) as [rs g].
  unfold ret, new_array, update_solution, with_arrays, with_rng,
    with_solutions.
  cbn [arrays solutions solvers rng fst snd]. by rewrite Hs.
Qed.

Lemma random_permutation_no_rows w self s u m :
  solutions w !! self = Some s →
  arrays w !! unpermuted_modes s = Some u →
  shape u = [0; m] →
  solution.random_permutation self w = (Raise ValueError, w).
Proof.
  intros Hs Hu Hsh.
  unfold solution.random_permutation, bind, get_solution, get_array.
  rewrite Hs, Hu. unfold solution.apply_along_axis_permutation.
  by rewrite Hsh.
Qed.

Lemma Forall2_perm_valid m (l1 l2 : list (list Z)) :
  Forall2 (≡ₚ) l1 l2 → Forall (is_permutation m) l2 →
  Forall (is_permutation m) l1.
Proof.
  induction 1 as [|r r' rs rs' Hr _ IH]; intros Hrows; [constructor|].
  apply Forall_cons in Hrows as [Hr' Hrows]. constructor; [|by apply IH].
  unfold is_permutation in *. by rewrite Hr.
Qed.

Lemma permute_rows_valid u c m g :
  valid_table c m u →
  valid_table c m (of_rows m (Rng.permute_rows (rows u) g).1).
Proof.
  intros [Hsh Hrows].
  pose proof (permute_rows_perm (rows u) g) as Hp.
  pose proof (Forall2_perm_valid m _ _ Hp Hrows) as Hv.
  split.
  - unfold of_rows. cbn [shape tabulate].
    by rewrite (Forall2_length _ _ _ Hp), (length_rows u c m).
  - rewrite rows_of_rows; [done|].
    eapply Forall_impl; [exact Hv|]. intros r. apply is_permutation_length.
Qed.

(** *** [permute_one_channel] *)

(** The state in which [permute_one_channel] reaches the assignment
    of the row: [permuted_modes] is already a copy of
    [unpermuted_modes] and the generator has been advanced. *)
Lemma permute_one_channel_unfold w self s u ch :
  solutions w !! self = Some s →
  arrays w !! unpermuted_modes s = Some u →
  let l := fresh (dom (arrays w)) in
  let v := (Rng.permutation_int (n_modes s) (rng w)).1 in
  let w1 := World (<[l := u]> (arrays w))
                  (<[self := with_permuted_modes (Some l) s]> (solutions w))
                  (solvers w)
                  (Rng.permutation_int (n_modes s) (rng w)).2 in
  solution.permute_one_channel self ch w
  = match setitem u ch v with
    | Ok t' => (Ok self, with_arrays (insert l t') w1)
    | Raise e => (Raise e, w1)
    end.
Proof.
  intros Hs Hu l v w1.
  unfold solution.permute_one_channel, bind, get_solution, get_array.
  rewrite Hs, Hu.
  unfold ret, new_array, update_solution, draw, lift, set_array, with_arrays,
    with_rng, with_solutions.
  cbn [arrays solutions solvers rng fst snd]. rewrite Hs.
  cbn [arrays solutions solvers rng fst snd].
  subst v w1 l.
  destruct (Rng.permutation_int (n_modes s) (rng w)) as [v g].
  cbn [arrays solutions solvers rng fst snd].
  rewrite lookup_insert_eq.
  cbn [permuted_modes with_permuted_modes arrays solutions solvers rng].
  rewrite lookup_insert_eq.
  by destruct (setitem u ch v).
Qed.

Lemma permute_one_channel_run w self s u c m ch k :
  solutions w !! self = Some s →
  arrays w !! unpermuted_modes s = Some u →
  shape u = [c; m] → n_modes s = m → norm_index c ch = Ok k →
  ∃ p g' t',
    Rng.permutation_int m (rng w) = (NdArray [m] p, g') ∧
    is_permutation m p ∧
    shape t' = [c; m] ∧ rows t' = <[k := p]> (rows u) ∧
    solution.permute_one_channel self ch w
    = (Ok self,
       World (<[fresh (dom (arrays w)) := t']> (arrays w))
             (<[self := with_permuted_modes (Some (fresh (dom (arrays w)))) s]>
                (solutions w))
             (solvers w) g').
Proof.
  intros Hs Hu Hsh Hm Hk.
  rewrite (permute_one_channel_unfold w self s u ch Hs Hu). rewrite Hm.
  destruct (permutation_int_spec m (rng w)) as (p & g' & Hp & Hperm).
  rewrite Hp. cbn [fst snd].
  destruct (setitem_row u c m ch k p Hsh Hk (is_permutation_length _ _ Hperm))
    as (t' & Hset & Hsh' & Hrows).
  rewrite Hset. exists p, g', t'. repeat split; try done.
  unfold with_arrays. cbn [arrays solutions solvers rng].
  by rewrite insert_insert_eq.
Qed.

Lemma permute_one_channel_out_of_range w self s u c sub ch :
  solutions w !! self = Some s →
  arrays w !! unpermuted_modes s = Some u →
  shape u = c :: sub → ¬ (- Z.of_nat c ≤ ch < Z.of_nat c)%Z →
  solution.permute_one_channel self ch w
  = (Raise IndexError,
     World (<[fresh (dom (arrays w)) := u]> (arrays w))
           (<[self := with_permuted_modes (Some (fresh (dom (arrays w)))) s]>
              (solutions w))
           (solvers w)
           (Rng.permutation_int (n_modes s) (rng w)).2).
Proof.
  intros Hs Hu Hsh Hch.
  rewrite (permute_one_channel_unfold w self s u ch Hs Hu).
  by rewrite (setitem_out_of_range u c sub ch _ Hsh Hch).
Qed.

Lemma valid_insert_row t t' c m k p :
  valid_table c m t → shape t' = [c; m] → rows t' = <[k := p]> (rows t) →
  is_permutation m p → valid_table c m t'.
Proof.
  intros [Hsh Hrows] Hsh' Hr Hp. split; [done|]. rewrite Hr.
  by apply Forall_insert.
Qed.

(** *** [step] *)

Lemma step_run w self s u c m :
  solutions w !! self = Some s →
  arrays w !! unpermuted_modes s = Some u →
  shape u = [c; m] → n_modes s = m → n_channels s = c → c ≠ 0 →
  ∃ k g1 p g' t',
    Rng.integers c (rng w) = (Ok k, g1) ∧ k < c ∧
    Rng.permutation_int m g1 = (NdArray [m] p, g') ∧
    is_permutation m p ∧
    shape t' = [c; m] ∧ rows t' = <[k := p]> (rows u) ∧
    solution.step self w
    = (Ok self,
       World (<[fresh (dom (arrays w)) := t']> (arrays w))
             (<[self := with_permuted_modes (Some (fresh (dom (arrays w)))) s]>
                (solutions w))
             (solvers w) g').
Proof.
  intros Hs Hu Hsh Hm Hc Hc0.
  destruct (integers_ok c (rng w) Hc0) as (k & g1 & Hint & Hk).
  destruct (permute_one_channel_run (with_rng g1 w) self s u c m (Z.of_nat k) k)
    as (p & g' & t' & Hp & Hperm & Hsh' & Hrows & Hrun);
    try done; [by apply norm_index_nat|].
  exists k, g1, p, g', t'. repeat split; try done.
  unfold solution.step, bind, get_solution, draw_result. rewrite Hs, Hc, Hint.
  rewrite Hrun. done.
Qed.

End SolutionFacts.

(** ** Runs of [copy] and of the methods of [MetaModeProblem] *)

Module ProblemFacts.
Import Np NpFacts NpSums NpIndex NpPipeline RngFacts TableFacts SolutionFacts.
Import Spec Py objectives.

Lemma copy_run w self s l t :
  solutions w !! self = Some s →
  MetaModeSolution.permuted_modes s = Some l →
  arrays w !! l = Some t →
  solution.copy self w
  = (Ok (fresh (dom (solutions w))),
     World (<[fresh (dom (arrays w)) := t]> (arrays w))
           (<[fresh (dom (solutions w))
              := MetaModeSolution.Make (MetaModeSolution.n_modes s)
                   (MetaModeSolution.n_channels s) (MetaModeSolution.n_modes s)
                   (fresh (dom (arrays w))) None]> (solutions w))
           (solvers w) (rng w)).
Proof.
  intros Hs Hl Ht. unfold solution.copy, bind, get_solution, get_array.
  by rewrite Hs, Hl, Ht.
Qed.

Lemma copy_unset w self s :
  solutions w !! self = Some s →
  MetaModeSolution.permuted_modes s = None →
  solution.copy self w = (Raise AttributeError, w).
Proof.
  intros Hs Hl. unfold solution.copy, bind, get_solution.
  by rewrite Hs, Hl.
Qed.

(** *** Problems *)

Lemma init_ok corr m c sel p :
  problem.__init__ corr m c sel = Ok p →
  p = MetaModeProblem.Make corr m c m (MetaModeProblem.objective p)
        (scale (arange c) (Z.of_nat m)).
Proof.
  unfold problem.__init__. intros H.
  destruct (match sel with
            | problem.Name s => __getitem__ s
            | problem.Member o => Ok o
            end) as [o|e]; cbn [rbind] in H; [|done].
  by injection H as <-.
Qed.

Section with_problem.
Context (corr : ndarray) (m c : nat) (o : Objective).
Context (w : world) (sol : ref) (s : MetaModeSolution.t) (l : ref)
        (t : ndarray).
Hypothesis Hs : solutions w !! sol = Some s.
Hypothesis Hl : MetaModeSolution.permuted_modes s = Some l.
Hypothesis Ht : arrays w !! l = Some t.

Lemma global_indices_run refused :
  shape t = [c; m] →
  problem.global_indices (problem_of corr m c o) sol refused w
  = (Ok (global_table t m), w).
Proof.
  intros Hsh. unfold problem.global_indices, bind, get_solution, get_array.
  rewrite Hs, Hl, Ht. unfold lift. cbn [MetaModeProblem.reindexer].
  by rewrite (add_reindexer t c m Hsh).
Qed.

Hypothesis Hvalid : valid_table c m t.
Hypothesis Hcorr : shape corr = [c * m; c * m].

Lemma global_table_shape : shape (global_table t m) = [c; m].
Proof. unfold global_table. cbn [shape tabulate]. by destruct Hvalid. Qed.

Lemma item_global_table a i :
  a < c → i < m →
  item (global_table t m) [a; i]
  = (item t [a; i] + Z.of_nat a * Z.of_nat m)%Z.
Proof.
  intros Ha Hi. unfold global_table. destruct Hvalid as [Hsh _].
  rewrite Hsh. by rewrite item_tabulate by solve_inb.
Qed.

Lemma global_table_range a i :
  a < c → i < m →
  (0 ≤ item (global_table t m) [a; i] < Z.of_nat (c * m))%Z.
Proof.
  intros Ha Hi. rewrite item_global_table by done.
  pose proof (valid_table_range t c m a i Hvalid Ha Hi). nia.
Qed.

Lemma global_table_data :
  forallb (index_ok (c * m)) (data (global_table t m)) = true.
Proof.
  unfold global_table. destruct Hvalid as [Hsh _]. rewrite Hsh.
  apply forallb_tabulate. intros idx (a & i & -> & Ha & Hi)%in_bounds_2.
  apply index_ok_range. cbn [hd].
  pose proof (valid_table_range t c m a i Hvalid Ha Hi). nia.
Qed.

Lemma generate_run :
  problem.generate (problem_of corr m c o) sol w
  = (Ok (tabulate [m; c; c]
           (λ idx, aligned corr (global_table t m)
                     (nth 0 idx 0) (nth 2 idx 0) (nth 1 idx 0))), w).
Proof.
  unfold problem.generate, bind.
  rewrite global_indices_run by (by destruct Hvalid). unfold lift.
  cbn [MetaModeProblem.correlation_matrix].
  by rewrite (aligned_stack_ok corr (global_table t m) c m (c * m) Hcorr
                global_table_shape global_table_range global_table_data).
Qed.

Lemma evaluate_sum_run :
  o = SUM →
  problem.evaluate (problem_of corr m c o) sol w
  = (Ok (sum_Z (slot_total corr (global_table t m) c <$> seq 0 m)
         - Z.of_nat m * Z.of_nat c)%Z, w).
Proof.
  intros Ho. unfold problem.evaluate, bind, lift.
  cbn [MetaModeProblem.objective].
  assert (func o = Ok sum_perms) as -> by (by rewrite Ho).
  rewrite global_indices_run by (by destruct Hvalid).
  cbn [MetaModeProblem.correlation_matrix MetaModeProblem.n_modes
       MetaModeProblem.n_channels].
  by rewrite (sum_perms_ok corr (global_table t m) c m (c * m) Hcorr
                global_table_shape global_table_range).
Qed.

Lemma evaluate_abs_sum_run :
  o = ABS_SUM →
  problem.evaluate (problem_of corr m c o) sol w
  = (Ok (sum_Z ((λ i, Z.abs (slot_total corr (global_table t m) c i))
                  <$> seq 0 m)
         - Z.of_nat m * Z.of_nat c)%Z, w).
Proof.
  intros Ho. unfold problem.evaluate, bind, lift.
  cbn [MetaModeProblem.objective].
  assert (func o = Ok abs_sum_perms) as -> by (by rewrite Ho).
  rewrite global_indices_run by (by destruct Hvalid).
  cbn [MetaModeProblem.correlation_matrix MetaModeProblem.n_modes
       MetaModeProblem.n_channels].
  by rewrite (abs_sum_perms_ok corr (global_table t m) c m (c * m) Hcorr
                global_table_shape global_table_range).
Qed.

(** With a scoring function, [evaluate] returns and leaves the
    state alone. *)
Lemma evaluate_total :
  o ≠ DYN_SUM → ∃ v, problem.evaluate (problem_of corr m c o) sol w = (Ok v, w).
Proof.
  intros Hne. destruct (decide (o = SUM)) as [Ho|Ho].
  - eexists. by apply evaluate_sum_run.
  - eexists. apply evaluate_abs_sum_run.
    clear -Ho Hne. by destruct o.
Qed.

End with_problem.

End ProblemFacts.

(** ** What a computation leaves untouched *)

Module Frame.
Import Np Py Spec.

Lemma read_only_keeps_solvers {A} (m : M A) : read_only m → keeps_solvers m.
Proof. intros H w. by rewrite H. Qed.

Lemma read_only_ret {A} (a : A) : read_only (ret a).
Proof. done. Qed.
Lemma read_only_raise {A} e : read_only (@raise A e).
Proof. done. Qed.
Lemma read_only_lift {A} (r : result A) : read_only (lift r).
Proof. done. Qed.
Lemma read_only_get_array l : read_only (get_array l).
Proof. intros w. unfold get_array. by destruct (arrays w !! l). Qed.
Lemma read_only_get_solution l : read_only (get_solution l).
Proof. intros w. unfold get_solution. by destruct (solutions w !! l). Qed.
Lemma read_only_get_solver l : read_only (get_solver l).
Proof. intros w. unfold get_solver. by destruct (solvers w !! l). Qed.

Lemma read_only_bind {A B} (m : M A) (k : A → M B) :
  read_only m → (∀ a, read_only (k a)) → read_only (bind m k).
Proof.
  intros Hm Hk w. unfold bind. specialize (Hm w).
  destruct (m w) as [[a|e] w1]; cbn [snd] in Hm; subst w1; [apply Hk|done].
Qed.

Lemma keeps_solvers_bind {A B} (m : M A) (k : A → M B) :
  keeps_solvers m → (∀ a, keeps_solvers (k a)) → keeps_solvers (bind m k).
Proof.
  intros Hm Hk w. unfold bind. specialize (Hm w).
  destruct (m w) as [[a|e] w1]; cbn [snd] in Hm; [|done].
  by rewrite Hk.
Qed.

Lemma keeps_solvers_new_array a : keeps_solvers (new_array a).
Proof. done. Qed.
Lemma keeps_solvers_set_array l a : keeps_solvers (set_array l a).
Proof. done. Qed.
Lemma keeps_solvers_new_solution s : keeps_solvers (new_solution s).
Proof. done. Qed.
Lemma keeps_solvers_update_solution l f : keeps_solvers (update_solution l f).
Proof. intros w. unfold update_solution. by destruct (solutions w !! l). Qed.
Lemma keeps_solvers_draw {A} (f : Rng.state → A * Rng.state) :
  keeps_solvers (draw f).
Proof. intros w. unfold draw. by destruct (f (rng w)). Qed.
Lemma keeps_solvers_draw_result {A} (f : Rng.state → result A * Rng.state) :
  keeps_solvers (draw_result f).
Proof. intros w. unfold draw_result. by destruct (f (rng w)). Qed.

Create HintDb frame discriminated.
#[export] Hint Resolve read_only_ret read_only_raise read_only_lift
  read_only_get_array read_only_get_solution read_only_get_solver
  read_only_keeps_solvers keeps_solvers_new_array keeps_solvers_set_array
  keeps_solvers_new_solution keeps_solvers_update_solution
  keeps_solvers_draw keeps_solvers_draw_result : frame.

Ltac frame :=
  repeat first
    [ apply read_only_bind; [|intros ?]
    | apply keeps_solvers_bind; [|intros ?]
    | progress (eauto with frame)
    | match goal with
      | |- read_only (match ?x with _ => _ end) => destruct x
      | |- keeps_solvers (match ?x with _ => _ end) => destruct x
      | |- read_only (if ?x then _ else _) => destruct x
      | |- keeps_solvers (if ?x then _ else _) => destruct x
      end ].

Lemma read_only_global_indices p sol refused :
  read_only (problem.global_indices p sol refused).
Proof. unfold problem.global_indices. frame. Qed.

Lemma read_only_evaluate p sol : read_only (problem.evaluate p sol).
Proof.
  unfold problem.evaluate. frame.
Qed.

Lemma read_only_generate p sol : read_only (problem.generate p sol).
Proof.
  unfold problem.generate. frame.
Qed.

Lemma keeps_solvers_init m c perm : keeps_solvers (solution.__init__ m c perm).
Proof. unfold solution.__init__. frame. Qed.

Lemma keeps_solvers_copy self : keeps_solvers (solution.copy self).
Proof. unfold solution.copy. frame. Qed.

Lemma keeps_solvers_apply_along_axis a :
  keeps_solvers (solution.apply_along_axis_permutation a).
Proof.
  unfold solution.apply_along_axis_permutation.
  destruct (shape a) as [|? [|? [|]]]; frame.
Qed.

Lemma keeps_solvers_random_permutation self :
  keeps_solvers (solution.random_permutation self).
Proof.
  unfold solution.random_permutation. frame.
  apply keeps_solvers_apply_along_axis.
Qed.

Lemma keeps_solvers_permute_one_channel self ch :
  keeps_solvers (solution.permute_one_channel self ch).
Proof. unfold solution.permute_one_channel. frame. Qed.

Lemma keeps_solvers_step self : keeps_solvers (solution.step self).
Proof.
  unfold solution.step. frame.
Qed.

End Frame.

(** ** One call of [MetaModeSolver.step] *)

Module SolverStep.
Import Np Py Spec Frame MetaModeSolver.

Lemma solution_step_returns_self self w r w' :
  solution.step self w = (Ok r, w') → r = self.
Proof.
  unfold solution.step, bind.
  destruct (get_solution self w) as [[s|?] w1]; [|done].
  destruct (draw_result _ w1) as [[k|?] w2]; [|done].
  destruct (solution.permute_one_channel _ _ w2) as [[?|?] w3]; [|done].
  unfold ret. by intros [= <- _].
Qed.

(** What one call of [step] does, in terms of the three calls it
    makes. *)
Lemma solver_step_unfold w self sv :
  solvers w !! self = Some sv →
  solver.step self w
  = match solution.copy (best_solution sv) w with
    | (Raise e, w1) => (Raise e, w1)
    | (Ok sol, w1) =>
        match solution.step sol w1 with
        | (Raise e, w2) => (Raise e, w2)
        | (Ok _, w2) =>
            match problem.evaluate (problem sv) sol w2 with
            | (Raise e, w3) => (Raise e, w3)
            | (Ok value, w3) =>
                if decide (value > best_value sv)%Z then
                  (Ok true,
                   with_solvers
                     (insert self
                        (match _tqdm sv with
                         | Some b =>
                             with__tqdm (Some (tqdm.set_postfix value b))
                               (with_best sol value sv)
                         | None => with_best sol value sv
                         end)) w3)
                else (Ok false, w3)
            end
        end
    end.
Proof.
  intros Hsv. unfold solver.step at 1, bind at 1, get_solver at 1.
  rewrite Hsv. unfold bind at 1.
  pose proof (keeps_solvers_copy (best_solution sv) w) as Hk1.
  destruct (solution.copy (best_solution sv) w) as [[sol|e] w1]; [|done].
  cbn [snd] in Hk1. unfold bind at 1.
  pose proof (keeps_solvers_step sol w1) as Hk2.
  destruct (solution.step sol w1) as [[?|e] w2]; [|done].
  cbn [snd] in Hk2. unfold bind at 1.
  pose proof (read_only_evaluate (problem sv) sol w2) as Hk3.
  destruct (problem.evaluate (problem sv) sol w2) as [[value|e] w3]; [|done].
  cbn [snd] in Hk3. subst w3.
  assert (solvers w2 !! self = Some sv) as Hsv2 by (by rewrite Hk2, Hk1).
  unfold bind at 1, get_solver. rewrite Hsv2.
  case_decide; [|done].
  unfold bind, update_solver, ret, with_solvers.
  cbn [arrays solutions solvers rng]. rewrite Hsv2.
  cbn [arrays solutions solvers rng]. rewrite lookup_insert_eq.
  cbn [with_best _tqdm best_value]. rewrite insert_insert_eq.
  by destruct (_tqdm sv).
Qed.

(** Whatever a call of [step] does, the solver object survives and
    its [best_value] has not decreased. *)
Lemma solver_step_monotone w self sv r w' :
  solvers w !! self = Some sv →
  solver.step self w = (r, w') →
  ∃ sv', solvers w' !! self = Some sv' ∧
         (best_value sv ≤ best_value sv')%Z ∧
         problem sv' = problem sv.
Proof.
  intros Hsv. rewrite (solver_step_unfold w self sv Hsv).
  pose proof (keeps_solvers_copy (best_solution sv) w) as Hk1.
  destruct (solution.copy (best_solution sv) w) as [[sol|e] w1];
    cbn [snd] in Hk1.
  2:{ intros [= <- <-]. exists sv. by rewrite Hk1. }
  pose proof (keeps_solvers_step sol w1) as Hk2.
  destruct (solution.step sol w1) as [[?|e] w2]; cbn [snd] in Hk2.
  2:{ intros [= <- <-]. exists sv. by rewrite Hk2, Hk1. }
  pose proof (read_only_evaluate (problem sv) sol w2) as Hk3.
  destruct (problem.evaluate (problem sv) sol w2) as [[value|e] w3];
    cbn [snd] in Hk3; subst w3.
  2:{ intros [= <- <-]. exists sv. by rewrite Hk2, Hk1. }
  case_decide as Hgt; intros [= <- <-].
  - eexists. unfold with_solvers. cbn [solvers].
    rewrite lookup_insert_eq. split; [done|].
    destruct (_tqdm sv); cbn; split; (lia || done).
  - exists sv. by rewrite Hk2, Hk1.
Qed.

Lemma step_calls_monotone n w self sv r w' :
  solvers w !! self = Some sv →
  step_calls self n w = (r, w') →
  ∃ sv', solvers w' !! self = Some sv' ∧ (best_value sv ≤ best_value sv')%Z.
Proof.
  revert w sv r w'. induction n as [|n IH]; intros w sv r w' Hsv;
    cbn [step_calls].
  - intros [= <- <-]. exists sv. split; [done|lia].
  - unfold bind at 1.
    destruct (solver.step self w) as [[b|e] w1] eqn:Hstep;
      destruct (solver_step_monotone w self sv _ w1 Hsv Hstep)
        as (sv1 & Hsv1 & Hle & _).
    + unfold bind.
      destruct (step_calls self n w1) as [[bs|e] w2] eqn:Hrest;
        destruct (IH w1 sv1 _ w2 Hsv1 Hrest) as (sv2 & Hsv2 & Hle2);
        intros [= <- <-]; exists sv2; (split; [done|lia]).
    + intros [= <- <-]. by exists sv1.
Qed.

End SolverStep.

(** ** The candidate of a step and ready solvers *)

Module Candidate.
Import Np Py Spec Frame RngFacts TableFacts SolutionFacts ProblemFacts.
Import SolverStep.

(** The candidate that [MetaModeSolver.step] builds from the best
    solution: a fresh solution object whose baseline is a fresh copy
    of the best table and whose current table differs from it in one
    row. *)
Lemma candidate_run w best c m t :
  holds_table w best c m t → shape t = [c; m] → c ≠ 0 →
  ∃ k p g' t',
    k < c ∧ is_permutation m p ∧
    shape t' = [c; m] ∧ rows t' = <[k := p]> (rows t) ∧
    let la := fresh (dom (arrays w)) in
    let sol := fresh (dom (solutions w)) in
    let la2 := fresh (dom (<[la := t]> (arrays w))) in
    let w1 := World (<[la := t]> (arrays w))
                (<[sol := MetaModeSolution.Make m c m la None]> (solutions w))
                (solvers w) (rng w) in
    let w2 := World (<[la2 := t']> (<[la := t]> (arrays w)))
                (<[sol := MetaModeSolution.Make m c m la (Some la2)]>
                   (solutions w))
                (solvers w) g' in
    solution.copy best w = (Ok sol, w1) ∧
    solution.step sol w1 = (Ok sol, w2).
Proof.
  intros (s & l & Hs & Hm & Hc & Hl & Ht) Hsh Hc0.
  pose proof (copy_run w best s l t Hs Hl Ht) as Hcopy.
  rewrite Hm, Hc in Hcopy.
  set (la := fresh (dom (arrays w))) in *.
  set (sol := fresh (dom (solutions w))) in *.
  set (w1 := World (<[la := t]> (arrays w))
               (<[sol := MetaModeSolution.Make m c m la None]> (solutions w))
               (solvers w) (rng w)) in *.
  destruct (step_run w1 sol (MetaModeSolution.Make m c m la None) t c m)
    as (k & g1 & p & g' & t' & Hint & Hk & Hp & Hperm & Hsh' & Hrows & Hstep);
    try done.
  { subst w1. cbn [solutions]. apply lookup_insert_eq. }
  { subst w1. cbn [arrays MetaModeSolution.unpermuted_modes].
    apply lookup_insert_eq. }
  exists k, p, g', t'. do 4 (split; [done|]). cbv zeta.
  split; [exact Hcopy|].
  subst w1. rewrite Hstep. cbn [arrays solutions solvers rng].
  by rewrite insert_insert_eq.
Qed.

(** Objects that existed before the candidate was built are not
    affected by it. *)
Lemma holds_table_candidate w best c m t la la2 sol s' t1 t2 g :
  holds_table w best c m t →
  la = fresh (dom (arrays w)) →
  la2 = fresh (dom (<[la := t1]> (arrays w))) →
  sol = fresh (dom (solutions w)) →
  holds_table
    (World (<[la2 := t2]> (<[la := t1]> (arrays w)))
           (<[sol := s']> (solutions w)) (solvers w) g)
    best c m t.
Proof.
  intros (s & l & Hs & Hm & Hc & Hl & Ht) -> -> ->.
  exists s, l. cbn [arrays solutions]. repeat split; try done.
  - rewrite lookup_insert_ne; [done|].
    intros Heq. by rewrite <- Heq, fresh_solution_None in Hs.
  - assert (l ≠ fresh (dom (arrays w))) as Hne1 by by eapply fresh_array_ne.
    rewrite lookup_insert_ne, lookup_insert_ne; [done|done|].
    intros Heq.
    pose proof (is_fresh (dom (<[fresh (dom (arrays w)) := t1]> (arrays w))))
      as Hfresh.
    rewrite Heq in Hfresh. apply Hfresh, elem_of_dom.
    rewrite lookup_insert_ne by done. eauto.
Qed.

Lemma solver_ready_update w self sv f :
  solver_ready w self → solvers w !! self = Some sv →
  MetaModeSolver.problem (f sv) = MetaModeSolver.problem sv →
  MetaModeSolver.best_solution (f sv) = MetaModeSolver.best_solution sv →
  solver_ready (with_solvers (insert self (f sv)) w) self.
Proof.
  intros (sv0 & t & Hsv0 & Hp & Hh & Hv) Hsv Hprob Hbest.
  assert (sv0 = sv) as -> by congruence.
  exists (f sv), t. unfold with_solvers. cbn [solvers].
  rewrite lookup_insert_eq, Hprob, Hbest. done.
Qed.

(** One call of [step] from a ready solver. *)
Lemma solver_step_ready w self sv :
  solver_ready w self → solvers w !! self = Some sv →
  ∃ b w' sv',
    solver.step self w = (Ok b, w') ∧
    solvers w' !! self = Some sv' ∧
    solver_ready w' self ∧
    MetaModeSolver.problem sv' = MetaModeSolver.problem sv ∧
    MetaModeSolver._iteration sv' = MetaModeSolver._iteration sv ∧
    MetaModeSolver.record sv' = MetaModeSolver.record sv ∧
    MetaModeSolver.steps sv' = MetaModeSolver.steps sv ∧
    (MetaModeSolver.best_value sv ≤ MetaModeSolver.best_value sv')%Z.
Proof.
  intros (sv0 & t & Hsv0 & Hp & Hh & Hv) Hsv.
  assert (sv0 = sv) as -> by congruence. clear Hsv0.
  destruct Hp as (corr & m & c & o & Hp & Hcorr & Ho & Hc0).
  rewrite Hp in Hh, Hv.
  cbn [MetaModeProblem.n_channels MetaModeProblem.n_modes] in Hh, Hv.
  destruct (candidate_run w _ c m t Hh (proj1 Hv) Hc0)
    as (k & p & g' & t' & Hk & Hperm & Hsh' & Hrows & Hcand).
  cbv zeta in Hcand. destruct Hcand as [Hcopy Hstep].
  set (la := fresh (dom (arrays w))) in *.
  set (sol := fresh (dom (solutions w))) in *.
  set (la2 := fresh (dom (<[la := t]> (arrays w)))) in *.
  set (w2 := World (<[la2 := t']> (<[la := t]> (arrays w)))
               (<[sol := MetaModeSolution.Make m c m la (Some la2)]>
                  (solutions w)) (solvers w) g') in *.
  assert (valid_table c m t') as Hv' by (by eapply valid_insert_row).
  assert (holds_table w2 sol c m t') as Hh'.
  { eexists _, la2. subst w2. cbn [arrays solutions].
    rewrite !lookup_insert_eq. done. }
  destruct (evaluate_total corr m c o w2 sol
              (MetaModeSolution.Make m c m la (Some la2)) la2 t')
    as [value Heval]; try done.
  { subst w2. cbn [solutions]. apply lookup_insert_eq. }
  { subst w2. cbn [arrays]. apply lookup_insert_eq. }
  rewrite <- Hp in Heval.
  rewrite (solver_step_unfold w self sv Hsv), Hcopy, Hstep, Heval.
  case_decide as Hgt.
  - eexists true, _, _. split; [done|].
    unfold with_solvers. cbn [solvers]. rewrite lookup_insert_eq.
    split; [done|]. split.
    + eexists _, t'. cbn [solvers]. rewrite lookup_insert_eq.
      split; [done|].
      assert (∀ x, MetaModeSolver.problem
                match MetaModeSolver._tqdm sv with
                | Some b => MetaModeSolver.with__tqdm
                              (Some (tqdm.set_postfix x b))
                              (MetaModeSolver.with_best sol x sv)
                | None => MetaModeSolver.with_best sol x sv
                end = MetaModeSolver.problem sv) as ->
        by (intros; by destruct (MetaModeSolver._tqdm sv)).
      assert (∀ x, MetaModeSolver.best_solution
                match MetaModeSolver._tqdm sv with
                | Some b => MetaModeSolver.with__tqdm
                              (Some (tqdm.set_postfix x b))
                              (MetaModeSolver.with_best sol x sv)
                | None => MetaModeSolver.with_best sol x sv
                end = sol) as ->
        by (intros; by destruct (MetaModeSolver._tqdm sv)).
      rewrite Hp. cbn [MetaModeProblem.n_channels MetaModeProblem.n_modes].
      split; [by exists corr, m, c, o|]. done.
    + destruct (MetaModeSolver._tqdm sv); cbn; repeat split; (done || lia).
  - eexists false, w2, sv. split; [done|]. split; [done|]. split.
    + exists sv, t. split; [done|]. rewrite Hp.
      cbn [MetaModeProblem.n_channels MetaModeProblem.n_modes].
      split; [by exists corr, m, c, o|]. split; [|done].
      by eapply holds_table_candidate.
    + repeat split; (done || lia).
Qed.

End Candidate.

(** ** Construction of a solver *)

Module SolverInit.
Import Np Py Spec Frame RngFacts TableFacts SolutionFacts ProblemFacts.
Import SolverStep Candidate objectives.

Lemma initial_candidate_run m c w :
  c ≠ 0 →
  (sol <- solution.__init__ m c None;; solution.random_permutation sol)%py w
  = (Ok (fresh (dom (solutions w))), initial_world m c w).
Proof.
  intros Hc. unfold bind. rewrite init_default_run.
  rewrite (random_permutation_run _ _
             (MetaModeSolution.Make m c m (fresh (dom (arrays w))) None)
             (tile_rows (arange m) c) c m).
  - cbn [arrays solutions solvers rng]. unfold initial_world, initial_table.
    cbv zeta. by rewrite insert_insert_eq.
  - cbn [solutions]. apply lookup_insert_eq.
  - cbn [arrays MetaModeSolution.unpermuted_modes]. apply lookup_insert_eq.
  - done.
  - done.
Qed.

Lemma initial_candidate_no_channels m w :
  ∃ w', (sol <- solution.__init__ m 0 None;;
         solution.random_permutation sol)%py w = (Raise ValueError, w').
Proof.
  unfold bind. rewrite init_default_run.
  rewrite (random_permutation_no_rows _ _
             (MetaModeSolution.Make m 0 m (fresh (dom (arrays w))) None)
             (tile_rows (arange m) 0) m).
  - by eexists.
  - cbn [solutions]. apply lookup_insert_eq.
  - cbn [arrays MetaModeSolution.unpermuted_modes]. apply lookup_insert_eq.
  - done.
Qed.

Lemma initial_table_valid m c w : valid_table c m (initial_table m c w).
Proof. apply permute_rows_valid, valid_identity. Qed.

Lemma initial_world_holds m c w :
  holds_table (initial_world m c w) (fresh (dom (solutions w))) c m
    (initial_table m c w).
Proof.
  eexists _, _. unfold initial_world. cbv zeta. cbn [arrays solutions].
  rewrite !lookup_insert_eq. done.
Qed.

Lemma problem_init_member corr m c o :
  problem.__init__ corr m c (problem.Member o)
  = Ok (MetaModeProblem.Make corr m c m o (scale (arange c) (Z.of_nat m))).
Proof. done. Qed.

Lemma problem_init_name corr m c key :
  problem.__init__ corr m c (problem.Name key)
  = rbind (__getitem__ key) (λ o,
      Ok (MetaModeProblem.Make corr m c m o (scale (arange c) (Z.of_nat m)))).
Proof. done. Qed.

(** Construction of a solver over a valid problem. *)
Lemma solver_init_run corr m c sel p w :
  problem.__init__ corr m c sel = Ok p →
  shape corr = [c * m; c * m] → MetaModeProblem.objective p ≠ DYN_SUM →
  c ≠ 0 →
  ∃ v,
    problem.evaluate p (fresh (dom (solutions w))) (initial_world m c w)
    = (Ok v, initial_world m c w) ∧
    solver.__init__ corr m c sel w
    = (Ok (fresh (dom (solvers w))),
       with_solvers
         (insert (fresh (dom (solvers w)))
            (MetaModeSolver.Make p (fresh (dom (solutions w))) v 0 [] [] None))
         (initial_world m c w)).
Proof.
  intros Hp Hcorr Ho Hc.
  pose proof (init_ok corr m c sel p Hp) as Hpeq.
  pose proof (initial_world_holds m c w) as (s & l & Hs & Hm & Hch & Hl & Ht).
  destruct (evaluate_total corr m c (MetaModeProblem.objective p)
              (initial_world m c w) (fresh (dom (solutions w))) s l
              (initial_table m c w) Hs Hl Ht (initial_table_valid m c w)
              Hcorr Ho) as [v Hv].
  rewrite <- Hpeq in Hv. exists v. split; [done|].
  pose proof (initial_candidate_run m c w Hc) as Hcand.
  unfold bind in Hcand. unfold solver.__init__, bind, lift. rewrite Hp.
  destruct (solution.__init__ m c None w) as [[sol|e] w1]; [|done].
  destruct (solution.random_permutation sol w1) as [[best|e] w2]; [|done].
  injection Hcand as -> ->. by rewrite Hv.
Qed.

Lemma solver_init_ready corr m c sel p w :
  problem.__init__ corr m c sel = Ok p →
  shape corr = [c * m; c * m] → MetaModeProblem.objective p ≠ DYN_SUM →
  c ≠ 0 →
  ∃ w' sv,
    solver.__init__ corr m c sel w = (Ok (fresh (dom (solvers w))), w') ∧
    solvers w' !! fresh (dom (solvers w)) = Some sv ∧
    MetaModeSolver._iteration sv = 0 ∧ MetaModeSolver.record sv = [] ∧
    MetaModeSolver.steps sv = [] ∧ MetaModeSolver.problem sv = p ∧
    solver_ready w' (fresh (dom (solvers w))).
Proof.
  intros Hp Hcorr Ho Hc.
  destruct (solver_init_run corr m c sel p w Hp Hcorr Ho Hc) as (v & _ & Hrun).
  eexists _, _. split; [exact Hrun|]. unfold with_solvers. cbn [solvers].
  rewrite lookup_insert_eq. do 5 (split; [done|]).
  eexists _, (initial_table m c w). cbn [solvers].
  rewrite lookup_insert_eq. split; [done|].
  cbn [MetaModeSolver.problem MetaModeSolver.best_solution].
  pose proof (init_ok corr m c sel p Hp) as Hpeq.
  split; [by exists corr, m, c, (MetaModeProblem.objective p)|].
  rewrite Hpeq. cbn [MetaModeProblem.n_channels MetaModeProblem.n_modes].
  split; [|apply initial_table_valid].
  destruct (initial_world_holds m c w) as (s & l & ?). by exists s, l.
Qed.

End SolverInit.

(** ** The loop of [solve] *)

Module SolveLoop.
Import Np Py Spec Frame RngFacts TableFacts SolutionFacts ProblemFacts.
Import SolverStep Candidate SolverInit objectives MetaModeSolver.

Lemma generate_ready w self sv :
  solver_ready w self → solvers w !! self = Some sv →
  ∃ g, ∀ f,
    problem.generate (problem sv) (best_solution sv) (with_solvers f w)
    = (Ok g, with_solvers f w).
Proof.
  intros (sv0 & t & Hsv0 & Hp & Hh & Hv) Hsv.
  assert (sv0 = sv) as -> by congruence. clear Hsv0.
  destruct Hp as (corr & m & c & o & Hp & Hcorr & Ho & Hc0).
  rewrite Hp in Hh, Hv |- *.
  cbn [MetaModeProblem.n_channels MetaModeProblem.n_modes] in Hh, Hv.
  destruct Hh as (s & l & Hs & Hm & Hc & Hl & Ht).
  eexists. intros f.
  by apply (generate_run corr m c o (with_solvers f w) _ s l t).
Qed.

Lemma with_solvers_id w : with_solvers (λ x, x) w = w.
Proof. by destruct w. Qed.

Ltac run_store :=
  repeat first
    [ progress cbn [arrays solutions solvers rng fst snd]
    | rewrite lookup_insert_eq
    | rewrite insert_insert_eq
    | match goal with
      | H : solvers ?w !! ?l = Some _ |- context [solvers ?w !! ?l] =>
          rewrite H
      end ].

(** The state after one pass through the body of the loop of
    [solve], from the outcome of its call of [step]. *)
Lemma solve_iteration_unfold w self b w1 sv1 g :
  solver.step self w = (Ok b, w1) → solvers w1 !! self = Some sv1 →
  (b = true → ∀ f,
     problem.generate (problem sv1) (best_solution sv1) (with_solvers f w1)
     = (Ok g, with_solvers f w1)) →
  solver.solve_iteration self w
  = (Ok (),
     with_solvers
       (insert self
          (if b then
             with__iteration (_iteration sv1 + 1)
               (with_steps (steps sv1 ++ [g])
                  (with_record
                     (record sv1 ++ [(_iteration sv1, best_value sv1)]) sv1))
           else with__iteration (_iteration sv1 + 1) sv1)) w1).
Proof.
  intros Hstep Hsv1 Hg. unfold solver.solve_iteration, bind at 1.
  rewrite Hstep. destruct b.
  - specialize (Hg eq_refl).
    unfold bind at 1 2. unfold get_solver at 1. rewrite Hsv1.
    unfold bind at 1. unfold update_solver at 1. rewrite Hsv1.
    unfold bind at 1. unfold get_solver at 1.
    unfold with_solvers at 1 2. run_store.
    cbn [with_record problem best_solution].
    pose proof (Hg (insert self
                      (with_record
                         (record sv1 ++ [(_iteration sv1, best_value sv1)])
                         sv1))) as Hg1.
    unfold with_solvers in Hg1. unfold bind at 1. rewrite Hg1.
    unfold update_solver, with_solvers. run_store.
    unfold bind, ret, with_solvers. run_store. done.
  - unfold bind, ret, update_solver, with_solvers. run_store. done.
Qed.

(** One pass through the body of the loop of [solve]. *)
Lemma solve_iteration_ready w self sv :
  solver_ready w self → solvers w !! self = Some sv →
  ∃ b w1 sv1 w2 sv2,
    solver.step self w = (Ok b, w1) ∧ solvers w1 !! self = Some sv1 ∧
    solver.solve_iteration self w = (Ok (), w2) ∧
    solvers w2 !! self = Some sv2 ∧ solver_ready w2 self ∧
    _iteration sv2 = _iteration sv + 1 ∧
    problem sv2 = problem sv ∧
    best_value sv2 = best_value sv1 ∧
    best_solution sv2 = best_solution sv1 ∧
    _tqdm sv2 = _tqdm sv1 ∧
    (best_value sv ≤ best_value sv1)%Z ∧
    if b then
      ∃ g, problem.generate (problem sv1) (best_solution sv1) w1 = (Ok g, w1) ∧
           record sv2 = record sv ++ [(_iteration sv, best_value sv1)] ∧
           steps sv2 = steps sv ++ [g]
    else record sv2 = record sv ∧ steps sv2 = steps sv.
Proof.
  intros Hready Hsv.
  destruct (solver_step_ready w self sv Hready Hsv)
    as (b & w1 & sv1 & Hstep & Hsv1 & Hready1 & Hprob & Hit & Hrec & Hsteps & Hle).
  destruct (generate_ready w1 self sv1 Hready1 Hsv1) as [g Hg].
  pose proof (solve_iteration_unfold w self b w1 sv1 g Hstep Hsv1
                (λ _, Hg)) as Hrun.
  eexists b, w1, sv1, _, _. split; [done|]. split; [done|].
  split; [exact Hrun|]. unfold with_solvers at 1. cbn [solvers].
  split; [apply lookup_insert_eq|]. split.
  { apply (solver_ready_update w1 self sv1
             (λ s, if b then
                     with__iteration (_iteration s + 1)
                       (with_steps (steps s ++ [g])
                          (with_record
                             (record s ++ [(_iteration s, best_value s)]) s))
                   else with__iteration (_iteration s + 1) s));
      try done; by destruct b. }
  destruct b; cbn; rewrite Hit, ?Hrec, ?Hsteps; do 6 (split; [done|]).
  - exists g. split; [|done].
    specialize (Hg (λ x, x)). by rewrite with_solvers_id in Hg.
  - done.
Qed.

Lemma StronglySorted_snoc (l : list nat) y :
  StronglySorted lt l → Forall (λ x, x < y) l → StronglySorted lt (l ++ [y]).
Proof.
  induction 1 as [|x l Hl IH Hx]; intros Hall; cbn.
  - repeat constructor.
  - apply Forall_cons in Hall as [Hxy Hall]. constructor; [by apply IH|].
    apply Forall_app. split; [done|]. by constructor.
Qed.

(** [n] passes through the loop of [solve] from a ready solver: the
    loop runs to completion and appends equally many entries to
    [record] and [steps], with increasing iteration indices taken
    from the passes it has made. *)
Lemma for_range_ready self n :
  ∀ w sv,
    solver_ready w self → solvers w !! self = Some sv →
    ∃ w' sv' rs gs,
      solver.for_range n (solver.solve_iteration self) w = (Ok (), w') ∧
      solvers w' !! self = Some sv' ∧ solver_ready w' self ∧
      _iteration sv' = _iteration sv + n ∧
      problem sv' = problem sv ∧
      record sv' = record sv ++ rs ∧ steps sv' = steps sv ++ gs ∧
      length rs = length gs ∧
      Forall (λ e, _iteration sv ≤ e.1 < _iteration sv + n) rs ∧
      StronglySorted lt (rs.*1).
Proof.
  induction n as [|n IH]; intros w sv Hready Hsv; cbn [solver.for_range].
  - exists w, sv, [], []. unfold ret. rewrite !app_nil_r, Nat.add_0_r.
    repeat split; try done; constructor.
  - destruct (solve_iteration_ready w self sv Hready Hsv)
      as (b & w1 & sv1 & w2 & sv2 & Hstep & Hsv1 & Hiter & Hsv2 & Hready2
          & Hit & Hprob & _ & _ & _ & _ & Hb).
    destruct (IH w2 sv2 Hready2 Hsv2)
      as (w' & sv' & rs & gs & Hloop & Hsv' & Hready' & Hit' & Hprob' & Hrec'
          & Hsteps' & Hlen & Hrange & Hsorted).
    unfold bind. rewrite Hiter, Hloop.
    assert (Forall (λ e : nat * Z, _iteration sv ≤ e.1 < _iteration sv + S n) rs)
      as Hrange'.
    { eapply Forall_impl; [exact Hrange|]. intros e. cbn. lia. }
    destruct b.
    + destruct Hb as (g & _ & Hrec2 & Hsteps2).
      exists w', sv', ((_iteration sv, best_value sv1) :: rs), (g :: gs).
      rewrite Hrec', Hsteps', Hrec2, Hsteps2, <- !app_assoc.
      repeat split; try done; try lia; try congruence.
      * cbn. lia.
      * constructor; [cbn; lia|done].
      * cbn. constructor; [done|].
        apply Forall_fmap. eapply Forall_impl; [exact Hrange|].
        intros e. cbn. lia.
    + destruct Hb as [Hrec2 Hsteps2].
      exists w', sv', rs, gs. rewrite Hrec', Hsteps', Hrec2, Hsteps2.
      repeat split; try done; try lia; congruence.
Qed.

(** [solve(n_steps)] from a ready solver. *)
Lemma solve_ready self n progress w sv :
  solver_ready w self → solvers w !! self = Some sv →
  ∃ w' sv' rs gs,
    solver.solve self n progress w = (Ok (), w') ∧
    solvers w' !! self = Some sv' ∧ solver_ready w' self ∧
    _iteration sv' = _iteration sv + n ∧
    problem sv' = problem sv ∧
    record sv' = record sv ++ rs ∧ steps sv' = steps sv ++ gs ∧
    length rs = length gs ∧
    Forall (λ e, _iteration sv ≤ e.1 < _iteration sv + n) rs ∧
    StronglySorted lt (rs.*1) ∧
    _tqdm sv' = None.
Proof.
  intros Hready Hsv.
  pose proof (solver_ready_update w self sv
                (with__tqdm (Some (tqdm.trange n (negb progress))))
                Hready Hsv eq_refl eq_refl) as Hready0.
  destruct (for_range_ready self n _ _ Hready0
              ltac:(unfold with_solvers; cbn [solvers]; apply lookup_insert_eq))
    as (w1 & sv1 & rs & gs & Hloop & Hsv1 & Hready1 & Hit & Hprob & Hrec
        & Hsteps & Hlen & Hrange & Hsorted).
  unfold solver.solve, bind at 1, update_solver at 1. rewrite Hsv.
  unfold bind at 1. rewrite Hloop.
  unfold bind, update_solver, with_solvers. run_store.
  eexists _, _, rs, gs. split; [done|]. cbn [solvers].
  split; [apply lookup_insert_eq|]. split.
  { pose proof (solver_ready_update w1 self sv1 (with__tqdm None)
                  Hready1 Hsv1 eq_refl eq_refl) as H.
    unfold with_solvers in H. exact H. }
  cbn [with__tqdm _iteration problem record steps _tqdm] in *.
  repeat split; done.
Qed.

End SolveLoop.

(** ** The best solution keeps a valid table *)

Module Invariant.
Import Np Py Spec Frame RngFacts TableFacts SolutionFacts ProblemFacts.
Import SolverStep Candidate SolverInit objectives.

(** A table that a solution holds is still held after objects have
    been added to the store. *)
Lemma holds_table_weaken w w' sol c m t :
  holds_table w sol c m t →
  arrays w ⊆ arrays w' → solutions w ⊆ solutions w' →
  holds_table w' sol c m t.
Proof.
  intros (s & l & Hs & Hm & Hc & Hl & Ht) Harr Hsol. exists s, l.
  repeat split; try done; by eapply lookup_weaken.
Qed.

Lemma insert_fresh_array_subseteq (a : gmap nat ndarray) t :
  a ⊆ <[fresh (dom a) := t]> a.
Proof. apply insert_subseteq, not_elem_of_dom, is_fresh. Qed.

Lemma insert_fresh_solution_subseteq (a : gmap nat MetaModeSolution.t) s :
  a ⊆ <[fresh (dom a) := s]> a.
Proof. apply insert_subseteq, not_elem_of_dom, is_fresh. Qed.

Lemma step_no_channels w sol m la perm :
  solutions w !! sol = Some (MetaModeSolution.Make m 0 m la perm) →
  solution.step sol w = (Raise ValueError, w).
Proof.
  intros Hs. unfold solution.step, bind, get_solution. rewrite Hs.
  unfold draw_result, Rng.integers. cbn. by destruct w.
Qed.

(** Whatever a call of [MetaModeSolver.step] does, the best solution
    afterwards holds a valid table. *)
Lemma solver_step_keeps_valid w self r w' :
  best_is_valid w self → solver.step self w = (r, w') →
  best_is_valid w' self.
Proof.
  intros (sv & c & m & t & Hsv & Hh & Hv).
  rewrite (solver_step_unfold w self sv Hsv).
  destruct (decide (c = 0)) as [->|Hc0].
  - destruct Hh as (s & l & Hs & Hm & Hc & Hl & Ht).
    rewrite (copy_run w _ s l t Hs Hl Ht), Hm, Hc.
    erewrite step_no_channels by (cbn [solutions]; apply lookup_insert_eq).
    intros [= <- <-]. exists sv, 0, m, t. cbn [solvers]. split; [done|].
    split; [|done].
    apply (holds_table_weaken w); [by exists s, l|..]; cbn [arrays solutions].
    + apply insert_fresh_array_subseteq.
    + apply insert_fresh_solution_subseteq.
  - destruct (candidate_run w _ c m t Hh (proj1 Hv) Hc0)
      as (k & p & g' & t' & Hk & Hperm & Hsh' & Hrows & Hcand).
    cbv zeta in Hcand. destruct Hcand as [Hcopy Hstep].
    rewrite Hcopy, Hstep.
    set (la := fresh (dom (arrays w))) in *.
    set (sol := fresh (dom (solutions w))) in *.
    set (la2 := fresh (dom (<[la := t]> (arrays w)))) in *.
    set (w2 := World (<[la2 := t']> (<[la := t]> (arrays w)))
                 (<[sol := MetaModeSolution.Make m c m la (Some la2)]>
                    (solutions w)) (solvers w) g') in *.
    assert (best_is_valid w2 self) as Hkeep.
    { exists sv, c, m, t. split; [done|]. split; [|done].
      by eapply holds_table_candidate. }
    pose proof (read_only_evaluate (MetaModeSolver.problem sv) sol w2) as Hro.
    destruct (problem.evaluate (MetaModeSolver.problem sv) sol w2)
      as [[value|e] w3]; cbn [snd] in Hro; subst w3.
    2:{ by intros [= <- <-]. }
    case_decide; intros [= <- <-]; [|done].
    eexists _, c, m, t'. unfold with_solvers. cbn [solvers].
    rewrite lookup_insert_eq. split; [done|]. split.
    + assert (∀ x, MetaModeSolver.best_solution
                match MetaModeSolver._tqdm sv with
                | Some b => MetaModeSolver.with__tqdm
                              (Some (tqdm.set_postfix x b))
                              (MetaModeSolver.with_best sol x sv)
                | None => MetaModeSolver.with_best sol x sv
                end = sol) as ->
        by (intros; by destruct (MetaModeSolver._tqdm sv)).
      eexists _, la2. subst w2. cbn [arrays solutions].
      rewrite !lookup_insert_eq. done.
    + by eapply valid_insert_row.
Qed.

Lemma step_calls_keep_valid n w self r w' :
  best_is_valid w self → step_calls self n w = (r, w') →
  best_is_valid w' self.
Proof.
  revert w r w'. induction n as [|n IH]; intros w r w' Hv; cbn [step_calls].
  - by intros [= <- <-].
  - unfold bind at 1.
    destruct (solver.step self w) as [[b|e] w1] eqn:Hstep;
      pose proof (solver_step_keeps_valid w self _ w1 Hv Hstep) as Hv1.
    + unfold bind.
      destruct (step_calls self n w1) as [[bs|e] w2] eqn:Hrest;
        pose proof (IH w1 _ w2 Hv1 Hrest); by intros [= <- <-].
    + by intros [= <- <-].
Qed.

End Invariant.

(** ** Mutations of a copy stay apart from the parent *)

Module CopyFacts.
Import Np Py Spec Frame RngFacts TableFacts SolutionFacts ProblemFacts.
Import Invariant MetaModeSolution.

Lemma apart_rng w0 sol w g : apart w0 sol w → apart w0 sol (with_rng g w).
Proof. done. Qed.

Lemma fresh_outside (a0 a : gmap nat ndarray) :
  a0 ⊆ a → a0 !! fresh (dom a) = None.
Proof.
  intros Hsub. apply not_elem_of_dom. intros Hin.
  apply (is_fresh (dom a)). by eapply subseteq_dom.
Qed.

Lemma apart_set_permuted w0 sol w s t g :
  apart w0 sol w → solutions w !! sol = Some s →
  apart w0 sol
    (World (<[fresh (dom (arrays w)) := t]> (arrays w))
           (<[sol := with_permuted_modes (Some (fresh (dom (arrays w)))) s]>
              (solutions w))
           (solvers w) g).
Proof.
  intros (Harr & Hsol & Hnew & s' & Hs' & Hu & Hp) Hs.
  assert (s' = s) as -> by congruence.
  split; [|split; [|split]]; cbn [arrays solutions]; try done.
  - etrans; [exact Harr|]. apply insert_fresh_array_subseteq.
  - by apply insert_subseteq_r.
  - eexists. rewrite lookup_insert_eq. split; [done|].
    cbn [unpermuted_modes permuted_modes with_permuted_modes].
    split; [done|]. intros l [= <-]. by apply fresh_outside.
Qed.

Lemma apart_random_permutation w0 sol w :
  apart w0 sol w → apart w0 sol (solution.random_permutation sol w).2.
Proof.
  intros Hap. pose proof Hap as (_ & _ & _ & s & Hs & _).
  unfold solution.random_permutation, bind, get_solution, get_array.
  rewrite Hs.
  destruct (arrays w !! unpermuted_modes s) as [u|]; [|done].
  unfold solution.apply_along_axis_permutation.
  destruct (shape u) as [|c [|m [|]]]; try done.
  case_decide; [done|]. unfold bind, draw.
  destruct (Rng.permute_rows (rows u) (rng w)) as [rs g].
  unfold ret, new_array, update_solution, with_arrays, with_rng,
    with_solutions.
  cbn [arrays solutions solvers rng fst snd]. rewrite Hs. cbn [snd].
  by apply apart_set_permuted.
Qed.

Lemma apart_permute_one_channel w0 sol w ch :
  apart w0 sol w → apart w0 sol (solution.permute_one_channel sol ch w).2.
Proof.
  intros Hap. pose proof Hap as (_ & _ & _ & s & Hs & _).
  destruct (arrays w !! unpermuted_modes s) as [u|] eqn:Hu.
  - rewrite (permute_one_channel_unfold w sol s u ch Hs Hu). cbv zeta.
    destruct (setitem u ch _) as [t'|e]; cbn [snd].
    + unfold with_arrays. cbn [arrays solutions solvers rng].
      rewrite insert_insert_eq. by apply apart_set_permuted.
    + by apply apart_set_permuted.
  - unfold solution.permute_one_channel, bind, get_solution, get_array.
    by rewrite Hs, Hu.
Qed.

Lemma apart_step w0 sol w :
  apart w0 sol w → apart w0 sol (solution.step sol w).2.
Proof.
  intros Hap. pose proof Hap as (_ & _ & _ & s & Hs & _).
  unfold solution.step, bind, get_solution, draw_result. rewrite Hs.
  destruct (Rng.integers (n_channels s) (rng w)) as [[k|e] g]; [|done].
  pose proof (apart_permute_one_channel w0 sol (with_rng g w) (Z.of_nat k)
                (apart_rng _ _ _ g Hap)) as H.
  by destruct (solution.permute_one_channel sol (Z.of_nat k) (with_rng g w))
    as [[?|?] ?].
Qed.

Lemma apart_write w0 sol w l a :
  apart w0 sol w → arrays w0 !! l = None →
  apart w0 sol (with_arrays (insert l a) w).
Proof.
  intros (Harr & Hsol & Hnew & s & Hs & Hu & Hp) Hl.
  split; [|split; [|split]]; cbn [with_arrays arrays solutions]; try done.
  - by apply insert_subseteq_r.
  - by exists s.
Qed.

Lemma apart_mutate w0 sol w μ :
  apart w0 sol w → apart w0 sol (mutate sol μ w).2.
Proof.
  intros Hap. destruct μ as [|ch| |a|a]; cbn [mutate].
  - pose proof (apart_random_permutation w0 sol w Hap) as H. unfold bind.
    by destruct (solution.random_permutation sol w) as [[?|?] ?].
  - pose proof (apart_permute_one_channel w0 sol w ch Hap) as H. unfold bind.
    by destruct (solution.permute_one_channel sol ch w) as [[?|?] ?].
  - pose proof (apart_step w0 sol w Hap) as H. unfold bind.
    by destruct (solution.step sol w) as [[?|?] ?].
  - pose proof Hap as (_ & _ & _ & s & Hs & _ & Hp).
    unfold bind, get_solution. rewrite Hs.
    destruct (permuted_modes s) as [l|]; [|done].
    apply apart_write; [done|]. by apply Hp.
  - pose proof Hap as (_ & _ & _ & s & Hs & Hu & _).
    unfold bind, get_solution. rewrite Hs. by apply apart_write.
Qed.

Lemma apart_after_mutations w0 sol μs w :
  apart w0 sol w → apart w0 sol (after_mutations sol μs w).
Proof.
  revert w. induction μs as [|μ μs IH]; intros w Hap; [done|].
  cbn [after_mutations]. by apply IH, apart_mutate.
Qed.

End CopyFacts.

(** ** The invariant of solution objects *)

Module TableInvariant.
Import Np Py Spec Frame RngFacts TableFacts SolutionFacts ProblemFacts.
Import Invariant MetaModeSolution.

Lemma table_invariant_rng w sol g :
  table_invariant w sol → table_invariant (with_rng g w) sol.
Proof. done. Qed.

(** The invariant after [permuted_modes] has been bound to a new
    array that holds a valid table. *)
Lemma table_invariant_set_permuted w sol s u t g :
  solutions w !! sol = Some s →
  arrays w !! unpermuted_modes s = Some u →
  valid_table (n_channels s) (n_modes s) u →
  valid_table (n_channels s) (n_modes s) t →
  table_invariant
    (World (<[fresh (dom (arrays w)) := t]> (arrays w))
           (<[sol := with_permuted_modes (Some (fresh (dom (arrays w)))) s]>
              (solutions w))
           (solvers w) g) sol.
Proof.
  intros Hs Hu Hvu Hvt. eexists _, u. cbn [arrays solutions].
  rewrite lookup_insert_eq. split; [done|].
  cbn [unpermuted_modes permuted_modes n_channels n_modes
       with_permuted_modes].
  split.
  { rewrite lookup_insert_ne; [done|]. symmetry. by eapply fresh_array_ne. }
  split; [done|]. intros l [= <-]. exists t. by rewrite lookup_insert_eq.
Qed.

Lemma table_invariant_random_permutation w sol :
  table_invariant w sol →
  table_invariant (solution.random_permutation sol w).2 sol.
Proof.
  intros Hinv. pose proof Hinv as (s & u & Hs & Hu & Hvu & Hp).
  destruct (decide (n_channels s = 0)) as [Hc|Hc].
  - rewrite (random_permutation_no_rows w sol s u (n_modes s) Hs Hu);
      [done|]. rewrite <- Hc. apply Hvu.
  - rewrite (random_permutation_run w sol s u (n_channels s) (n_modes s)
               Hs Hu (proj1 Hvu) Hc).
    cbn [snd]. apply (table_invariant_set_permuted w sol s u); try done.
    by apply permute_rows_valid.
Qed.

Lemma table_invariant_permute_one_channel w sol channel :
  table_invariant w sol →
  table_invariant (solution.permute_one_channel sol channel w).2 sol.
Proof.
  intros Hinv. pose proof Hinv as (s & u & Hs & Hu & Hvu & Hp).
  destruct (norm_index (n_channels s) channel) as [k|e] eqn:Hk.
  - destruct (permute_one_channel_run w sol s u (n_channels s) (n_modes s)
                channel k Hs Hu (proj1 Hvu) eq_refl Hk)
      as (p & g' & t' & _ & Hperm & Hsh' & Hrows & Hrun).
    rewrite Hrun. cbn [snd].
    apply (table_invariant_set_permuted w sol s u); try done.
    by eapply valid_insert_row.
  - rewrite (permute_one_channel_unfold w sol s u channel Hs Hu). cbv zeta.
    assert (∀ v, setitem u channel v = Raise e) as ->.
    { intros v. unfold setitem. rewrite (proj1 Hvu), Hk. done. }
    cbn [snd]. by apply (table_invariant_set_permuted w sol s u).
Qed.

Lemma table_invariant_step w sol :
  table_invariant w sol → table_invariant (solution.step sol w).2 sol.
Proof.
  intros Hinv. pose proof Hinv as (s & u & Hs & Hu & Hvu & Hp).
  unfold solution.step, bind, get_solution, draw_result. rewrite Hs.
  destruct (Rng.integers (n_channels s) (rng w)) as [[k|e] g] eqn:Hint.
  - pose proof (table_invariant_permute_one_channel (with_rng g w) sol
                  (Z.of_nat k) (table_invariant_rng _ _ g Hinv)) as H.
    by destruct (solution.permute_one_channel sol (Z.of_nat k) (with_rng g w))
      as [[?|?] ?].
  - cbn [snd]. by apply table_invariant_rng.
Qed.

End TableInvariant.

(** ** Computations that do not look at the solvers *)

Module Ignores.
Import Np Py Spec MetaModeSolution.

Lemma ignores_ret {A} (a : A) : ignores_solvers (ret a).
Proof. done. Qed.

Lemma ignores_raise {A} e : ignores_solvers (@raise A e).
Proof. done. Qed.

Lemma ignores_lift {A} (r : result A) : ignores_solvers (lift r).
Proof. done. Qed.

Lemma ignores_get_array l : ignores_solvers (get_array l).
Proof. intros f w. unfold get_array. cbn. by destruct (arrays w !! l). Qed.

Lemma ignores_new_array a : ignores_solvers (new_array a).
Proof. done. Qed.

Lemma ignores_set_array l a : ignores_solvers (set_array l a).
Proof. done. Qed.

Lemma ignores_get_solution l : ignores_solvers (get_solution l).
Proof. intros f w. unfold get_solution. cbn. by destruct (solutions w !! l). Qed.

Lemma ignores_new_solution s : ignores_solvers (new_solution s).
Proof. done. Qed.

Lemma ignores_update_solution l g : ignores_solvers (update_solution l g).
Proof.
  intros f w. unfold update_solution. cbn. by destruct (solutions w !! l).
Qed.

Lemma ignores_draw {A} (g : Rng.state → A * Rng.state) :
  ignores_solvers (draw g).
Proof. intros f w. unfold draw. cbn. by destruct (g (rng w)). Qed.

Lemma ignores_draw_result {A} (g : Rng.state → result A * Rng.state) :
  ignores_solvers (draw_result g).
Proof. intros f w. unfold draw_result. cbn. by destruct (g (rng w)). Qed.

Lemma ignores_bind {A B} (m : M A) (k : A → M B) :
  ignores_solvers m → (∀ a, ignores_solvers (k a)) →
  ignores_solvers (bind m k).
Proof.
  intros Hm Hk f w. unfold bind. rewrite Hm.
  destruct (m w) as [[a|e] w1]; cbn [fst snd]; [apply Hk|done].
Qed.

Create HintDb ignores discriminated.
#[local] Hint Resolve ignores_ret ignores_raise ignores_lift ignores_get_array
  ignores_new_array ignores_set_array ignores_get_solution
  ignores_new_solution ignores_update_solution ignores_draw
  ignores_draw_result : ignores.

Ltac ignores :=
  repeat first
    [ apply ignores_bind; [|intros ?]
    | solve [eauto with ignores]
    | match goal with
      | |- ignores_solvers (match ?x with _ => _ end) => destruct x
      | |- ignores_solvers (if ?x then _ else _) => destruct x
      end ].

Lemma ignores_init m c perm : ignores_solvers (solution.__init__ m c perm).
Proof. unfold solution.__init__. ignores. Qed.

Lemma ignores_copy self : ignores_solvers (solution.copy self).
Proof. unfold solution.copy. ignores. Qed.

Lemma ignores_permute_one_channel self ch :
  ignores_solvers (solution.permute_one_channel self ch).
Proof. unfold solution.permute_one_channel. ignores. Qed.

Lemma ignores_step self : ignores_solvers (solution.step self).
Proof. unfold solution.step. ignores. Qed.

Lemma ignores_global_indices p sol refused :
  ignores_solvers (problem.global_indices p sol refused).
Proof. unfold problem.global_indices. ignores. Qed.

Lemma ignores_evaluate p sol : ignores_solvers (problem.evaluate p sol).
Proof. unfold problem.evaluate. ignores. Qed.

Lemma ignores_generate p sol : ignores_solvers (problem.generate p sol).
Proof. unfold problem.generate. ignores. Qed.

End Ignores.

(** ** The search up to the bookkeeping of the solver *)

Module HistoryBlind.
Import Np Py Spec MetaModeSolver Ignores.

Lemma without_history_inv self w1 w2 :
  without_history self w1 = without_history self w2 →
  arrays w1 = arrays w2 ∧ solutions w1 = solutions w2 ∧ rng w1 = rng w2 ∧
  alter forget_history self (solvers w1)
  = alter forget_history self (solvers w2).
Proof.
  intros H. repeat split.
  - exact (f_equal arrays H).
  - exact (f_equal solutions H).
  - exact (f_equal rng H).
  - exact (f_equal solvers H).
Qed.

Lemma without_history_intro self w1 w2 :
  arrays w1 = arrays w2 → solutions w1 = solutions w2 → rng w1 = rng w2 →
  alter forget_history self (solvers w1)
  = alter forget_history self (solvers w2) →
  without_history self w1 = without_history self w2.
Proof.
  destruct w1, w2. unfold without_history, with_solvers. cbn.
  by intros -> -> -> ->.
Qed.

Lemma without_history_lookup self w1 w2 :
  without_history self w1 = without_history self w2 →
  forget_history <$> solvers w1 !! self
  = forget_history <$> solvers w2 !! self.
Proof.
  intros (_ & _ & _ & H)%without_history_inv.
  by rewrite <- !lookup_alter_eq, H.
Qed.

Lemma without_history_insert self w1 w2 s1 s2 :
  without_history self w1 = without_history self w2 →
  forget_history s1 = forget_history s2 →
  without_history self (with_solvers (insert self s1) w1)
  = without_history self (with_solvers (insert self s2) w2).
Proof.
  intros (Ha & Hs & Hr & Hsv)%without_history_inv Hs12.
  apply without_history_intro; try done. cbn [solvers with_solvers].
  rewrite !alter_insert_eq, Hs12.
  rewrite <- (insert_alter_eq forget_history (solvers w1)).
  rewrite <- (insert_alter_eq forget_history (solvers w2)).
  by rewrite Hsv.
Qed.

(** An update that only touches the bookkeeping. *)
Lemma without_history_insert_same self w s s' :
  solvers w !! self = Some s →
  forget_history s' = forget_history s →
  without_history self (with_solvers (insert self s') w)
  = without_history self w.
Proof.
  intros Hs Hs'. apply without_history_intro; try done.
  cbn [solvers with_solvers]. rewrite alter_insert_eq, Hs'.
  apply map_eq. intros i. destruct (decide (i = self)) as [->|Hne].
  - by rewrite lookup_insert_eq, lookup_alter_eq, Hs.
  - by rewrite lookup_insert_ne, lookup_alter_ne.
Qed.

Lemma forgotten_fields s1 s2 :
  forget_history s1 = forget_history s2 →
  problem s1 = problem s2 ∧ best_solution s1 = best_solution s2 ∧
  best_value s1 = best_value s2.
Proof. intros [=]. done. Qed.

Lemma history_blind_ignores {A} self (m : M A) :
  ignores_solvers m → history_blind self m m.
Proof.
  intros Hm w1 w2 Hw.
  pose proof (Hm (alter forget_history self) w1) as H1.
  pose proof (Hm (alter forget_history self) w2) as H2.
  fold (without_history self w1) in H1. fold (without_history self w2) in H2.
  rewrite Hw, H2 in H1. injection H1 as Hr Hs.
  split; [done|]. unfold without_history in *. congruence.
Qed.

Lemma history_blind_bind {A B} self (m1 m2 : M A) (k1 k2 : A → M B) :
  history_blind self m1 m2 → (∀ a, history_blind self (k1 a) (k2 a)) →
  history_blind self (bind m1 k1) (bind m2 k2).
Proof.
  intros Hm Hk w1 w2 Hw. unfold bind.
  destruct (Hm w1 w2 Hw) as [Hr Hs].
  destruct (m1 w1) as [[a|e] w1'], (m2 w2) as [[a'|e'] w2'];
    cbn [fst snd] in Hr, Hs; try done.
  - injection Hr as <-. by apply Hk.
  - by injection Hr as <-.
Qed.

Lemma history_blind_get_solver {A} self (k1 k2 : MetaModeSolver.t → M A) :
  (∀ s1 s2, forget_history s1 = forget_history s2 →
            history_blind self (k1 s1) (k2 s2)) →
  history_blind self (bind (get_solver self) k1) (bind (get_solver self) k2).
Proof.
  intros Hk w1 w2 Hw. unfold bind, get_solver.
  pose proof (without_history_lookup self w1 w2 Hw) as Hl.
  destruct (solvers w1 !! self) as [s1|], (solvers w2 !! self) as [s2|];
    cbn [fmap option_fmap option_map] in Hl; try done.
  apply (inj Some) in Hl. by apply Hk.
Qed.

Lemma history_blind_update_solver self f1 f2 :
  (∀ s1 s2, forget_history s1 = forget_history s2 →
            forget_history (f1 s1) = forget_history (f2 s2)) →
  history_blind self (update_solver self f1) (update_solver self f2).
Proof.
  intros Hf w1 w2 Hw. unfold update_solver.
  pose proof (without_history_lookup self w1 w2 Hw) as Hl.
  destruct (solvers w1 !! self) as [s1|], (solvers w2 !! self) as [s2|];
    cbn [fmap option_fmap option_map] in Hl; try done.
  apply (inj Some) in Hl. cbn [fst snd]. split; [done|].
  apply without_history_insert; [done|by apply Hf].
Qed.

Ltac forgotten :=
  let H := fresh in
  intros [] [] H; apply forgotten_fields in H; cbn in H;
  destruct H as (-> & -> & ->);
  repeat match goal with |- context [match ?x with _ => _ end] => destruct x end;
  reflexivity.

(** [MetaModeSolver.step()] neither reads nor writes the counter, the
    record and the steps, and it only writes to the progress bar. *)
Lemma history_blind_solver_step self :
  history_blind self (solver.step self) (solver.step self).
Proof.
  unfold solver.step. apply history_blind_get_solver.
  intros s1 s2 (Hp & Hb & _)%forgotten_fields. rewrite Hp, Hb.
  apply history_blind_bind; [apply history_blind_ignores, ignores_copy|intros sol].
  apply history_blind_bind; [apply history_blind_ignores, ignores_step|intros _].
  apply history_blind_bind;
    [apply history_blind_ignores, ignores_evaluate|intros v].
  apply history_blind_get_solver.
  intros s1' s2' (_ & _ & Hv)%forgotten_fields. rewrite Hv.
  case_decide; [|apply history_blind_ignores, ignores_ret].
  apply history_blind_bind;
    [apply history_blind_update_solver; forgotten|intros _].
  apply history_blind_bind;
    [apply history_blind_update_solver; forgotten|intros _].
  apply history_blind_ignores, ignores_ret.
Qed.

Lemma history_blind_solver_generate self :
  history_blind self (solver.generate self) (solver.generate self).
Proof.
  unfold solver.generate. apply history_blind_get_solver.
  intros s1 s2 (Hp & Hb & _)%forgotten_fields. rewrite Hp, Hb.
  apply history_blind_ignores, ignores_generate.
Qed.

End HistoryBlind.

(** ** [solve] is [n] calls of [step] and their bookkeeping *)

Module SolveRefines.
Import Np Py Spec MetaModeSolver Ignores HistoryBlind SolveLoop Candidate.

Lemma for_range_refines self n :
  ∀ w w0 sv,
    solver_ready w self → solvers w !! self = Some sv →
    without_history self w = without_history self w0 →
    ∃ bs ws w' sv',
      step_calls self n w0 = (Ok bs, ws) ∧ length bs = n ∧
      solver.for_range n (solver.solve_iteration self) w = (Ok (), w') ∧
      without_history self w' = without_history self ws ∧
      solvers w' !! self = Some sv' ∧
      _iteration sv' = _iteration sv + n ∧
      record sv'
      = record sv
        ++ ((λ e, (e.1.1, e.1.2))
              <$> accepted_steps self (_iteration sv) n w0) ∧
      steps sv'
      = steps sv ++ (snd <$> accepted_steps self (_iteration sv) n w0) ∧
      (accepted_steps self (_iteration sv) n w0).*1.*1
      = positions_of_true (_iteration sv) bs.
Proof.
  induction n as [|n IH]; intros w w0 sv Hready Hsv Hw.
  - exists [], w0, w, sv. cbn. unfold ret. rewrite !app_nil_r, Nat.add_0_r.
    repeat split; done.
  - destruct (solver_step_ready w self sv Hready Hsv)
      as (b & w1 & sv1 & Hstep & Hsv1 & Hready1 & Hprob & Hit & Hrec
          & Hsteps & Hle).
    destruct (generate_ready w1 self sv1 Hready1 Hsv1) as [g Hg].
    pose proof (solve_iteration_unfold w self b w1 sv1 g Hstep Hsv1
                  (λ _, Hg)) as Hrun.
    set (sv2 := if b then
                  with__iteration (_iteration sv1 + 1)
                    (with_steps (steps sv1 ++ [g])
                       (with_record
                          (record sv1 ++ [(_iteration sv1, best_value sv1)])
                          sv1))
                else with__iteration (_iteration sv1 + 1) sv1) in *.
    set (w2 := with_solvers (insert self sv2) w1) in *.
    (* the same call from the state without bookkeeping *)
    destruct (history_blind_solver_step self w w0 Hw) as [Hr Hs].
    rewrite Hstep in Hr, Hs.
    destruct (solver.step self w0) as [r0 w01] eqn:Hstep0.
    cbn [fst snd] in Hr, Hs. subst r0.
    assert (forget_history sv2 = forget_history sv1) as Hf2
      by (subst sv2; by destruct b).
    assert (without_history self w2 = without_history self w01) as Hw2.
    { rewrite <- Hs. by apply (without_history_insert_same self w1 sv1). }
    assert (solvers w2 !! self = Some sv2) as Hsv2
      by apply lookup_insert_eq.
    assert (solver_ready w2 self) as Hready2.
    { apply (solver_ready_update w1 self sv1
               (λ s, if b then
                       with__iteration (_iteration s + 1)
                         (with_steps (steps s ++ [g])
                            (with_record
                               (record s ++ [(_iteration s, best_value s)]) s))
                     else with__iteration (_iteration s + 1) s));
        try done; by destruct b. }
    destruct (IH w2 w01 sv2 Hready2 Hsv2 Hw2)
      as (bs & ws & w' & sv' & Hcalls & Hlen & Hloop & Hw' & Hsv' & Hit'
          & Hrec' & Hsteps' & Hpos).
    assert (_iteration sv2 = S (_iteration sv)) as Hit2.
    { subst sv2. destruct b; cbn; lia. }
    rewrite Hit2 in Hrec', Hsteps', Hpos, Hit'.
    exists (b :: bs), ws, w', sv'.
    split. { cbn [step_calls]. unfold bind. by rewrite Hstep0, Hcalls. }
    split; [cbn; lia|].
    split. { cbn [solver.for_range]. unfold bind. by rewrite Hrun, Hloop. }
    split; [done|]. split; [done|]. split; [lia|].
    cbn [accepted_steps positions_of_true]. rewrite Hstep0.
    destruct b.
    + (* an accepted call *)
      pose proof (without_history_lookup self w1 w01 Hs) as Hl.
      rewrite Hsv1 in Hl.
      destruct (solvers w01 !! self) as [sv01|] eqn:Hsv01; [|done].
      cbn [fmap option_fmap option_map] in Hl. apply (inj Some) in Hl.
      apply forgotten_fields in Hl as (_ & _ & Hbv).
      destruct (history_blind_solver_generate self w1 w01 Hs) as [Hgen _].
      assert (solver.generate self w1 = (Ok g, w1)) as Hgen1.
      { unfold solver.generate, bind, get_solver. rewrite Hsv1.
        specialize (Hg (λ x, x)). by rewrite with_solvers_id in Hg. }
      rewrite Hgen1 in Hgen. cbn [fst] in Hgen.
      destruct (solver.generate self w01) as [r01 w01'].
      cbn [fst] in Hgen. subst r01.
      cbn [app fmap list_fmap fst snd].
      rewrite Hrec', Hsteps', Hpos. subst sv2. cbn [record steps with__iteration
        with_record with_steps]. rewrite Hrec, Hsteps, Hit, <- Hbv,
        <- !app_assoc. done.
    + cbn [app]. rewrite Hrec', Hsteps', Hpos. subst sv2.
      cbn [record steps with__iteration]. by rewrite Hrec, Hsteps.
Qed.

Lemma solve_refines self n progress w sv :
  solver_ready w self → solvers w !! self = Some sv →
  ∃ bs ws w' sv',
    step_calls self n w = (Ok bs, ws) ∧ length bs = n ∧
    solver.solve self n progress w = (Ok (), w') ∧
    without_history self w' = without_history self ws ∧
    solvers w' !! self = Some sv' ∧
    _iteration sv' = _iteration sv + n ∧
    record sv'
    = record sv
      ++ ((λ e, (e.1.1, e.1.2)) <$> accepted_steps self (_iteration sv) n w) ∧
    steps sv'
    = steps sv ++ (snd <$> accepted_steps self (_iteration sv) n w) ∧
    (accepted_steps self (_iteration sv) n w).*1.*1
    = positions_of_true (_iteration sv) bs.
Proof.
  intros Hready Hsv.
  pose proof (solver_ready_update w self sv
                (with__tqdm (Some (tqdm.trange n (negb progress))))
                Hready Hsv eq_refl eq_refl) as Hready0.
  set (w0 := with_solvers
               (insert self
                  (with__tqdm (Some (tqdm.trange n (negb progress))) sv)) w)
    in *.
  assert (without_history self w0 = without_history self w) as Hw0
    by (by apply (without_history_insert_same self w sv)).
  destruct (for_range_refines self n w0 w _ Hready0
              ltac:(apply lookup_insert_eq) Hw0)
    as (bs & ws & w1 & sv1 & Hcalls & Hlen & Hloop & Hw1 & Hsv1 & Hit
        & Hrec & Hsteps & Hpos).
  cbn [_iteration record steps with__tqdm] in Hit, Hrec, Hsteps, Hpos.
  unfold solver.solve, bind at 1, update_solver at 1. rewrite Hsv.
  fold w0. unfold bind at 1. rewrite Hloop.
  unfold bind, update_solver, with_solvers. run_store.
  eexists bs, ws, _, _. split; [done|]. split; [done|]. split; [done|].
  split.
  { rewrite <- Hw1.
    exact (without_history_insert_same self w1 sv1
             (with__tqdm None (with__tqdm (tqdm.close <$> _tqdm sv1) sv1))
             Hsv1 eq_refl). }
  cbn [solvers]. split; [apply lookup_insert_eq|].
  cbn [with__tqdm _iteration record steps]. done.
Qed.

End SolveRefines.

(** ** Properties of the search engine *)

Import Np Py Spec.

(** C1.  [MetaModeSolver.step()] builds its candidate by [copy()] and
    [step()] on the best solution and evaluates it; it returns true
    exactly when the value of the candidate is strictly greater than
    [best_value], and then the candidate and its value have replaced
    [best_solution] and [best_value]; when it returns false the solver
    is unchanged.  Consequently, after any number of calls of [step()],
    however they end, [best_value] is at least what it was. *)
Theorem solver_step_greedy :
  (∀ w self sv b w',
     solvers w !! self = Some sv →
     solver.step self w = (Ok b, w') →
     ∃ sol value w1 w2 sv',
       solution.copy (MetaModeSolver.best_solution sv) w = (Ok sol, w1) ∧
       solution.step sol w1 = (Ok sol, w2) ∧
       problem.evaluate (MetaModeSolver.problem sv) sol w2 = (Ok value, w2) ∧
       (b = true ↔ (value > MetaModeSolver.best_value sv)%Z) ∧
       solvers w' !! self = Some sv' ∧
       if b then MetaModeSolver.best_solution sv' = sol ∧
                 MetaModeSolver.best_value sv' = value
       else sv' = sv ∧ w' = w2) ∧
  (∀ n w self sv r w',
     solvers w !! self = Some sv →
     step_calls self n w = (r, w') →
     ∃ sv', solvers w' !! self = Some sv' ∧
            (MetaModeSolver.best_value sv ≤ MetaModeSolver.best_value sv')%Z).
Proof.
  split.
  - intros w self sv b w' Hsv. rewrite (SolverStep.solver_step_unfold w self sv Hsv).
    pose proof (Frame.keeps_solvers_copy (MetaModeSolver.best_solution sv) w) as Hk1.
    destruct (solution.copy (MetaModeSolver.best_solution sv) w)
      as [[sol|e] w1] eqn:Hcopy; [|done]. cbn [snd] in Hk1.
    pose proof (Frame.keeps_solvers_step sol w1) as Hk2.
    destruct (solution.step sol w1) as [[sol'|e] w2] eqn:Hstep; [|done].
    cbn [snd] in Hk2.
    pose proof (SolverStep.solution_step_returns_self _ _ _ _ Hstep) as ->.
    pose proof (Frame.read_only_evaluate (MetaModeSolver.problem sv) sol w2) as Hk3.
    destruct (problem.evaluate (MetaModeSolver.problem sv) sol w2)
      as [[value|e] w3] eqn:Heval; [|done]. cbn [snd] in Hk3. subst w3.
    case_decide as Hgt; intros [= <- <-].
    + eexists sol, value, w1, w2, _. do 3 (split; [done|]).
      split; [done|]. unfold with_solvers. cbn [solvers].
      split; [apply lookup_insert_eq|].
      by destruct (MetaModeSolver._tqdm sv).
    + exists sol, value, w1, w2, sv. do 3 (split; [done|]).
      split; [split; [done|by intros ?]|].
      split; [by rewrite Hk2, Hk1|done].
  - intros n w self sv r w'. apply SolverStep.step_calls_monotone.
Qed.

(** The first step of the sample solver is accepted, and six steps do
    not lower its value. *)
Lemma solver_step_greedy_witness :
  (∃ sol value w1 w2 sv',
     solution.copy 0 Sample.solver_new = (Ok sol, w1) ∧
     solution.step sol w1 = (Ok sol, w2) ∧
     problem.evaluate Sample.problem_sum sol w2 = (Ok value, w2) ∧
     (true = true ↔ (value > 0)%Z) ∧
     solvers (solver.step 0 Sample.solver_new).2 !! 0 = Some sv' ∧
     MetaModeSolver.best_solution sv' = sol ∧
     MetaModeSolver.best_value sv' = value) ∧
  (∃ sv', solvers (step_calls 0 6 Sample.solver_new).2 !! 0 = Some sv' ∧
          (0 ≤ MetaModeSolver.best_value sv')%Z).
Proof.
  split.
  - apply (proj1 solver_step_greedy Sample.solver_new 0
             (MetaModeSolver.Make Sample.problem_sum 0 0 0 [] [] None)
             true (solver.step 0 Sample.solver_new).2).
    + vm_compute. reflexivity.
    + vm_compute. reflexivity.
  - apply (proj2 solver_step_greedy 6 Sample.solver_new 0
             (MetaModeSolver.Make Sample.problem_sum 0 0 0 [] [] None)
             (step_calls 0 6 Sample.solver_new).1
             (step_calls 0 6 Sample.solver_new).2).
    + vm_compute. reflexivity.
    + apply surjective_pairing.
Defined.

(** Without an assumption on the tensor, the entry of the generated
    tensor at [(i, a, b)] pairs the global index of channel [b] (as the
    row) with that of channel [a] (as the column). *)
Lemma generate_entry corr m c o w sol t i a b :
  shape corr = [c * m; c * m] →
  holds_table w sol c m t → valid_table c m t →
  i < m → a < c → b < c →
  ∃ g,
    problem.generate (problem_of corr m c o) sol w = (Ok g, w) ∧
    shape g = [m; c; c] ∧
    item g [i; a; b]
    = item corr
        [Z.to_nat (item t [b; i] + Z.of_nat b * Z.of_nat m);
         Z.to_nat (item t [a; i] + Z.of_nat a * Z.of_nat m)].
Proof.
  intros Hcorr (s & l & Hs & Hm & Hc & Hl & Ht) Hv Hi Ha Hb.
  eexists. split; [by apply (ProblemFacts.generate_run corr m c o w sol s l t)|].
  split; [done|].
  rewrite NpFacts.item_tabulate by NpPipeline.solve_inb. cbn [nth].
  unfold aligned. by rewrite !(ProblemFacts.item_global_table m c t Hv).
Qed.

(** C2, as stated, fails on a tensor of [float64]: over the symmetric
    sample tensor and the identity table, [evaluate] with the [sum]
    objective returns 3.6000000000000014, while the entries of the
    tensor of [generate] add up to 9.6 and a little: the value returned
    is not their sum minus [n_modes * n_channels] (whatever the order
    in which they are added, the exact sum is another number), and it
    is not what adding them one by one in index order and subtracting
    gives in [float64] either, which is 3.5999999999999996.  The
    objective rounds after every addition, slot by slot. *)
Lemma float_sum_is_not_the_sum_of_generate :
  Float64.symmetric (2 * 3) Sample.fcorr ∧
  valid_table 2 3 Sample.ftable ∧
  ∃ v g x total,
    Float64.evaluate Sample.fcorr 3 2 objectives.SUM Sample.ftable
    = Ok (Float64.Returns v) ∧
    Float64.generate Sample.fcorr 3 2 Sample.ftable = Ok g ∧
    Float64.fshape g = [3; 2; 2] ∧
    v = Sample.f36_above ∧
    PrimFloat.sub (Float64.sum g) (Float64.of_int64 (Z.of_nat 3 * Z.of_nat 2))
    = Sample.f36_below ∧
    Float64.exact v = Some x ∧ Float64.exact_total g = Some total ∧
    x ≠ (total - Z.of_nat 3 * Z.of_nat 2 * 2 ^ 1074)%Z ∧
    PrimFloat.eqb v
      (PrimFloat.sub (Float64.sum g)
         (Float64.of_int64 (Z.of_nat 3 * Z.of_nat 2))) = false.
Proof.
  split; [|split].
  - split; [done|]. intros i j Hi Hj.
    do 6 (destruct i as [|i];
          [do 6 (destruct j as [|j]; [vm_compute; reflexivity|]); lia|]).
    lia.
  - apply (bool_decide_unpack _). vm_compute. exact I.
  - eexists _, _, _, _.
    split; [vm_compute; reflexivity|]. split; [vm_compute; reflexivity|].
    split; [reflexivity|].
    split; [vm_compute; reflexivity|]. split; [vm_compute; reflexivity|].
    split; [vm_compute; reflexivity|]. split; [vm_compute; reflexivity|].
    split.
    + vm_compute. discriminate.
    + vm_compute. reflexivity.
Qed.

(** C2, amended.  For a problem over a symmetric correlation tensor and
    a solution that holds a valid table, [generate] returns the stack
    of aligned sub-matrices of the specification: a tensor of shape
    [(n_modes, n_channels, n_channels)] whose entry at [(i, a, b)] is
    the entry of the correlation tensor at row
    [permuted_modes[a][i] + a * n_modes] and column
    [permuted_modes[b][i] + b * n_modes]; and when the entries of the
    tensor are integers small enough for every sum to be exact, with
    the [sum] objective [evaluate] returns the sum of all entries of
    that tensor minus [n_modes * n_channels]. *)
Theorem generate_materializes_sum corr m c sel p w sol t :
  problem.__init__ corr m c sel = Ok p →
  symmetric (c * m) corr →
  holds_table w sol c m t → valid_table c m t →
  problem.generate p sol w = (Ok (aligned_stack corr t m c), w) ∧
  shape (aligned_stack corr t m c) = [m; c; c] ∧
  (∀ i a b, i < m → a < c → b < c →
     item (aligned_stack corr t m c) [i; a; b]
     = item corr
         [Z.to_nat (item t [a; i] + Z.of_nat a * Z.of_nat m);
          Z.to_nat (item t [b; i] + Z.of_nat b * Z.of_nat m)]) ∧
  (sums_are_exact corr m c →
   MetaModeProblem.objective p = objectives.SUM →
   problem.evaluate p sol w
   = (Ok (sum (aligned_stack corr t m c) - Z.of_nat m * Z.of_nat c)%Z, w)).
Proof.
  intros Hp [Hcorr Hsym] (s & l & Hs & Hm & Hc & Hl & Ht) Hv.
  pose proof (ProblemFacts.init_ok corr m c sel p Hp) as Hpeq.
  set (o := MetaModeProblem.objective p) in *. rewrite Hpeq.
  pose proof (ProblemFacts.item_global_table m c t Hv) as Hitem.
  pose proof (ProblemFacts.global_table_range m c t Hv) as Hrange.
  assert (∀ i a b, i < m → a < c → b < c →
            aligned corr (global_table t m) i b a
            = item corr
                [Z.to_nat (item t [a; i] + Z.of_nat a * Z.of_nat m);
                 Z.to_nat (item t [b; i] + Z.of_nat b * Z.of_nat m)]) as Hal.
  { intros i a b Hi Ha Hb. unfold aligned.
    pose proof (Hrange a i Ha Hi). pose proof (Hrange b i Hb Hi).
    rewrite Hsym by lia. by rewrite !Hitem. }
  split; [|split; [done|split]].
  - rewrite (ProblemFacts.generate_run corr m c o w sol s l t) by done.
    do 2 f_equal. apply NpFacts.tabulate_ext.
    intros idx (i & a & b & -> & Hi & Ha & Hb)%NpIndex.in_bounds_3.
    cbn [nth]. apply Hal; lia.
  - intros i a b Hi Ha Hb. unfold aligned_stack.
    by rewrite NpFacts.item_tabulate by NpPipeline.solve_inb.
  - intros _ Ho.
    rewrite (ProblemFacts.evaluate_sum_run corr m c o w sol s l t) by done.
    do 3 f_equal. unfold aligned_stack. rewrite NpSums.sum_tabulate_cons.
    apply NpSums.sum_Z_ext. intros i Hi%elem_of_seq. unfold slot_total.
    apply NpSums.sum_tabulate_ext.
    intros idx (a & b & -> & Ha & Hb)%NpIndex.in_bounds_2.
    cbn [compose nth]. unfold aligned. by rewrite !Hitem by lia.
Qed.

Lemma example_corr_symmetric : symmetric 6 Sample.corr.
Proof.
  split; [done|]. intros i j Hi Hj.
  do 6 (destruct i as [|i];
        [do 6 (destruct j as [|j]; [vm_compute; reflexivity|]); lia|]).
  lia.
Qed.

Lemma example_permuted_holds :
  holds_table Sample.permuted 0 2 3
    Sample.shuffled.
Proof.
  exists (MetaModeSolution.Make 3 2 3 0 (Some 1)), 1.
  repeat split; vm_compute; reflexivity.
Qed.

Lemma example_permuted_valid :
  valid_table 2 3 Sample.shuffled.
Proof.
  apply (bool_decide_unpack _). vm_compute. exact I.
Qed.

Lemma example_sums_are_exact : sums_are_exact Sample.corr 3 2.
Proof.
  exists 5%Z. split; [|done]. intros j k Hj Hk.
  assert (Forall (λ j, Forall (λ k, (Z.abs (item Sample.corr [j; k]) ≤ 5)%Z)
                         (seq 0 6)) (seq 0 6)) as H.
  { apply (bool_decide_unpack _). vm_compute. exact I. }
  rewrite Forall_forall in H. specialize (H j ltac:(apply elem_of_seq; lia)).
  rewrite Forall_forall in H. apply H. apply elem_of_seq. lia.
Qed.

(** The sample problem and the shuffled sample table. *)
Lemma generate_materializes_sum_witness :
  problem.generate Sample.problem_sum 0 Sample.permuted
  = (Ok (aligned_stack Sample.corr Sample.shuffled 3 2), Sample.permuted) ∧
  shape (aligned_stack Sample.corr Sample.shuffled 3 2)
  = [3; 2; 2] ∧
  (∀ i a b, i < 3 → a < 2 → b < 2 →
     item (aligned_stack Sample.corr Sample.shuffled 3 2) [i; a; b]
     = item Sample.corr
         [Z.to_nat (item Sample.shuffled [a; i]
                    + Z.of_nat a * Z.of_nat 3);
          Z.to_nat (item Sample.shuffled [b; i]
                    + Z.of_nat b * Z.of_nat 3)]) ∧
  (sums_are_exact Sample.corr 3 2 →
   MetaModeProblem.objective Sample.problem_sum = objectives.SUM →
   problem.evaluate Sample.problem_sum 0 Sample.permuted
   = (Ok (sum (aligned_stack Sample.corr Sample.shuffled 3 2)
          - Z.of_nat 3 * Z.of_nat 2)%Z, Sample.permuted)).
Proof.
  apply (generate_materializes_sum Sample.corr 3 2 (problem.Name "SUM")).
  - vm_compute. reflexivity.
  - exact example_corr_symmetric.
  - exact example_permuted_holds.
  - exact example_permuted_valid.
Defined.

(** C3.  The table that the default constructor builds has the rows
    [0..n_modes-1], and the new solution satisfies the invariant of
    solutions: [unpermuted_modes] is a table of [n_channels] rows that
    are permutations of [0..n_modes-1], and so is [permuted_modes]
    whenever it is set.  Every call of [random_permutation()],
    [permute_one_channel(channel)] and [step()] preserves this
    invariant, however the call ends.  On a solution whose
    [unpermuted_modes] is such a table, [random_permutation()] (when
    there is at least one channel), [permute_one_channel(channel)] with
    [0 <= channel < n_channels] and [step()] (when there is at least one
    channel) return and leave in [permuted_modes] a table all of whose
    rows are permutations of [0..n_modes-1].  And if the best solution
    of a solver holds such a table, it still does after any number of
    calls of [MetaModeSolver.step()], however they end. *)
Theorem rows_stay_permutations :
  (∀ m c w,
     ∃ sol w' s u,
       solution.__init__ m c None w = (Ok sol, w') ∧
       solutions w' !! sol = Some s ∧
       MetaModeSolution.n_modes s = m ∧ MetaModeSolution.n_channels s = c ∧
       MetaModeSolution.permuted_modes s = None ∧
       arrays w' !! MetaModeSolution.unpermuted_modes s = Some u ∧
       rows u = replicate c (identity_row m) ∧
       table_invariant w' sol) ∧
  (∀ w sol,
     table_invariant w sol →
     table_invariant (solution.random_permutation sol w).2 sol ∧
     (∀ channel,
        table_invariant (solution.permute_one_channel sol channel w).2 sol) ∧
     table_invariant (solution.step sol w).2 sol) ∧
  (∀ w self s u c m,
     solutions w !! self = Some s →
     arrays w !! MetaModeSolution.unpermuted_modes s = Some u →
     MetaModeSolution.n_modes s = m → MetaModeSolution.n_channels s = c →
     valid_table c m u →
     (c ≠ 0 →
      ∃ w' t, solution.random_permutation self w = (Ok self, w') ∧
              holds_table w' self c m t ∧ valid_table c m t) ∧
     (∀ channel, (0 ≤ channel < Z.of_nat c)%Z →
      ∃ w' t, solution.permute_one_channel self channel w = (Ok self, w') ∧
              holds_table w' self c m t ∧ valid_table c m t) ∧
     (c ≠ 0 →
      ∃ w' t, solution.step self w = (Ok self, w') ∧
              holds_table w' self c m t ∧ valid_table c m t)) ∧
  (∀ n w self r w',
     best_is_valid w self → step_calls self n w = (r, w') →
     best_is_valid w' self).
Proof.
  split; [|split; [|split]].
  - intros m c w. rewrite SolutionFacts.init_default_run.
    eexists _, _, _, _. split; [done|]. cbn [arrays solutions].
    rewrite lookup_insert_eq. split; [done|].
    cbn [MetaModeSolution.n_modes MetaModeSolution.n_channels
         MetaModeSolution.permuted_modes MetaModeSolution.unpermuted_modes].
    do 3 (split; [done|]). rewrite lookup_insert_eq. split; [done|].
    split; [apply TableFacts.rows_identity|].
    eexists _, _. cbn [arrays solutions]. rewrite lookup_insert_eq.
    split; [done|].
    cbn [MetaModeSolution.n_modes MetaModeSolution.n_channels
         MetaModeSolution.permuted_modes MetaModeSolution.unpermuted_modes].
    rewrite lookup_insert_eq. split; [done|].
    split; [apply TableFacts.valid_identity|done].
  - intros w sol Hinv. split; [|split].
    + by apply TableInvariant.table_invariant_random_permutation.
    + intros channel.
      by apply TableInvariant.table_invariant_permute_one_channel.
    + by apply TableInvariant.table_invariant_step.
  - intros w self s u c m Hs Hu Hm Hc Hv.
    assert (∀ l t g,
              holds_table
                (World (<[l := t]> (arrays w))
                   (<[self := MetaModeSolution.with_permuted_modes (Some l) s]>
                      (solutions w)) (solvers w) g) self c m t) as Hholds.
    { intros l t g. eexists _, l. cbn [arrays solutions].
      rewrite !lookup_insert_eq. by destruct s; simplify_eq/=. }
    split; [|split].
    + intros Hc0.
      rewrite (SolutionFacts.random_permutation_run w self s u c m Hs Hu
                 (proj1 Hv) Hc0).
      eexists _, _. split; [done|]. split; [apply Hholds|].
      by apply SolutionFacts.permute_rows_valid.
    + intros ch Hch.
      destruct (SolutionFacts.permute_one_channel_run w self s u c m ch
                  (Z.to_nat ch) Hs Hu (proj1 Hv) Hm)
        as (p & g' & t' & _ & Hperm & Hsh' & Hrows & Hrun).
      { unfold norm_index. by rewrite decide_True. }
      rewrite Hrun. eexists _, t'. split; [done|]. split; [apply Hholds|].
      by eapply SolutionFacts.valid_insert_row.
    + intros Hc0.
      destruct (SolutionFacts.step_run w self s u c m Hs Hu (proj1 Hv) Hm Hc Hc0)
        as (k & g1 & p & g' & t' & _ & _ & _ & Hperm & Hsh' & Hrows & Hrun).
      rewrite Hrun. eexists _, t'. split; [done|]. split; [apply Hholds|].
      by eapply SolutionFacts.valid_insert_row.
  - intros n w self r w'. apply Invariant.step_calls_keep_valid.
Qed.

Lemma example_solver_new_valid : best_is_valid Sample.solver_new 0.
Proof.
  exists (MetaModeSolver.Make Sample.problem_sum 0 0 0 [] [] None), 2, 3,
    Sample.shuffled.
  split; [vm_compute; reflexivity|]. split.
  - exists (MetaModeSolution.Make 3 2 3 0 (Some 1)), 1.
    repeat split; vm_compute; reflexivity.
  - exact example_permuted_valid.
Qed.

Lemma example_constructed_invariant : table_invariant Sample.constructed 0.
Proof.
  exists (MetaModeSolution.Make 3 2 3 0 None), Sample.identity.
  split; [vm_compute; reflexivity|]. split; [vm_compute; reflexivity|].
  split; [|done]. apply (bool_decide_unpack _). vm_compute. exact I.
Qed.

(** The sample solution and the sample solver. *)
Lemma rows_stay_permutations_witness :
  (table_invariant (solution.random_permutation 0 Sample.constructed).2 0 ∧
   (∀ channel,
      table_invariant
        (solution.permute_one_channel 0 channel Sample.constructed).2 0) ∧
   table_invariant (solution.step 0 Sample.constructed).2 0) ∧
  ((2 ≠ 0 →
    ∃ w' t, solution.random_permutation 0 Sample.constructed = (Ok 0, w') ∧
            holds_table w' 0 2 3 t ∧ valid_table 2 3 t) ∧
   (∀ channel, (0 ≤ channel < Z.of_nat 2)%Z →
    ∃ w' t, solution.permute_one_channel 0 channel Sample.constructed
            = (Ok 0, w') ∧
            holds_table w' 0 2 3 t ∧ valid_table 2 3 t) ∧
   (2 ≠ 0 →
    ∃ w' t, solution.step 0 Sample.constructed = (Ok 0, w') ∧
            holds_table w' 0 2 3 t ∧ valid_table 2 3 t)) ∧
  best_is_valid (step_calls 0 6 Sample.solver_new).2 0.
Proof.
  split; [|split].
  - apply (proj1 (proj2 rows_stay_permutations) Sample.constructed 0).
    exact example_constructed_invariant.
  - apply (proj1 (proj2 (proj2 rows_stay_permutations)) Sample.constructed 0
             (MetaModeSolution.Make 3 2 3 0 None) Sample.identity 2 3).
    + vm_compute. reflexivity.
    + vm_compute. reflexivity.
    + reflexivity.
    + reflexivity.
    + apply (bool_decide_unpack _). vm_compute. exact I.
  - apply (proj2 (proj2 (proj2 rows_stay_permutations)) 6 Sample.solver_new 0
             (step_calls 0 6 Sample.solver_new).1
             (step_calls 0 6 Sample.solver_new).2).
    + exact example_solver_new_valid.
    + apply surjective_pairing.
Defined.

(** C4, as stated, fails: the copy of a solution whose
    [permuted_modes] is set does not hold a copy of that table in its
    own [permuted_modes]. *)
Lemma copy_permuted_modes_not_copied :
  ¬ ∃ c w' sc lp,
      solution.copy 0 Sample.permuted = (Ok c, w') ∧
      solutions w' !! c = Some sc ∧
      MetaModeSolution.permuted_modes sc = Some lp ∧
      arrays w' !! lp = arrays Sample.permuted !! 1.
Proof.
  intros (c & w' & sc & lp & Hcopy & Hsc & Hlp & _).
  vm_compute in Hcopy. injection Hcopy as <- <-.
  vm_compute in Hsc. injection Hsc as <-. discriminate Hlp.
Qed.

(** C4, amended.  For a solution whose [permuted_modes] is set,
    [copy()] returns a new solution object with the same [n_modes] and
    [n_channels], whose [unpermuted_modes] is a new array equal to the
    parent's current [permuted_modes] and whose [permuted_modes] is
    unset.  The copy is independent of the parent: whatever sequence of
    mutations is applied to the copy afterwards, and however they end,
    the parent object and the parent's two tables are unchanged. *)
Theorem copy_is_independent w self s l t :
  solutions w !! self = Some s →
  MetaModeSolution.permuted_modes s = Some l →
  arrays w !! l = Some t →
  ∃ c w' u,
    solution.copy self w = (Ok c, w') ∧
    solutions w !! c = None ∧ arrays w !! u = None ∧
    solutions w' !! c
    = Some (MetaModeSolution.Make (MetaModeSolution.n_modes s)
              (MetaModeSolution.n_channels s) (MetaModeSolution.n_modes s)
              u None) ∧
    arrays w' !! u = Some t ∧
    ∀ μs,
      solutions (after_mutations c μs w') !! self = Some s ∧
      arrays (after_mutations c μs w') !! l = Some t ∧
      ∀ a, arrays w !! MetaModeSolution.unpermuted_modes s = Some a →
           arrays (after_mutations c μs w')
             !! MetaModeSolution.unpermuted_modes s = Some a.
Proof.
  intros Hs Hl Ht. rewrite (ProblemFacts.copy_run w self s l t Hs Hl Ht).
  eexists _, _, _. split; [done|]. cbn [arrays solutions].
  split; [apply SolutionFacts.fresh_solution_None|].
  split; [apply SolutionFacts.fresh_array_None|].
  rewrite !lookup_insert_eq. do 2 (split; [done|]). intros μs.
  match goal with |- context [after_mutations ?c μs ?w'] =>
    assert (apart w c w') as Hap end.
  { split; [|split; [|split]]; cbn [arrays solutions].
    - apply Invariant.insert_fresh_array_subseteq.
    - apply Invariant.insert_fresh_solution_subseteq.
    - apply SolutionFacts.fresh_solution_None.
    - eexists. rewrite lookup_insert_eq. split; [done|].
      cbn [MetaModeSolution.unpermuted_modes MetaModeSolution.permuted_modes].
      split; [apply SolutionFacts.fresh_array_None|done]. }
  destruct (CopyFacts.apart_after_mutations w _ μs _ Hap) as (Harr & Hsol & _).
  repeat split.
  - by eapply lookup_weaken.
  - by eapply lookup_weaken.
  - intros a Ha. by eapply lookup_weaken.
Qed.

(** A copy of the sample solution after [random_permutation()]. *)
Lemma copy_is_independent_witness :
  ∃ c w' u,
    solution.copy 0 Sample.permuted = (Ok c, w') ∧
    solutions Sample.permuted !! c = None ∧
    arrays Sample.permuted !! u = None ∧
    solutions w' !! c = Some (MetaModeSolution.Make 3 2 3 u None) ∧
    arrays w' !! u = Some Sample.shuffled ∧
    ∀ μs,
      solutions (after_mutations c μs w') !! 0
      = Some (MetaModeSolution.Make 3 2 3 0 (Some 1)) ∧
      arrays (after_mutations c μs w') !! 1
      = Some Sample.shuffled ∧
      ∀ a, arrays Sample.permuted !! 0 = Some a →
           arrays (after_mutations c μs w') !! 0 = Some a.
Proof.
  apply (copy_is_independent Sample.permuted 0
           (MetaModeSolution.Make 3 2 3 0 (Some 1)) 1
           Sample.shuffled).
  - vm_compute. reflexivity.
  - reflexivity.
  - vm_compute. reflexivity.
Defined.

Lemma getitem_unknown key :
  key ∉ (fst <$> objectives.__members__) →
  objectives.__getitem__ key = Raise (KeyError key).
Proof.
  intros Hkey. unfold objectives.__getitem__.
  destruct (list_find _ _) as [[i [n o]]|] eqn:Hfind; [|done].
  apply list_find_Some in Hfind as (Hi & Hn & _). cbn in Hn. subst n.
  destruct Hkey. apply list_elem_of_fmap. exists (key, o).
  split; [done|]. by eapply list_elem_of_lookup_2.
Qed.

Lemma getitem_name o : objectives.__getitem__ (objectives.name o) = Ok o.
Proof. by destruct o. Qed.

(** C5, as stated, fails: the error raised for the unknown selector
    ["sum"] does not enumerate the valid selectors. *)
Lemma unknown_selector_message_not_enumerating :
  ¬ ∃ msg,
      problem.__init__ Sample.corr 3 2 (problem.Name "sum")
      = Raise (KeyError msg) ∧
      enumerates_selectors msg.
Proof.
  intros (msg & Hinit & Hmsg). vm_compute in Hinit. injection Hinit as <-.
  apply Forall_cons in Hmsg as [Hsum _]. vm_compute in Hsum. discriminate Hsum.
Qed.

(** C5, amended.  Constructing a problem or a solver with a string
    that is not the name of a member of [Objective] fails at
    construction with a [KeyError] that carries the offending string;
    the solver constructor fails before anything is allocated, drawn or
    evaluated, and leaves the state as it was.  The name of a member
    and the member itself select the same objective.  The member is
    fixed at construction; its scoring function is looked up by
    [evaluate] on each call, which fails there when the member has
    none. *)
Theorem unknown_selector_fails_at_construction :
  (∀ corr m c key,
     key ∉ (fst <$> objectives.__members__) →
     problem.__init__ corr m c (problem.Name key) = Raise (KeyError key) ∧
     ∀ w, solver.__init__ corr m c (problem.Name key) w
          = (Raise (KeyError key), w)) ∧
  (∀ corr m c o,
     ∃ p, problem.__init__ corr m c (problem.Name (objectives.name o)) = Ok p ∧
          problem.__init__ corr m c (problem.Member o) = Ok p ∧
          MetaModeProblem.objective p = o) ∧
  (∀ p sol w e,
     objectives.func (MetaModeProblem.objective p) = Raise e →
     problem.evaluate p sol w = (Raise e, w)).
Proof.
  split; [|split].
  - intros corr m c key Hkey.
    assert (problem.__init__ corr m c (problem.Name key) = Raise (KeyError key))
      as Hinit.
    { rewrite SolverInit.problem_init_name. by rewrite getitem_unknown. }
    split; [done|]. intros w. unfold solver.__init__, bind, lift.
    by rewrite Hinit.
  - intros corr m c o. eexists. rewrite SolverInit.problem_init_name.
    rewrite getitem_name. by cbn.
  - intros p sol w e He. unfold problem.evaluate, bind, lift. by rewrite He.
Qed.

(** The selector ["sum"] (a value, not a name) and the member
    [DYN_SUM]. *)
Lemma unknown_selector_fails_at_construction_witness :
  (problem.__init__ Sample.corr 3 2 (problem.Name "sum")
   = Raise (KeyError "sum") ∧
   ∀ w, solver.__init__ Sample.corr 3 2 (problem.Name "sum") w
        = (Raise (KeyError "sum"), w)) ∧
  problem.evaluate (problem_of Sample.corr 3 2 objectives.DYN_SUM) 0
    Sample.permuted
  = (Raise (KeyError
       ("Objective not recognised. Choose from "
        +:+ objectives.repr_bound__names objectives.DYN_SUM)),
     Sample.permuted).
Proof.
  split.
  - apply (proj1 unknown_selector_fails_at_construction Sample.corr 3 2 "sum").
    apply (bool_decide_unpack _). vm_compute. exact I.
  - apply (proj2 (proj2 unknown_selector_fails_at_construction)).
    reflexivity.
Defined.

(** C7, as stated, fails: evaluating a solution whose
    [permuted_modes] is unset raises [TypeError], which no check in the
    four modules raises. *)
Lemma evaluate_unset_not_validated :
  ¬ ∃ e w',
      problem.evaluate Sample.problem_sum 0 Sample.constructed
      = (Raise e, w') ∧
      raised_by_core e.
Proof.
  intros (e & w' & Heval & Hcore). vm_compute in Heval.
  injection Heval as <- _. exact Hcore.
Qed.

(** C7, amended.  For a problem with at least one channel, on a
    solution whose [permuted_modes] is unset, [evaluate] fails before
    the scoring function is called and leaves the state as it was: with
    the [KeyError] of [Objective.func] when the objective has no scoring
    function, and otherwise with the [TypeError] that the addition of
    [None] and the reindexer raises at its first element; [generate]
    fails with the same [TypeError].  Nothing in the four modules checks
    that [permuted_modes] is set. *)
Theorem evaluate_unset_fails corr m c sel p w sol s :
  problem.__init__ corr m c sel = Ok p → c ≠ 0 →
  solutions w !! sol = Some s →
  MetaModeSolution.permuted_modes s = None →
  problem.evaluate p sol w
  = (Raise match objectives.func (MetaModeProblem.objective p) with
           | Ok _ => TypeError
           | Raise e => e
           end, w) ∧
  problem.generate p sol w = (Raise TypeError, w).
Proof.
  intros Hp Hc Hs Hperm.
  assert (data (MetaModeProblem.reindexer p) ≠ []) as Hre.
  { rewrite (ProblemFacts.init_ok corr m c sel p Hp).
    cbn [MetaModeProblem.reindexer scale data arange tabulate].
    intros Hnil%(f_equal length). revert Hnil.
    rewrite !length_fmap, NpFacts.length_indices. cbn. lia. }
  split.
  - unfold problem.evaluate, bind, lift.
    destruct (objectives.func (MetaModeProblem.objective p)) as [f|e]; [|done].
    unfold problem.global_indices, bind, get_solution. rewrite Hs, Hperm.
    by rewrite decide_False.
  - unfold problem.generate, bind, problem.global_indices, bind, get_solution.
    rewrite Hs, Hperm. by rewrite decide_False.
Qed.

(** The sample solution before any permutation. *)
Lemma evaluate_unset_fails_witness :
  problem.evaluate Sample.problem_sum 0 Sample.constructed
  = (Raise TypeError, Sample.constructed) ∧
  problem.generate Sample.problem_sum 0 Sample.constructed
  = (Raise TypeError, Sample.constructed).
Proof.
  apply (evaluate_unset_fails Sample.corr 3 2 (problem.Name "SUM")
           Sample.problem_sum Sample.constructed 0
           (MetaModeSolution.Make 3 2 3 0 None)).
  - reflexivity.
  - discriminate.
  - vm_compute. reflexivity.
  - reflexivity.
Defined.

(** C8, as stated, fails: the negative channel index [-1] is accepted
    for a solution with two channels. *)
Lemma negative_channel_accepted :
  ¬ ∃ w',
      solution.permute_one_channel 0 (-1) Sample.constructed
      = (Raise IndexError, w').
Proof. intros (w' & H). vm_compute in H. discriminate H. Qed.

(** C8, amended.  On a solution with [n_channels] rows,
    [permute_one_channel(channel)] fails with [IndexError] for every
    channel outside [[-n_channels, n_channels)]; for every channel
    inside it returns, and [permuted_modes] is then a copy of
    [unpermuted_modes] in which exactly one row has been replaced by a
    permutation of [0..n_modes-1]: row [channel] for a non-negative
    channel and row [channel + n_channels] for a negative one. *)
Theorem permute_one_channel_bounds w self s u c m channel :
  solutions w !! self = Some s →
  arrays w !! MetaModeSolution.unpermuted_modes s = Some u →
  shape u = [c; m] →
  MetaModeSolution.n_modes s = m → MetaModeSolution.n_channels s = c →
  (¬ (- Z.of_nat c ≤ channel < Z.of_nat c)%Z →
   ∃ w', solution.permute_one_channel self channel w = (Raise IndexError, w')) ∧
  ((- Z.of_nat c ≤ channel < Z.of_nat c)%Z →
   ∃ w' l t' p,
     solution.permute_one_channel self channel w = (Ok self, w') ∧
     solutions w' !! self
     = Some (MetaModeSolution.with_permuted_modes (Some l) s) ∧
     arrays w' !! l = Some t' ∧
     shape t' = [c; m] ∧ is_permutation m p ∧
     rows t' = <[Z.to_nat (channel `mod` Z.of_nat c) := p]> (rows u)).
Proof.
  intros Hs Hu Hsh Hm Hc. split.
  - intros Hch. eexists.
    by apply (SolutionFacts.permute_one_channel_out_of_range w self s u c [m]).
  - intros Hch.
    destruct (SolutionFacts.permute_one_channel_run w self s u c m channel
                (Z.to_nat (channel `mod` Z.of_nat c)) Hs Hu Hsh Hm)
      as (p & g' & t' & _ & Hperm & Hsh' & Hrows & Hrun).
    { unfold norm_index. case_decide.
      - by rewrite Z.mod_small.
      - rewrite decide_True by lia. do 2 f_equal.
        rewrite <- (Z.mod_add _ 1) by lia. rewrite Z.mod_small; lia. }
    rewrite Hrun. eexists _, _, t', p. split; [done|]. cbn [arrays solutions].
    by rewrite !lookup_insert_eq.
Qed.

(** Channel 2 is refused and channel -1 is accepted on the sample
    solution with two channels. *)
Lemma permute_one_channel_bounds_witness :
  (¬ (- Z.of_nat 2 ≤ 2 < Z.of_nat 2)%Z →
   ∃ w', solution.permute_one_channel 0 2 Sample.constructed
         = (Raise IndexError, w')) ∧
  ((- Z.of_nat 2 ≤ -1 < Z.of_nat 2)%Z →
   ∃ w' l t' p,
     solution.permute_one_channel 0 (-1) Sample.constructed = (Ok 0, w') ∧
     solutions w' !! 0
     = Some (MetaModeSolution.with_permuted_modes (Some l)
               (MetaModeSolution.Make 3 2 3 0 None)) ∧
     arrays w' !! l = Some t' ∧
     shape t' = [2; 3] ∧ is_permutation 3 p ∧
     rows t' = <[Z.to_nat ((-1) `mod` Z.of_nat 2) := p]>
                 (rows Sample.identity)).
Proof.
  split.
  - refine (proj1 (permute_one_channel_bounds Sample.constructed 0
                     (MetaModeSolution.Make 3 2 3 0 None)
                     Sample.identity 2 3 2 _ _ _ _ _));
      first [reflexivity | vm_compute; reflexivity].
  - refine (proj2 (permute_one_channel_bounds Sample.constructed 0
                     (MetaModeSolution.Make 3 2 3 0 None)
                     Sample.identity 2 3 (-1) _ _ _ _ _));
      first [reflexivity | vm_compute; reflexivity].
Defined.

(** C6.  [solve(n_steps)] is [n_steps] calls of [step()] and their
    bookkeeping.  On a solver that is ready, [solve(n_steps)] returns;
    but for the bookkeeping of the solver, it leaves the state that
    [n_steps] successive calls of [step()] alone leave; the iteration
    counter has grown by [n_steps], whether or not the calls were
    accepted; and [record] and [steps] have grown by one entry for
    each accepted call, in order, and by nothing else: the pair of the
    number of the call (the counter before it) and the [best_value]
    after it, and the tensor that [generate()] returns after it.  A
    solver constructed for a tensor of side [n_channels * n_modes], at
    least one channel and an objective that has a scoring function is
    ready, with counter 0 and empty [record] and [steps]; so after
    [solve(n_steps)] on it, [record] and [steps] have the same length,
    the counter is [n_steps], and the iteration indices in [record] are
    the numbers of the accepted calls, strictly increasing and below
    [n_steps]. *)
Theorem solve_bookkeeping :
  (∀ corr m c sel p w n progress,
     problem.__init__ corr m c sel = Ok p →
     MetaModeProblem.objective p ≠ objectives.DYN_SUM →
     shape corr = [c * m; c * m] → c ≠ 0 →
     ∃ self w1 bs ws w2 sv,
       solver.__init__ corr m c sel w = (Ok self, w1) ∧
       solver_ready w1 self ∧
       step_calls self n w1 = (Ok bs, ws) ∧ length bs = n ∧
       solver.solve self n progress w1 = (Ok (), w2) ∧
       without_history self w2 = without_history self ws ∧
       solvers w2 !! self = Some sv ∧
       MetaModeSolver._iteration sv = n ∧
       MetaModeSolver.record sv
       = (λ e, (e.1.1, e.1.2)) <$> accepted_steps self 0 n w1 ∧
       MetaModeSolver.steps sv = snd <$> accepted_steps self 0 n w1 ∧
       (MetaModeSolver.record sv).*1 = positions_of_true 0 bs ∧
       length (MetaModeSolver.record sv) = length (MetaModeSolver.steps sv) ∧
       StronglySorted lt ((MetaModeSolver.record sv).*1) ∧
       Forall (λ e, e.1 < n) (MetaModeSolver.record sv)) ∧
  (∀ w self sv n progress,
     solver_ready w self → solvers w !! self = Some sv →
     ∃ bs ws w' sv',
       step_calls self n w = (Ok bs, ws) ∧ length bs = n ∧
       solver.solve self n progress w = (Ok (), w') ∧
       without_history self w' = without_history self ws ∧
       solvers w' !! self = Some sv' ∧
       MetaModeSolver._iteration sv' = MetaModeSolver._iteration sv + n ∧
       MetaModeSolver.record sv'
       = MetaModeSolver.record sv
         ++ ((λ e, (e.1.1, e.1.2))
               <$> accepted_steps self (MetaModeSolver._iteration sv) n w) ∧
       MetaModeSolver.steps sv'
       = MetaModeSolver.steps sv
         ++ (snd <$> accepted_steps self (MetaModeSolver._iteration sv) n w) ∧
       (accepted_steps self (MetaModeSolver._iteration sv) n w).*1.*1
       = positions_of_true (MetaModeSolver._iteration sv) bs).
Proof.
  split.
  - intros corr m c sel p w n progress Hp Ho Hcorr Hc.
    destruct (SolverInit.solver_init_ready corr m c sel p w Hp Hcorr Ho Hc)
      as (w1 & sv0 & Hinit & Hsv0 & Hit0 & Hrec0 & Hsteps0 & _ & Hready).
    destruct (SolveLoop.solve_ready _ n progress w1 sv0 Hready Hsv0)
      as (w2 & sv & rs & gs & Hsolve & Hsv & _ & Hit & _ & Hrec & Hsteps & Hlen
          & Hrange & Hsorted & _).
    destruct (SolveRefines.solve_refines _ n progress w1 sv0 Hready Hsv0)
      as (bs & ws & w2' & sv' & Hcalls & Hlenbs & Hsolve' & Hw2 & Hsv'
          & _ & Hrec' & Hsteps' & Hpos).
    rewrite Hsolve in Hsolve'. injection Hsolve' as <-.
    assert (sv' = sv) as -> by congruence.
    rewrite Hrec0 in Hrec, Hrec'. rewrite Hsteps0 in Hsteps, Hsteps'.
    rewrite Hit0 in Hit, Hrange, Hrec', Hsteps', Hpos.
    cbn [app Nat.add] in Hrec, Hsteps, Hit, Hrec', Hsteps'.
    exists (fresh (dom (solvers w))), w1, bs, ws, w2, sv.
    do 8 (split; [done|]). split; [done|]. split; [done|].
    split.
    { rewrite Hrec', <- Hpos, <- !list_fmap_compose. done. }
    rewrite Hrec, Hsteps. do 2 (split; [done|]).
    eapply Forall_impl; [exact Hrange|]. intros e. cbn. lia.
  - intros w self sv n progress. apply SolveRefines.solve_refines.
Qed.

Lemma example_solver_new_ready : solver_ready Sample.solver_new 0.
Proof.
  destruct (SolverInit.solver_init_ready Sample.corr 3 2 (problem.Name "SUM")
              Sample.problem_sum Sample.start)
    as (w' & sv & Hinit & _ & _ & _ & _ & _ & Hready); try done.
  unfold Sample.solver_new. rewrite Hinit. exact Hready.
Qed.

(** Construction and six steps on the sample tensor. *)
Lemma solve_bookkeeping_witness :
  (∃ self w1 bs ws w2 sv,
     solver.__init__ Sample.corr 3 2 (problem.Name "SUM") Sample.start
     = (Ok self, w1) ∧
     solver_ready w1 self ∧
     step_calls self 6 w1 = (Ok bs, ws) ∧ length bs = 6 ∧
     solver.solve self 6 true w1 = (Ok (), w2) ∧
     without_history self w2 = without_history self ws ∧
     solvers w2 !! self = Some sv ∧
     MetaModeSolver._iteration sv = 6 ∧
     MetaModeSolver.record sv
     = (λ e, (e.1.1, e.1.2)) <$> accepted_steps self 0 6 w1 ∧
     MetaModeSolver.steps sv = snd <$> accepted_steps self 0 6 w1 ∧
     (MetaModeSolver.record sv).*1 = positions_of_true 0 bs ∧
     length (MetaModeSolver.record sv) = length (MetaModeSolver.steps sv) ∧
     StronglySorted lt ((MetaModeSolver.record sv).*1) ∧
     Forall (λ e, e.1 < 6) (MetaModeSolver.record sv)) ∧
  (∃ bs ws w' sv',
     step_calls 0 6 Sample.solver_new = (Ok bs, ws) ∧ length bs = 6 ∧
     solver.solve 0 6 true Sample.solver_new = (Ok (), w') ∧
     without_history 0 w' = without_history 0 ws ∧
     solvers w' !! 0 = Some sv' ∧
     MetaModeSolver._iteration sv' = 0 + 6 ∧
     MetaModeSolver.record sv'
     = [] ++ ((λ e, (e.1.1, e.1.2)) <$> accepted_steps 0 0 6 Sample.solver_new) ∧
     MetaModeSolver.steps sv'
     = [] ++ (snd <$> accepted_steps 0 0 6 Sample.solver_new) ∧
     (accepted_steps 0 0 6 Sample.solver_new).*1.*1 = positions_of_true 0 bs).
Proof.
  split.
  - apply (proj1 solve_bookkeeping Sample.corr 3 2 (problem.Name "SUM")
             Sample.problem_sum Sample.start 6 true).
    + vm_compute. reflexivity.
    + discriminate.
    + reflexivity.
    + discriminate.
  - apply (proj2 solve_bookkeeping Sample.solver_new 0
             (MetaModeSolver.Make Sample.problem_sum 0 0 0 [] [] None) 6 true).
    + exact example_solver_new_ready.
    + vm_compute. reflexivity.
Defined.

(** On the sample tensor, [solve(6)] accepts the first and the fourth
    of its six steps and reaches the largest value that the tensor
    allows. *)
Example solve_example :
  ∃ sv g0 g3,
    solvers (solver.solve 0 6 true Sample.solver_new).2 !! 0 = Some sv ∧
    MetaModeSolver.record sv = [(0, 10%Z); (3, 30%Z)] ∧
    MetaModeSolver.steps sv = [g0; g3] ∧
    MetaModeSolver.best_value sv = 30%Z ∧
    MetaModeSolver._iteration sv = 6.
Proof. eexists _, _, _. vm_compute. repeat split; reflexivity. Qed.

Lemma item_identity_table c m a i :
  a < c → i < m → item (tile_rows (arange m) c) [a; i] = Z.of_nat i.
Proof.
  intros Ha Hi. unfold tile_rows. cbn [shape arange tabulate].
  rewrite NpFacts.item_tabulate by NpPipeline.solve_inb. cbn [tail].
  by apply TableFacts.item_arange.
Qed.

Lemma sum_tabulate_vector c f :
  sum (tabulate [c] f) = sum_Z ((λ b, f [b]) <$> seq 0 c).
Proof.
  rewrite NpSums.sum_tabulate_cons. apply NpSums.sum_Z_ext. intros b _.
  unfold sum, tabulate. cbn. lia.
Qed.

(** The entries of an identity tensor paired by the identity table sum
    to the number of channels in every slot. *)
Lemma slot_total_identity corr c m i :
  shape corr = [c * m; c * m] →
  (∀ j k, j < c * m → k < c * m →
          item corr [j; k] = if decide (j = k) then 1%Z else 0%Z) →
  i < m →
  slot_total corr (global_table (tile_rows (arange m) c) m) c i = Z.of_nat c.
Proof.
  intros Hcorr Hid Hi. unfold slot_total.
  pose proof (TableFacts.valid_identity c m) as Hv.
  assert (∀ a, a < c →
            Z.to_nat (item (global_table (tile_rows (arange m) c) m) [a; i])
            = i + a * m) as Hg.
  { intros a Ha. rewrite (ProblemFacts.item_global_table m c _ Hv) by done.
    rewrite item_identity_table by done. lia. }
  rewrite NpSums.sum_tabulate_cons.
  rewrite (NpSums.sum_Z_ext _ (λ _, 1%Z)).
  - rewrite NpSums.sum_Z_const, length_seq. lia.
  - intros a Ha%elem_of_seq. rewrite sum_tabulate_vector.
    rewrite (NpSums.sum_Z_single _ c a) by
      (try lia; intros b Hb Hne; cbn [compose nth]; unfold aligned;
       rewrite !Hg, Hid by nia; rewrite decide_False by nia; done).
    cbn [compose nth]. unfold aligned. rewrite !Hg, Hid by nia.
    by rewrite decide_True.
Qed.

(** C9.  For every number of modes and of channels, the [sum]
    objective evaluated on a solution whose [permuted_modes] is the
    identity table, over a tensor with ones on the diagonal and zeros
    elsewhere, is exactly 0. *)
Theorem sum_identity_is_zero corr m c sel p w sol :
  problem.__init__ corr m c sel = Ok p →
  MetaModeProblem.objective p = objectives.SUM →
  shape corr = [c * m; c * m] →
  (∀ j k, j < c * m → k < c * m →
          item corr [j; k] = if decide (j = k) then 1%Z else 0%Z) →
  holds_table w sol c m (tile_rows (arange m) c) →
  problem.evaluate p sol w = (Ok 0%Z, w).
Proof.
  intros Hp Ho Hcorr Hid (s & l & Hs & Hm & Hc & Hl & Ht).
  rewrite (ProblemFacts.init_ok corr m c sel p Hp).
  rewrite (ProblemFacts.evaluate_sum_run corr m c _ w sol s l
             (tile_rows (arange m) c) Hs Hl Ht (TableFacts.valid_identity c m)
             Hcorr Ho).
  do 2 f_equal.
  rewrite (NpSums.sum_Z_ext _ (λ _, Z.of_nat c)).
  - rewrite NpSums.sum_Z_const, length_seq. lia.
  - intros i Hi%elem_of_seq. apply slot_total_identity; (done || lia).
Qed.

(** Two channels, three modes, the identity tensor of side six. *)
Lemma sum_identity_is_zero_witness :
  problem.evaluate
    (MetaModeProblem.Make (Sample.eye 6) 3 2 3 objectives.SUM
       (scale (arange 2) 3))
    0 Sample.at_identity
  = (Ok 0%Z, Sample.at_identity).
Proof.
  apply (sum_identity_is_zero (Sample.eye 6) 3 2
           (problem.Member objectives.SUM)).
  - reflexivity.
  - reflexivity.
  - reflexivity.
  - intros j k Hj Hk. unfold Sample.eye.
    rewrite NpFacts.item_tabulate by NpPipeline.solve_inb. done.
  - exists (MetaModeSolution.Make 3 2 3 0 (Some 0)), 0.
    repeat split; vm_compute; reflexivity.
Defined.

(** C10.  [DYN_SUM] is a member of [Objective] for which [func] has no
    scoring function.  Constructing a problem with the selector
    ["DYN_SUM"] succeeds; every [evaluate] on that problem then raises
    the [KeyError] of [func] and leaves the state as it was; and the
    constructor of the solver fails with that selector, with this
    [KeyError] from the evaluation of the initial candidate whenever
    there is at least one channel. *)
Theorem dyn_sum_has_no_function corr m c :
  (objectives.DYN_SUM ∈ (objectives.__members__).*2 ∧
   ∃ msg, objectives.func objectives.DYN_SUM = Raise (KeyError msg)) ∧
  (∃ p,
     problem.__init__ corr m c (problem.Name "DYN_SUM") = Ok p ∧
     MetaModeProblem.objective p = objectives.DYN_SUM ∧
     ∀ sol w, ∃ msg, problem.evaluate p sol w = (Raise (KeyError msg), w)) ∧
  (∀ w, ∃ e w',
     solver.__init__ corr m c (problem.Name "DYN_SUM") w = (Raise e, w')) ∧
  (c ≠ 0 →
   ∀ w, ∃ msg,
     solver.__init__ corr m c (problem.Name "DYN_SUM") w
     = (Raise (KeyError msg), initial_world m c w)).
Proof.
  assert (∀ w, c ≠ 0 → ∃ msg,
            solver.__init__ corr m c (problem.Name "DYN_SUM") w
            = (Raise (KeyError msg), initial_world m c w)) as Hfail.
  { intros w Hc. pose proof (SolverInit.initial_candidate_run m c w Hc) as Hcand.
    unfold bind in Hcand. unfold solver.__init__, bind, lift. cbn [rbind].
    change (problem.__init__ corr m c (problem.Name "DYN_SUM"))
      with (Ok (MetaModeProblem.Make corr m c m objectives.DYN_SUM
                  (scale (arange c) (Z.of_nat m)))).
    cbv beta iota.
    destruct (solution.__init__ m c None w) as [[sol|e] w1]; [|done].
    destruct (solution.random_permutation sol w1) as [[best|e] w2]; [|done].
    injection Hcand as -> ->. by eexists. }
  split; [|split; [|split]].
  - split; [|by eexists]. apply (bool_decide_unpack _). by vm_compute.
  - eexists. split; [reflexivity|]. split; [done|]. intros sol w. by eexists.
  - intros w. destruct (decide (c = 0)) as [->|Hc].
    + destruct (SolverInit.initial_candidate_no_channels m w) as [w' Hcand].
      unfold bind in Hcand. unfold solver.__init__, bind, lift.
      change (problem.__init__ corr m 0 (problem.Name "DYN_SUM"))
        with (Ok (MetaModeProblem.Make corr m 0 m objectives.DYN_SUM
                    (scale (arange 0) (Z.of_nat m)))).
      cbv beta iota.
      destruct (solution.__init__ m 0 None w) as [[sol|e] w1]; [|by eexists _, _].
      destruct (solution.random_permutation sol w1) as [[best|e] w2];
        [done|by eexists _, _].
    + destruct (Hfail w Hc) as [msg Hmsg]. by eexists _, _.
  - intros Hc w. by apply Hfail.
Qed.

(** A solver for [DYN_SUM] on the sample tensor. *)
Lemma dyn_sum_has_no_function_witness :
  ∃ msg,
    solver.__init__ Sample.corr 3 2 (problem.Name "DYN_SUM") Sample.start
    = (Raise (KeyError msg), initial_world 3 2 Sample.start).
Proof.
  apply (proj2 (proj2 (proj2 (dyn_sum_has_no_function Sample.corr 3 2)))).
  discriminate.
Defined.

(** ** Scores and stacks as functions of the table *)

Module ScoreFacts.
Import Np Py Spec.

Lemma holds_current_table w sol c m t :
  holds_table w sol c m t → current_table w sol t.
Proof. intros (s & l & ? & ? & ? & ? & ?). by exists s, l. Qed.

Lemma current_table_weaken w w' sol t :
  current_table w sol t →
  arrays w ⊆ arrays w' → solutions w ⊆ solutions w' →
  current_table w' sol t.
Proof.
  intros (s & l & Hs & Hl & Ht) Ha Hso. exists s, l.
  split; [by eapply lookup_weaken|]. split; [done|by eapply lookup_weaken].
Qed.

Lemma current_table_with_solvers f w sol t :
  current_table (with_solvers f w) sol t ↔ current_table w sol t.
Proof. done. Qed.

Lemma current_table_unique w sol t t' :
  current_table w sol t → current_table w sol t' → t = t'.
Proof.
  intros (s & l & Hs & Hl & Ht) (s' & l' & Hs' & Hl' & Ht'). congruence.
Qed.

Lemma global_indices_of_table p w sol t refused :
  current_table w sol t →
  problem.global_indices p sol refused w
  = (add t (as_column (MetaModeProblem.reindexer p)), w).
Proof.
  intros (s & l & Hs & Hl & Ht).
  unfold problem.global_indices, bind, get_solution, get_array, lift.
  by rewrite Hs, Hl, Ht.
Qed.

Lemma evaluate_of_table p w sol t :
  current_table w sol t → problem.evaluate p sol w = (score p t, w).
Proof.
  intros Ht. unfold problem.evaluate, bind, lift, score.
  destruct (objectives.func _) as [f|e]; [|done].
  rewrite (global_indices_of_table p w sol t _ Ht). cbn [rbind].
  by destruct (add t _).
Qed.

Lemma generate_of_table p w sol t :
  current_table w sol t → problem.generate p sol w = (stack p t, w).
Proof.
  intros Ht. unfold problem.generate, bind, lift, stack.
  rewrite (global_indices_of_table p w sol t _ Ht).
  by destruct (add t _).
Qed.

Lemma global_indices_ok_inv p w sol refused g w' :
  problem.global_indices p sol refused w = (Ok g, w') →
  ∃ t, current_table w sol t.
Proof.
  unfold problem.global_indices, bind, get_solution, get_array, lift, raise.
  destruct (solutions w !! sol) as [s|] eqn:Hs; [|done].
  destruct (MetaModeSolution.permuted_modes s) as [l|] eqn:Hl.
  2:{ by case_decide. }
  destruct (arrays w !! l) as [t|] eqn:Ht; [|done].
  intros _. exists t, s, l. done.
Qed.

Lemma evaluate_ok_inv p w sol v w' :
  problem.evaluate p sol w = (Ok v, w') →
  ∃ t, current_table w sol t ∧ score p t = Ok v ∧ w' = w.
Proof.
  intros Hev.
  assert (∃ t, current_table w sol t) as [t Ht].
  { revert Hev. unfold problem.evaluate, bind, lift.
    destruct (objectives.func _) as [f|e]; [|done].
    destruct (problem.global_indices p sol _ w) as [[g|e] w1] eqn:Hg; [|done].
    intros _. by eapply global_indices_ok_inv. }
  exists t. rewrite (evaluate_of_table p w sol t Ht) in Hev.
  by injection Hev as -> ->.
Qed.

Lemma generate_ok_inv p w sol g w' :
  problem.generate p sol w = (Ok g, w') →
  ∃ t, current_table w sol t ∧ stack p t = Ok g ∧ w' = w.
Proof.
  intros Hev.
  assert (∃ t, current_table w sol t) as [t Ht].
  { revert Hev. unfold problem.generate, bind, lift.
    destruct (problem.global_indices p sol _ w) as [[g'|e] w1] eqn:Hg; [|done].
    intros _. by eapply global_indices_ok_inv. }
  exists t. rewrite (generate_of_table p w sol t Ht) in Hev.
  by injection Hev as -> ->.
Qed.

End ScoreFacts.

(** ** What the solver leaves alone *)

Module Objects.
Import Np Py Spec Frame MetaModeSolver.

Lemma keeps_objects_read_only {A} (m : M A) : read_only m → keeps_objects m.
Proof. intros H w. by rewrite H. Qed.

Lemma keeps_objects_bind {A B} (m : M A) (k : A → M B) :
  keeps_objects m → (∀ a, keeps_objects (k a)) → keeps_objects (bind m k).
Proof.
  intros Hm Hk w. unfold bind. specialize (Hm w).
  destruct (m w) as [[a|e] w1]; [|done]. cbn [snd] in Hm.
  destruct (Hk a w1) as [? ?]. destruct Hm. split; by etrans.
Qed.

Lemma keeps_objects_update_solver l f : keeps_objects (update_solver l f).
Proof. intros w. unfold update_solver. by destruct (solvers w !! l). Qed.

Lemma keeps_objects_new_solver s : keeps_objects (new_solver s).
Proof. done. Qed.

Lemma keeps_objects_new_array a : keeps_objects (new_array a).
Proof.
  intros w. split; [|done]. cbn. apply Invariant.insert_fresh_array_subseteq.
Qed.

Lemma keeps_objects_new_solution s : keeps_objects (new_solution s).
Proof.
  intros w. split; [done|]. cbn. apply Invariant.insert_fresh_solution_subseteq.
Qed.

Lemma keeps_objects_draw {A} (f : Rng.state → A * Rng.state) :
  keeps_objects (draw f).
Proof. intros w. unfold draw. by destruct (f (rng w)). Qed.

Lemma keeps_objects_init m c perm : keeps_objects (solution.__init__ m c perm).
Proof.
  unfold solution.__init__. apply keeps_objects_bind.
  - destruct perm; [by apply keeps_objects_read_only, read_only_ret|].
    apply keeps_objects_new_array.
  - intros. apply keeps_objects_new_solution.
Qed.

Lemma keeps_objects_copy self : keeps_objects (solution.copy self).
Proof.
  unfold solution.copy. apply keeps_objects_bind.
  { apply keeps_objects_read_only, read_only_get_solution. }
  intros s. destruct (MetaModeSolution.permuted_modes s).
  - apply keeps_objects_bind.
    { apply keeps_objects_read_only, read_only_get_array. }
    intros a. apply keeps_objects_bind; [apply keeps_objects_new_array|].
    intros. apply keeps_objects_init.
  - apply keeps_objects_read_only, read_only_raise.
Qed.

(** A failed [copy()] has done nothing; a successful one has made an
    object that is apart from everything that existed. *)
Lemma copy_outcome self w :
  match solution.copy self w with
  | (Ok sol, w1) => apart w sol w1
  | (Raise _, w1) => w1 = w
  end.
Proof.
  unfold solution.copy, bind, get_solution, get_array, raise.
  destruct (solutions w !! self) as [s|] eqn:Hs; [|done].
  destruct (MetaModeSolution.permuted_modes s) as [l|] eqn:Hl; [|done].
  destruct (arrays w !! l) as [t|] eqn:Ht; [|done].
  pose proof (ProblemFacts.copy_run w self s l t Hs Hl Ht) as Hrun.
  unfold solution.copy, bind, get_solution, get_array, raise in Hrun.
  rewrite Hs, Hl, Ht in Hrun. rewrite Hrun.
  split; [apply Invariant.insert_fresh_array_subseteq|].
  split; [apply Invariant.insert_fresh_solution_subseteq|].
  split; [apply SolutionFacts.fresh_solution_None|].
  eexists. cbn [solutions]. split; [apply lookup_insert_eq|].
  cbn. split; [apply SolutionFacts.fresh_array_None|done].
Qed.

(** [MetaModeSolver.step()] changes no array and no solution object
    that existed before the call. *)
Lemma keeps_objects_solver_step self : keeps_objects (solver.step self).
Proof.
  intros w. destruct (solvers w !! self) as [sv|] eqn:Hsv.
  2:{ unfold solver.step, bind, get_solver. by rewrite Hsv. }
  rewrite (SolverStep.solver_step_unfold w self sv Hsv).
  pose proof (copy_outcome (best_solution sv) w) as Hc.
  destruct (solution.copy (best_solution sv) w) as [[sol|e] w1];
    [|by subst w1].
  pose proof (CopyFacts.apart_step w sol w1 Hc) as (Ha & Hs & _).
  destruct (solution.step sol w1) as [[sol'|e] w2]; [|done].
  cbn [snd] in Ha, Hs.
  pose proof (read_only_evaluate (problem sv) sol w2) as He.
  destruct (problem.evaluate (problem sv) sol w2) as [[v|e] w3];
    cbn [snd] in He; subst w3; [|done].
  by case_decide.
Qed.

Lemma keeps_objects_solve_iteration self :
  keeps_objects (solver.solve_iteration self).
Proof.
  unfold solver.solve_iteration.
  apply keeps_objects_bind; [apply keeps_objects_solver_step|].
  intros b. apply keeps_objects_bind; [|intros; apply keeps_objects_update_solver].
  destruct b; [|by apply keeps_objects_read_only, read_only_ret].
  apply keeps_objects_bind;
    [apply keeps_objects_read_only, read_only_get_solver|intros sv].
  apply keeps_objects_bind; [apply keeps_objects_update_solver|intros _].
  apply keeps_objects_bind;
    [apply keeps_objects_read_only, read_only_get_solver|intros sv'].
  apply keeps_objects_bind;
    [apply keeps_objects_read_only, read_only_generate|intros g].
  apply keeps_objects_update_solver.
Qed.

Lemma keeps_objects_for_range n body :
  keeps_objects body → keeps_objects (solver.for_range n body).
Proof.
  intros Hb. induction n as [|n IH]; cbn [solver.for_range].
  - by apply keeps_objects_read_only, read_only_ret.
  - by apply keeps_objects_bind.
Qed.

Lemma keeps_objects_solve self n progress :
  keeps_objects (solver.solve self n progress).
Proof.
  unfold solver.solve.
  apply keeps_objects_bind; [apply keeps_objects_update_solver|intros _].
  apply keeps_objects_bind;
    [apply keeps_objects_for_range, keeps_objects_solve_iteration|intros _].
  apply keeps_objects_bind; [apply keeps_objects_update_solver|intros _].
  apply keeps_objects_update_solver.
Qed.

Lemma keeps_objects_step_calls self n : keeps_objects (step_calls self n).
Proof.
  induction n as [|n IH]; cbn [step_calls].
  - by apply keeps_objects_read_only, read_only_ret.
  - apply keeps_objects_bind; [apply keeps_objects_solver_step|intros b].
    apply keeps_objects_bind; [done|intros bs].
    by apply keeps_objects_read_only, read_only_ret.
Qed.

Lemma keeps_objects_solver_init corr m c sel :
  keeps_objects (solver.__init__ corr m c sel).
Proof.
  unfold solver.__init__.
  apply keeps_objects_bind;
    [apply keeps_objects_read_only, read_only_lift|intros p].
  intros w. unfold bind.
  rewrite SolutionFacts.init_default_run.
  set (w1 := World _ _ _ _).
  assert (apart w (fresh (dom (solutions w))) w1) as Hap.
  { split; [apply Invariant.insert_fresh_array_subseteq|].
    split; [apply Invariant.insert_fresh_solution_subseteq|].
    split; [apply SolutionFacts.fresh_solution_None|].
    eexists. cbn [solutions w1]. split; [apply lookup_insert_eq|].
    cbn. split; [apply SolutionFacts.fresh_array_None|done]. }
  apply CopyFacts.apart_random_permutation in Hap as (Ha & Hs & _).
  destruct (solution.random_permutation _ w1) as [[best|e] w2];
    cbn [snd] in Ha, Hs; [|done].
  pose proof (read_only_evaluate p best w2) as He.
  destruct (problem.evaluate p best w2) as [[v|e] w3];
    cbn [snd] in He; subst w3; done.
Qed.

End Objects.

(** ** The best value is the score of the best solution *)

Module BestFacts.
Import Np Py Spec Frame MetaModeSolver ScoreFacts Objects.

Lemma same_best_refl self w : same_best self w w.
Proof. split; [done|]. split; [done|]. intros sv Hsv. by exists sv. Qed.

Lemma same_best_trans self w1 w2 w3 :
  same_best self w1 w2 → same_best self w2 w3 → same_best self w1 w3.
Proof.
  intros (Ha & Hs & H1) (Ha' & Hs' & H2).
  split; [congruence|]. split; [congruence|].
  intros sv Hsv. destruct (H1 sv Hsv) as (sv2 & Hsv2 & ? & ? & ?).
  destruct (H2 sv2 Hsv2) as (sv3 & Hsv3 & ? & ? & ?).
  exists sv3. repeat split; congruence.
Qed.

Lemma same_best_read_only {A} self (m : M A) w :
  read_only m → same_best self w (m w).2.
Proof. intros H. rewrite H. apply same_best_refl. Qed.

Lemma same_best_bind {A B} self (m : M A) (k : A → M B) :
  (∀ w, same_best self w (m w).2) →
  (∀ a w, same_best self w (k a w).2) →
  ∀ w, same_best self w (bind m k w).2.
Proof.
  intros Hm Hk w. unfold bind. specialize (Hm w).
  destruct (m w) as [[a|e] w1]; [|done]. cbn [snd] in Hm.
  eapply same_best_trans; [done|apply Hk].
Qed.

Lemma same_best_update_solver self f :
  (∀ s, problem (f s) = problem s ∧ best_solution (f s) = best_solution s ∧
        best_value (f s) = best_value s) →
  ∀ w, same_best self w (update_solver self f w).2.
Proof.
  intros Hf w. unfold update_solver.
  destruct (solvers w !! self) as [sv|] eqn:Hsv; [|apply same_best_refl].
  split; [done|]. split; [done|]. intros sv' Hsv'.
  assert (sv' = sv) as -> by congruence.
  exists (f sv). cbn. rewrite lookup_insert_eq. split; [done|apply Hf].
Qed.

(** After the call of [step()], a pass through the loop of [solve]
    only does bookkeeping. *)
Lemma solve_iteration_tail self w :
  same_best self (solver.step self w).2 (solver.solve_iteration self w).2.
Proof.
  unfold solver.solve_iteration, bind at 1.
  destruct (solver.step self w) as [[b|e] w1]; [|apply same_best_refl].
  cbn [snd]. revert w1. apply same_best_bind.
  - destruct b; [|intros; apply same_best_refl].
    apply same_best_bind;
      [intros; apply same_best_read_only, read_only_get_solver|intros sv].
    apply same_best_bind; [by apply same_best_update_solver|intros _].
    apply same_best_bind;
      [intros; apply same_best_read_only, read_only_get_solver|intros sv'].
    apply same_best_bind;
      [intros; apply same_best_read_only, read_only_generate|intros g].
    by apply same_best_update_solver.
  - intros _. by apply same_best_update_solver.
Qed.

Lemma value_is_score_same_best self w w' :
  value_is_score w self → same_best self w w' → value_is_score w' self.
Proof.
  intros (sv & t & Hsv & (s & l & Hs & Hl & Ht) & Hscore) (Ha & Hso & Hb).
  destruct (Hb sv Hsv) as (sv' & Hsv' & Hp & Hbs & Hbv).
  exists sv', t. split; [done|]. rewrite Hp, Hbs, Hbv. split; [|done].
  exists s, l. by rewrite Ha, Hso.
Qed.

Lemma best_is_valid_same_best self w w' :
  best_is_valid w self → same_best self w w' → best_is_valid w' self.
Proof.
  intros (sv & c & m & t & Hsv & (s & l & Hs & ? & ? & Hl & Ht) & Hv)
    (Ha & Hso & Hb).
  destruct (Hb sv Hsv) as (sv' & Hsv' & Hp & Hbs & Hbv).
  exists sv', c, m, t. split; [done|]. rewrite Hbs. split; [|done].
  exists s, l. by rewrite Ha, Hso.
Qed.

(** [MetaModeSolver.step()] keeps [best_value] equal to the score of
    [best_solution], however it ends. *)
Lemma value_is_score_step self w :
  value_is_score w self → value_is_score (solver.step self w).2 self.
Proof.
  intros (sv & t & Hsv & Hcur & Hscore).
  pose proof (keeps_objects_solver_step self w) as [Ha Hs].
  rewrite (SolverStep.solver_step_unfold w self sv Hsv) in *.
  pose proof (keeps_solvers_copy (best_solution sv) w) as Hk1.
  destruct (solution.copy (best_solution sv) w) as [[sol|e] w1].
  2:{ cbn [snd] in *. exists sv, t. rewrite Hk1. split; [done|].
      split; [by eapply current_table_weaken|done]. }
  pose proof (keeps_solvers_step sol w1) as Hk2.
  destruct (solution.step sol w1) as [[sol'|e] w2].
  2:{ cbn [snd] in *. exists sv, t. rewrite Hk2, Hk1. split; [done|].
      split; [by eapply current_table_weaken|done]. }
  cbn [snd] in Hk1, Hk2.
  destruct (problem.evaluate (problem sv) sol w2) as [[v|e] w3] eqn:Hev.
  2:{ pose proof (read_only_evaluate (problem sv) sol w2) as He.
      rewrite Hev in He. cbn [snd] in *. subst w3.
      exists sv, t. rewrite Hk2, Hk1. split; [done|].
      split; [by eapply current_table_weaken|done]. }
  apply evaluate_ok_inv in Hev as (t' & Hcur' & Hscore' & ->).
  case_decide as Hgt; cbn [snd] in *.
  - eexists _, t'. unfold with_solvers. cbn [solvers arrays solutions].
    split; [apply lookup_insert_eq|].
    destruct (_tqdm sv); cbn; split; done.
  - exists sv, t. rewrite Hk2, Hk1. split; [done|].
    split; [by eapply current_table_weaken|done].
Qed.

Lemma value_is_score_solve_iteration self w :
  value_is_score w self →
  value_is_score (solver.solve_iteration self w).2 self.
Proof.
  intros H. eapply value_is_score_same_best; [|apply solve_iteration_tail].
  by apply value_is_score_step.
Qed.

Lemma value_is_score_for_range self n w :
  value_is_score w self →
  value_is_score (solver.for_range n (solver.solve_iteration self) w).2 self.
Proof.
  revert w. induction n as [|n IH]; intros w H; [done|].
  cbn [solver.for_range]. unfold bind.
  pose proof (value_is_score_solve_iteration self w H) as H1.
  destruct (solver.solve_iteration self w) as [[[]|e] w1]; [|done].
  by apply IH.
Qed.

Lemma value_is_score_solve self n progress w :
  value_is_score w self →
  value_is_score (solver.solve self n progress w).2 self.
Proof.
  intros H. unfold solver.solve, bind at 1.
  pose proof (same_best_update_solver self
    (with__tqdm (Some (tqdm.trange n (negb progress))))
    (λ _, conj eq_refl (conj eq_refl eq_refl)) w) as H1.
  destruct (update_solver self _ w) as [[[]|e] w1]; cbn [snd] in H1;
    [|by eapply value_is_score_same_best].
  pose proof (value_is_score_same_best _ _ _ H H1) as H2.
  unfold bind at 1.
  pose proof (value_is_score_for_range self n w1 H2) as H3.
  destruct (solver.for_range n _ w1) as [[[]|e] w2]; cbn [snd] in H3;
    [|done].
  eapply value_is_score_same_best; [exact H3|].
  revert w2 H3. intros w2 _. revert w2.
  apply same_best_bind; [by apply same_best_update_solver|intros _].
  by apply same_best_update_solver.
Qed.

Lemma value_is_score_step_calls self n w :
  value_is_score w self → value_is_score (step_calls self n w).2 self.
Proof.
  revert w. induction n as [|n IH]; intros w H; [done|].
  cbn [step_calls]. unfold bind at 1.
  pose proof (value_is_score_step self w H) as H1.
  destruct (solver.step self w) as [[b|e] w1]; [|done]. cbn [snd] in H1.
  unfold bind. specialize (IH w1 H1).
  by destruct (step_calls self n w1) as [[bs|e] w2].
Qed.

(** A solver that has been constructed starts with the score of its
    first candidate. *)
Lemma value_is_score_init corr m c sel w self w' :
  solver.__init__ corr m c sel w = (Ok self, w') → value_is_score w' self.
Proof.
  unfold solver.__init__, bind, lift.
  destruct (problem.__init__ corr m c sel) as [p|e]; [|done].
  destruct (solution.__init__ m c None w) as [[sol|e] w1]; [|done].
  destruct (solution.random_permutation sol w1) as [[best|e] w2]; [|done].
  destruct (problem.evaluate p best w2) as [[v|e] w3] eqn:Hev; [|done].
  apply evaluate_ok_inv in Hev as (t & Hcur & Hscore & ->).
  unfold new_solver. intros [= <- <-].
  eexists _, t. unfold with_solvers. cbn [solvers].
  split; [apply lookup_insert_eq|]. done.
Qed.

(** An accepted step raises the best value strictly; a rejected one
    leaves the solver as it is. *)
Lemma solver_step_strict w self sv b w1 sv1 :
  solvers w !! self = Some sv →
  solver.step self w = (Ok b, w1) → solvers w1 !! self = Some sv1 →
  if b then (best_value sv < best_value sv1)%Z else sv1 = sv.
Proof.
  intros Hsv. rewrite (SolverStep.solver_step_unfold w self sv Hsv).
  pose proof (keeps_solvers_copy (best_solution sv) w) as Hk1.
  destruct (solution.copy (best_solution sv) w) as [[sol|e] w1']; [|done].
  pose proof (keeps_solvers_step sol w1') as Hk2.
  destruct (solution.step sol w1') as [[sol'|e] w2]; [|done].
  cbn [snd] in Hk1, Hk2.
  pose proof (read_only_evaluate (problem sv) sol w2) as He.
  destruct (problem.evaluate (problem sv) sol w2) as [[v|e] w3]; [|done].
  cbn [snd] in He. subst w3.
  case_decide as Hgt; intros [= <- <-].
  - unfold with_solvers. cbn [solvers]. rewrite lookup_insert_eq.
    intros [= <-]. destruct (_tqdm sv); cbn; lia.
  - rewrite Hk2, Hk1, Hsv. by intros [= <-].
Qed.

End BestFacts.

(** ** The history that [solve] writes *)

Module History.
Import Np Py Spec Frame MetaModeSolver ScoreFacts Objects BestFacts SolveLoop.

Lemma last_cons_snoc {A} (x : A) (l : list A) :
  l ≠ [] → last (x :: l) = last l.
Proof. by destruct l. Qed.

Lemma for_range_history self n :
  ∀ w sv,
    solver_ready w self → solvers w !! self = Some sv →
    ∃ w' sv' rs gs,
      solver.for_range n (solver.solve_iteration self) w = (Ok (), w') ∧
      solvers w' !! self = Some sv' ∧ solver_ready w' self ∧
      problem sv' = problem sv ∧
      record sv' = record sv ++ rs ∧ steps sv' = steps sv ++ gs ∧
      (best_value sv ≤ best_value sv')%Z ∧
      StronglySorted Z.lt (rs.*2) ∧
      Forall (λ v, best_value sv < v ≤ best_value sv')%Z (rs.*2) ∧
      ((rs = [] ∧ gs = [] ∧ best_value sv' = best_value sv ∧
        best_solution sv' = best_solution sv) ∨
       (∃ k g,
          last rs = Some (k, best_value sv') ∧ last gs = Some g ∧
          problem.generate (problem sv') (best_solution sv') w' = (Ok g, w'))).
Proof.
  induction n as [|n IH]; intros w sv Hready Hsv; cbn [solver.for_range].
  - exists w, sv, [], []. unfold ret. rewrite !app_nil_r.
    do 6 (split; [done|]). split; [lia|].
    split; [constructor|]. split; [constructor|]. by left.
  - destruct (solve_iteration_ready w self sv Hready Hsv)
      as (b & w1 & sv1 & w2 & sv2 & Hstep & Hsv1 & Hiter & Hsv2 & Hready2
          & Hit & Hprob & Hbv2 & Hbs2 & _ & Hle & Hb).
    pose proof (solver_step_strict w self sv b w1 sv1 Hsv Hstep Hsv1) as Hstrict.
    pose proof (solve_iteration_tail self w) as (Harr & Hsol & _).
    rewrite Hstep, Hiter in Harr, Hsol. cbn [snd] in Harr, Hsol.
    pose proof (keeps_objects_for_range n _
                  (keeps_objects_solve_iteration self) w2) as [Ha Hs].
    destruct (IH w2 sv2 Hready2 Hsv2)
      as (w' & sv' & rs & gs & Hloop & Hsv' & Hready' & Hprob' & Hrec'
          & Hsteps' & Hle' & Hsorted & Hrange & Hlast).
    rewrite Hloop in Ha, Hs. cbn [snd] in Ha, Hs.
    unfold bind. rewrite Hiter, Hloop.
    destruct b.
    + destruct Hb as (g & Hgen & Hrec2 & Hsteps2).
      exists w', sv', ((_iteration sv, best_value sv1) :: rs), (g :: gs).
      rewrite Hrec', Hsteps', Hrec2, Hsteps2, <- !app_assoc.
      split; [done|]. split; [done|]. split; [done|].
      split; [congruence|]. split; [done|]. split; [done|].
      split; [lia|]. split.
      { cbn. constructor; [done|].
        eapply Forall_impl; [exact Hrange|]. intros v. cbn. lia. }
      split.
      { cbn. constructor; [lia|].
        eapply Forall_impl; [exact Hrange|]. intros v. cbn. lia. }
      right. destruct Hlast as [(-> & -> & Hv & Hbs)|(k & g' & Hl1 & Hl2 & Hg)].
      * exists (_iteration sv), g. cbn [last].
        split; [by rewrite Hv, Hbv2|]. split; [done|].
        apply generate_ok_inv in Hgen as (t & Hcur & Hstack & _).
        rewrite Hprob', Hprob, Hbs, Hbs2.
        assert (problem sv1 = problem sv) as Hp1.
        { destruct (SolverStep.solver_step_monotone w self sv _ _ Hsv Hstep)
            as (sv1' & Hsv1' & _ & Hp). congruence. }
        rewrite <- Hp1, <- Hstack. apply generate_of_table.
        eapply current_table_weaken; [exact Hcur| |].
        -- by rewrite <- Harr.
        -- by rewrite <- Hsol.
      * exists k, g'. split; [|split; [|done]].
        -- rewrite last_cons_snoc; [done|]. by intros ->.
        -- rewrite last_cons_snoc; [done|]. by intros ->.
    + destruct Hb as [Hrec2 Hsteps2]. subst sv1.
      exists w', sv', rs, gs. rewrite Hrec', Hsteps', Hrec2, Hsteps2.
      split; [done|]. split; [done|]. split; [done|].
      split; [congruence|]. split; [done|]. split; [done|].
      split; [lia|]. split; [done|]. split.
      { eapply Forall_impl; [exact Hrange|]. intros v. cbn. lia. }
      destruct Hlast as [(-> & -> & Hv & Hbs)|Hlast]; [left|by right].
      repeat split; congruence.
Qed.

Lemma solve_history self n progress w sv :
  solver_ready w self → solvers w !! self = Some sv →
  ∃ w' sv' rs gs,
    solver.solve self n progress w = (Ok (), w') ∧
    solvers w' !! self = Some sv' ∧
    record sv' = record sv ++ rs ∧ steps sv' = steps sv ++ gs ∧
    (best_value sv ≤ best_value sv')%Z ∧
    StronglySorted Z.lt (rs.*2) ∧
    Forall (λ v, best_value sv < v ≤ best_value sv')%Z (rs.*2) ∧
    ((rs = [] ∧ gs = [] ∧ best_value sv' = best_value sv ∧
      best_solution sv' = best_solution sv) ∨
     (∃ k g,
        last rs = Some (k, best_value sv') ∧ last gs = Some g ∧
        problem.generate (problem sv') (best_solution sv') w' = (Ok g, w'))).
Proof.
  intros Hready Hsv.
  pose proof (Candidate.solver_ready_update w self sv
                (with__tqdm (Some (tqdm.trange n (negb progress))))
                Hready Hsv eq_refl eq_refl) as Hready0.
  destruct (for_range_history self n _ _ Hready0
              ltac:(unfold with_solvers; cbn [solvers]; apply lookup_insert_eq))
    as (w1 & sv1 & rs & gs & Hloop & Hsv1 & Hready1 & Hprob & Hrec
        & Hsteps & Hle & Hsorted & Hrange & Hlast).
  unfold solver.solve, bind at 1, update_solver at 1. rewrite Hsv.
  unfold bind at 1. rewrite Hloop.
  unfold bind, update_solver, with_solvers. run_store.
  eexists _, _, rs, gs. split; [done|]. cbn [solvers].
  split; [apply lookup_insert_eq|].
  cbn [with__tqdm _iteration problem record steps _tqdm best_value
       best_solution] in *.
  do 5 (split; [done|]).
  destruct Hlast as [?|(k & g & Hl1 & Hl2 & Hg)]; [by left|right].
  exists k, g. split; [done|]. split; [done|].
  apply generate_ok_inv in Hg as (t & Hcur & Hstack & _).
  rewrite <- Hstack. by apply generate_of_table.
Qed.

End History.

(** ** Indices inside the range of an axis *)

Module StepShape.
Import Np Py Spec Frame MetaModeSolver ScoreFacts Objects BestFacts.

Lemma norm_index_in_range c ch :
  (- Z.of_nat c ≤ ch < Z.of_nat c)%Z →
  norm_index c ch = Ok (Z.to_nat (ch `mod` Z.of_nat c)).
Proof.
  intros Hch. unfold norm_index. case_decide.
  - by rewrite Z.mod_small.
  - rewrite decide_True by lia. do 2 f_equal.
    rewrite <- (Z.mod_add _ 1) by lia. rewrite Z.mod_small; lia.
Qed.

End StepShape.

(** ** The scores in closed form, and what they satisfy *)

Module ScoreBounds.
Import Np Py Spec ScoreFacts objectives.

Lemma sum_Z_bounds {A} (f : A → Z) l lo hi :
  (∀ x, x ∈ l → (lo ≤ f x ≤ hi)%Z) →
  (Z.of_nat (length l) * lo ≤ sum_Z (f <$> l) ≤ Z.of_nat (length l) * hi)%Z.
Proof.
  induction l as [|x l IH]; intros H; [cbn; lia|].
  cbn [fmap list_fmap sum_Z foldr length]. fold (sum_Z (f <$> l)).
  pose proof (H x ltac:(left)).
  pose proof (IH ltac:(intros y Hy; apply H; by right)). lia.
Qed.

Lemma sum_Z_mono {A} (f g : A → Z) l :
  (∀ x, x ∈ l → (f x ≤ g x)%Z) → (sum_Z (f <$> l) ≤ sum_Z (g <$> l))%Z.
Proof.
  induction l as [|x l IH]; intros H; [done|].
  cbn [fmap list_fmap sum_Z foldr].
  fold (sum_Z (f <$> l)). fold (sum_Z (g <$> l)).
  pose proof (H x ltac:(left)).
  pose proof (IH ltac:(intros y Hy; apply H; by right)). lia.
Qed.

Lemma sum_Z_perm l k : l ≡ₚ k → sum_Z l = sum_Z k.
Proof.
  induction 1 as [|x l k _ IH|x y l|l k j _ IH1 _ IH2]; cbn; try done.
  - fold (sum_Z l). fold (sum_Z k). lia.
  - lia.
  - congruence.
Qed.

Lemma slot_total_unfold corr g c i :
  slot_total corr g c i
  = sum_Z ((λ a, sum_Z ((λ b, aligned corr g i a b) <$> seq 0 c)) <$> seq 0 c).
Proof.
  unfold slot_total. rewrite NpSums.sum_tabulate_cons.
  apply NpSums.sum_Z_ext. intros a _. by rewrite sum_tabulate_vector.
Qed.

Lemma slot_total_bounds corr g c n i lo hi :
  (∀ a, a < c → (0 ≤ item g [a; i] < Z.of_nat n)%Z) →
  (∀ j k, j < n → k < n → (lo ≤ item corr [j; k] ≤ hi)%Z) →
  (Z.of_nat c * Z.of_nat c * lo ≤ slot_total corr g c i
   ≤ Z.of_nat c * Z.of_nat c * hi)%Z.
Proof.
  intros Hg Hcorr. rewrite slot_total_unfold.
  pose proof (sum_Z_bounds
    (λ a, sum_Z ((λ b, aligned corr g i a b) <$> seq 0 c)) (seq 0 c)
    (Z.of_nat c * lo) (Z.of_nat c * hi)) as H.
  rewrite length_seq in H.
  assert (∀ a, a ∈ seq 0 c →
            (Z.of_nat c * lo
             ≤ sum_Z ((λ b, aligned corr g i a b) <$> seq 0 c)
             ≤ Z.of_nat c * hi)%Z) as Hrow.
  { intros a Ha%elem_of_seq.
    pose proof (sum_Z_bounds (λ b, aligned corr g i a b) (seq 0 c) lo hi) as H'.
    rewrite length_seq in H'. apply H'. intros b Hb%elem_of_seq.
    unfold aligned. pose proof (Hg a ltac:(lia)). pose proof (Hg b ltac:(lia)).
    apply Hcorr; lia. }
  specialize (H Hrow). lia.
Qed.

Lemma slot_total_lower corr g c n i lo :
  (∀ a, a < c → (0 ≤ item g [a; i] < Z.of_nat n)%Z) →
  (∀ j k, j < n → k < n → (lo ≤ item corr [j; k])%Z) →
  (Z.of_nat c * Z.of_nat c * lo ≤ slot_total corr g c i)%Z.
Proof.
  intros Hg Hcorr. rewrite slot_total_unfold.
  pose proof (sum_Z_mono (λ _, Z.of_nat c * lo)%Z
    (λ a, sum_Z ((λ b, aligned corr g i a b) <$> seq 0 c)) (seq 0 c)) as H.
  rewrite NpSums.sum_Z_const, length_seq in H.
  etrans; [|apply H]; [lia|].
  intros a Ha%elem_of_seq.
  pose proof (sum_Z_mono (λ _, lo) (λ b, aligned corr g i a b) (seq 0 c)) as H'.
  rewrite NpSums.sum_Z_const, length_seq in H'. apply H'.
  intros b Hb%elem_of_seq.
  unfold aligned. pose proof (Hg a ltac:(lia)). pose proof (Hg b ltac:(lia)).
  apply Hcorr; lia.
Qed.

(** The world that holds nothing but one solution with the table
    [t]. *)
Lemma score_as_evaluate p t :
  ∃ w sol, current_table w sol t ∧ problem.evaluate p sol w = (score p t, w).
Proof.
  exists (World {[0 := t]} {[0 := MetaModeSolution.Make 0 0 0 0 (Some 0)]} ∅ []), 0.
  assert (current_table
            (World {[0 := t]} {[0 := MetaModeSolution.Make 0 0 0 0 (Some 0)]} ∅ [])
            0 t) as H.
  { eexists _, 0. cbn. by rewrite !lookup_singleton_eq. }
  split; [done|]. by apply evaluate_of_table.
Qed.

Lemma score_sum corr m c t :
  valid_table c m t → shape corr = [c * m; c * m] →
  score (problem_of corr m c SUM) t
  = Ok (sum_Z (slot_total corr (global_table t m) c <$> seq 0 m)
        - Z.of_nat m * Z.of_nat c)%Z.
Proof.
  intros Hv Hcorr.
  destruct (score_as_evaluate (problem_of corr m c SUM) t)
    as (w & sol & (s & l & Hs & Hl & Ht) & Hev).
  rewrite (ProblemFacts.evaluate_sum_run corr m c SUM w sol s l t) in Hev by done.
  congruence.
Qed.

Lemma score_abs_sum corr m c t :
  valid_table c m t → shape corr = [c * m; c * m] →
  score (problem_of corr m c ABS_SUM) t
  = Ok (sum_Z ((λ i, Z.abs (slot_total corr (global_table t m) c i))
                 <$> seq 0 m)
        - Z.of_nat m * Z.of_nat c)%Z.
Proof.
  intros Hv Hcorr.
  destruct (score_as_evaluate (problem_of corr m c ABS_SUM) t)
    as (w & sol & (s & l & Hs & Hl & Ht) & Hev).
  rewrite (ProblemFacts.evaluate_abs_sum_run corr m c ABS_SUM w sol s l t)
    in Hev by done.
  congruence.
Qed.

Lemma score_dyn_sum corr m c t :
  ∃ e, score (problem_of corr m c DYN_SUM) t = Raise e.
Proof. unfold score. cbn. eauto. Qed.

Lemma nth_seq_fmap (σ : list nat) :
  (λ j, nth j σ 0) <$> seq 0 (length σ) = σ.
Proof.
  apply list_eq. intros i. rewrite list_lookup_fmap.
  destruct (decide (i < length σ)) as [Hi|Hi].
  - rewrite lookup_seq_lt by done. cbn.
    apply lookup_lt_is_Some_2 in Hi as [x Hx]. rewrite Hx. f_equal.
    by eapply nth_lookup_Some.
  - rewrite lookup_seq_ge by lia. symmetry. apply lookup_ge_None. lia.
Qed.

Lemma nth_perm_lt (σ : list nat) m i :
  σ ≡ₚ seq 0 m → i < m → nth i σ 0 < m.
Proof.
  intros Hσ Hi. pose proof (Permutation_length Hσ) as Hlen.
  rewrite length_seq in Hlen.
  assert (nth i σ 0 ∈ σ) as Hin.
  { destruct (lookup_lt_is_Some_2 σ i ltac:(lia)) as [x Hx].
    rewrite (nth_lookup_Some _ _ _ _ Hx). by eapply list_elem_of_lookup_2. }
  eapply elem_of_Permutation_proper in Hin; [|symmetry; exact Hσ].
  apply elem_of_seq in Hin. lia.
Qed.

Lemma item_reorder_slots σ t c m a i :
  shape t = [c; m] → a < c → i < m →
  item (reorder_slots σ t) [a; i] = item t [a; nth i σ 0].
Proof.
  intros Hsh Ha Hi. unfold reorder_slots. rewrite Hsh.
  by rewrite NpFacts.item_tabulate by NpPipeline.solve_inb.
Qed.

Lemma valid_reorder_slots σ t c m :
  valid_table c m t → σ ≡ₚ seq 0 m → valid_table c m (reorder_slots σ t).
Proof.
  intros [Hsh Hrows] Hσ.
  pose proof (Permutation_length Hσ) as Hlen. rewrite length_seq in Hlen.
  split; [done|].
  rewrite (TableFacts.rows_shape _ c m) by done.
  rewrite (TableFacts.rows_shape _ c m Hsh) in Hrows.
  rewrite Forall_fmap in Hrows. rewrite Forall_fmap.
  apply Forall_forall. intros a Ha. rewrite Forall_forall in Hrows.
  specialize (Hrows a Ha). apply elem_of_seq in Ha.
  unfold compose, is_permutation in *. cbn beta in *.
  etrans; [|exact Hrows].
  assert ((λ j, item (reorder_slots σ t) [a; j]) <$> seq 0 m
          = (λ k, item t [a; k]) <$> σ) as ->.
  { transitivity ((λ k, item t [a; k]) <$> ((λ j, nth j σ 0) <$> seq 0 m)).
    - rewrite <- list_fmap_compose.
      apply list_fmap_ext. intros j ? [-> Hj]%lookup_seq.
      cbn [Nat.add compose].
      apply (item_reorder_slots σ t c m); [done|lia|done].
    - by rewrite <- Hlen, nth_seq_fmap. }
  by rewrite Hσ.
Qed.

Lemma slot_total_reorder corr σ t c m i :
  valid_table c m t → σ ≡ₚ seq 0 m → i < m →
  slot_total corr (global_table (reorder_slots σ t) m) c i
  = slot_total corr (global_table t m) c (nth i σ 0).
Proof.
  intros Hv Hσ Hi. pose proof (valid_reorder_slots σ t c m Hv Hσ) as Hv'.
  pose proof (nth_perm_lt σ m i Hσ Hi) as Hlt.
  rewrite !slot_total_unfold.
  apply NpSums.sum_Z_ext. intros a Ha%elem_of_seq.
  apply NpSums.sum_Z_ext. intros b Hb%elem_of_seq.
  unfold aligned.
  rewrite !(ProblemFacts.item_global_table m c _ Hv') by (done || lia).
  rewrite !(ProblemFacts.item_global_table m c _ Hv) by (done || lia).
  destruct Hv as [Hsh _].
  by rewrite !(item_reorder_slots σ t c m) by (done || lia).
Qed.

Lemma sum_Z_reorder (f : nat → Z) σ m :
  σ ≡ₚ seq 0 m →
  sum_Z ((λ i, f (nth i σ 0)) <$> seq 0 m) = sum_Z (f <$> seq 0 m).
Proof.
  intros Hσ. pose proof (Permutation_length Hσ) as Hlen.
  rewrite length_seq in Hlen.
  rewrite (list_fmap_compose (λ j, nth j σ 0) f).
  rewrite <- Hlen at 1. rewrite nth_seq_fmap.
  apply sum_Z_perm. by rewrite Hσ.
Qed.

(** The scores do not depend on the order of the metamode slots. *)
Lemma score_reorder corr m c o σ t :
  valid_table c m t → shape corr = [c * m; c * m] → σ ≡ₚ seq 0 m →
  score (problem_of corr m c o) (reorder_slots σ t)
  = score (problem_of corr m c o) t.
Proof.
  intros Hv Hcorr Hσ.
  pose proof (valid_reorder_slots σ t c m Hv Hσ) as Hv'.
  destruct o.
  - rewrite !score_sum by done. do 2 f_equal.
    rewrite <- (sum_Z_reorder (slot_total corr (global_table t m) c) σ m Hσ).
    apply NpSums.sum_Z_ext. intros i Hi%elem_of_seq.
    apply slot_total_reorder; [done..|lia].
  - rewrite !score_abs_sum by done. do 2 f_equal.
    rewrite <- (sum_Z_reorder
                  (λ i, Z.abs (slot_total corr (global_table t m) c i)) σ m Hσ).
    apply NpSums.sum_Z_ext. intros i Hi%elem_of_seq. cbn beta. f_equal.
    apply slot_total_reorder; [done..|lia].
  - done.
Qed.

End ScoreBounds.

(** ** The search up to the progress bar *)

Module Resume.
Import Np Py Spec MetaModeSolver Ignores.

Lemma without_tqdm_inv self w1 w2 :
  without_tqdm self w1 = without_tqdm self w2 →
  arrays w1 = arrays w2 ∧ solutions w1 = solutions w2 ∧ rng w1 = rng w2 ∧
  alter (with__tqdm None) self (solvers w1)
  = alter (with__tqdm None) self (solvers w2).
Proof.
  intros H. repeat split.
  - exact (f_equal arrays H).
  - exact (f_equal solutions H).
  - exact (f_equal rng H).
  - exact (f_equal solvers H).
Qed.

Lemma without_tqdm_intro self w1 w2 :
  arrays w1 = arrays w2 → solutions w1 = solutions w2 → rng w1 = rng w2 →
  alter (with__tqdm None) self (solvers w1)
  = alter (with__tqdm None) self (solvers w2) →
  without_tqdm self w1 = without_tqdm self w2.
Proof.
  destruct w1, w2. unfold without_tqdm, with_solvers. cbn. by intros -> -> -> ->.
Qed.

Lemma without_tqdm_lookup self w1 w2 :
  without_tqdm self w1 = without_tqdm self w2 →
  with__tqdm None <$> solvers w1 !! self
  = with__tqdm None <$> solvers w2 !! self.
Proof.
  intros (_ & _ & _ & H)%without_tqdm_inv.
  by rewrite <- !lookup_alter_eq, H.
Qed.

Lemma without_tqdm_insert self w1 w2 s1 s2 :
  without_tqdm self w1 = without_tqdm self w2 →
  with__tqdm None s1 = with__tqdm None s2 →
  without_tqdm self (with_solvers (insert self s1) w1)
  = without_tqdm self (with_solvers (insert self s2) w2).
Proof.
  intros (Ha & Hs & Hr & Hsv)%without_tqdm_inv Hs12.
  apply without_tqdm_intro; try done. cbn [solvers with_solvers].
  rewrite !alter_insert_eq, Hs12.
  rewrite <- (insert_alter_eq (with__tqdm None) (solvers w1)).
  rewrite <- (insert_alter_eq (with__tqdm None) (solvers w2)).
  by rewrite Hsv.
Qed.

Lemma without_tqdm_insert_same self w s s' :
  solvers w !! self = Some s →
  with__tqdm None s' = with__tqdm None s →
  without_tqdm self (with_solvers (insert self s') w) = without_tqdm self w.
Proof.
  intros Hs Hs'. apply without_tqdm_intro; try done.
  cbn [solvers with_solvers]. rewrite alter_insert_eq, Hs'.
  apply map_eq. intros i. destruct (decide (i = self)) as [->|Hne].
  - by rewrite lookup_insert_eq, lookup_alter_eq, Hs.
  - by rewrite lookup_insert_ne, lookup_alter_ne.
Qed.

(** *** Closure of [tqdm_blind] *)

Lemma tqdm_blind_trans {A} self (m1 m2 m3 : M A) :
  tqdm_blind self m1 m2 → tqdm_blind self m2 m3 → tqdm_blind self m1 m3.
Proof.
  intros H12 H23 w1 w3 Hw.
  destruct (H12 w1 w1 eq_refl) as [Hr Hs].
  destruct (H23 w1 w3 Hw) as [Hr' Hs']. split; congruence.
Qed.

Lemma tqdm_blind_ext_l {A} self (m1 m1' m2 : M A) :
  (∀ w, m1 w = m1' w) → tqdm_blind self m1' m2 → tqdm_blind self m1 m2.
Proof. intros He H w1 w2 Hw. rewrite He. by apply H. Qed.

Lemma tqdm_blind_ext_r {A} self (m1 m2 m2' : M A) :
  (∀ w, m2 w = m2' w) → tqdm_blind self m1 m2' → tqdm_blind self m1 m2.
Proof. intros He H w1 w2 Hw. rewrite He. by apply H. Qed.

Lemma tqdm_blind_ignores {A} self (m : M A) :
  ignores_solvers m → tqdm_blind self m m.
Proof.
  intros Hm w1 w2 Hw.
  pose proof (Hm (alter (with__tqdm None) self) w1) as H1.
  pose proof (Hm (alter (with__tqdm None) self) w2) as H2.
  fold (without_tqdm self w1) in H1. fold (without_tqdm self w2) in H2.
  rewrite Hw, H2 in H1. injection H1 as Hr Hs.
  split; [done|]. unfold without_tqdm in *. congruence.
Qed.

Lemma tqdm_blind_bind {A B} self (m1 m2 : M A) (k1 k2 : A → M B) :
  tqdm_blind self m1 m2 → (∀ a, tqdm_blind self (k1 a) (k2 a)) →
  tqdm_blind self (bind m1 k1) (bind m2 k2).
Proof.
  intros Hm Hk w1 w2 Hw. unfold bind.
  destruct (Hm w1 w2 Hw) as [Hr Hs].
  destruct (m1 w1) as [[a|e] w1'], (m2 w2) as [[a'|e'] w2'];
    cbn [fst snd] in Hr, Hs; try done.
  - injection Hr as <-. by apply Hk.
  - by injection Hr as <-.
Qed.

Lemma tqdm_blind_get_solver {A} self (k1 k2 : MetaModeSolver.t → M A) :
  (∀ s1 s2, with__tqdm None s1 = with__tqdm None s2 →
            tqdm_blind self (k1 s1) (k2 s2)) →
  tqdm_blind self (bind (get_solver self) k1) (bind (get_solver self) k2).
Proof.
  intros Hk w1 w2 Hw. unfold bind, get_solver.
  pose proof (without_tqdm_lookup self w1 w2 Hw) as Hl.
  destruct (solvers w1 !! self) as [s1|], (solvers w2 !! self) as [s2|];
    cbn [fmap option_fmap option_map] in Hl; try done.
  apply (inj Some) in Hl. by apply Hk.
Qed.

Lemma tqdm_blind_update_solver self f1 f2 :
  (∀ s1 s2, with__tqdm None s1 = with__tqdm None s2 →
            with__tqdm None (f1 s1) = with__tqdm None (f2 s2)) →
  tqdm_blind self (update_solver self f1) (update_solver self f2).
Proof.
  intros Hf w1 w2 Hw. unfold update_solver.
  pose proof (without_tqdm_lookup self w1 w2 Hw) as Hl.
  destruct (solvers w1 !! self) as [s1|], (solvers w2 !! self) as [s2|];
    cbn [fmap option_fmap option_map] in Hl; try done.
  apply (inj Some) in Hl. cbn [fst snd]. split; [done|].
  apply without_tqdm_insert; [done|by apply Hf].
Qed.

(** Putting an update of the progress bar in front of a computation
    that needs the solver changes nothing else. *)
Lemma tqdm_blind_skip {A} self f (m : M A) :
  (∀ s, with__tqdm None (f s) = with__tqdm None s) →
  tqdm_blind self m m →
  (∀ w, solvers w !! self = None → m w = (Raise SystemError, w)) →
  tqdm_blind self m (bind (update_solver self f) (λ _, m)).
Proof.
  intros Hf Hm Hnone w1 w2 Hw. unfold bind, update_solver.
  pose proof (without_tqdm_lookup self w1 w2 Hw) as Hl.
  destruct (solvers w2 !! self) as [s2|] eqn:Hs2.
  - apply Hm. rewrite Hw. symmetry.
    by apply (without_tqdm_insert_same self w2 s2).
  - destruct (solvers w1 !! self) as [s1|] eqn:Hs1; [done|].
    by rewrite (Hnone w1 Hs1).
Qed.

(** *** The solver up to the progress bar *)

Lemma erased_fields s1 s2 :
  with__tqdm None s1 = with__tqdm None s2 →
  problem s1 = problem s2 ∧ best_solution s1 = best_solution s2 ∧
  best_value s1 = best_value s2 ∧ _iteration s1 = _iteration s2 ∧
  record s1 = record s2 ∧ steps s1 = steps s2.
Proof. intros [=]. done. Qed.

Ltac erased :=
  let H := fresh in
  intros [] [] H; apply erased_fields in H; cbn in H;
  destruct H as (-> & -> & -> & -> & -> & ->);
  repeat match goal with |- context [match ?x with _ => _ end] => destruct x end;
  reflexivity.

Lemma tqdm_blind_solver_step self :
  tqdm_blind self (solver.step self) (solver.step self).
Proof.
  unfold solver.step. apply tqdm_blind_get_solver.
  intros s1 s2 (Hp & Hb & _)%erased_fields. rewrite Hp, Hb.
  apply tqdm_blind_bind; [apply tqdm_blind_ignores, ignores_copy|intros sol].
  apply tqdm_blind_bind; [apply tqdm_blind_ignores, ignores_step|intros _].
  apply tqdm_blind_bind; [apply tqdm_blind_ignores, ignores_evaluate|intros v].
  apply tqdm_blind_get_solver.
  intros s1' s2' (_ & _ & Hv & _)%erased_fields. rewrite Hv.
  case_decide; [|apply tqdm_blind_ignores, ignores_ret].
  apply tqdm_blind_bind; [apply tqdm_blind_update_solver; erased|intros _].
  apply tqdm_blind_bind; [apply tqdm_blind_update_solver; erased|intros _].
  apply tqdm_blind_ignores, ignores_ret.
Qed.

Lemma tqdm_blind_solve_iteration self :
  tqdm_blind self (solver.solve_iteration self) (solver.solve_iteration self).
Proof.
  unfold solver.solve_iteration.
  apply tqdm_blind_bind; [apply tqdm_blind_solver_step|intros b].
  apply tqdm_blind_bind; [|intros _; apply tqdm_blind_update_solver; erased].
  destruct b; [|apply tqdm_blind_ignores, ignores_ret].
  apply tqdm_blind_get_solver.
  intros s1 s2 (_ & _ & Hv & Hi & _)%erased_fields. rewrite Hv, Hi.
  apply tqdm_blind_bind; [apply tqdm_blind_update_solver; erased|intros _].
  apply tqdm_blind_get_solver.
  intros s1' s2' (Hp & Hb & _)%erased_fields. rewrite Hp, Hb.
  apply tqdm_blind_bind; [apply tqdm_blind_ignores, ignores_generate|intros g].
  apply tqdm_blind_update_solver; erased.
Qed.

Lemma tqdm_blind_for_range self n body :
  tqdm_blind self body body →
  tqdm_blind self (solver.for_range n body) (solver.for_range n body).
Proof.
  intros Hb. induction n as [|n IH]; cbn [solver.for_range].
  - apply tqdm_blind_ignores, ignores_ret.
  - by apply tqdm_blind_bind.
Qed.

(** The progress flag of [solve] only reaches the progress bar. *)
Lemma tqdm_blind_solve self n p1 p2 :
  tqdm_blind self (solver.solve self n p1) (solver.solve self n p2).
Proof.
  unfold solver.solve.
  apply tqdm_blind_bind; [apply tqdm_blind_update_solver; erased|intros _].
  apply tqdm_blind_bind;
    [apply tqdm_blind_for_range, tqdm_blind_solve_iteration|intros _].
  apply tqdm_blind_bind; [apply tqdm_blind_update_solver; erased|intros _].
  apply tqdm_blind_update_solver; erased.
Qed.

Lemma bind_assoc {A B C} (m : M A) (k : A → M B) (h : B → M C) w :
  bind (bind m k) h w = bind m (λ x, bind (k x) h) w.
Proof. unfold bind. by destruct (m w) as [[a|e] w1]. Qed.

Lemma bind_ext {A B} (m : M A) (k k' : A → M B) w :
  (∀ a w1, k a w1 = k' a w1) → bind m k w = bind m k' w.
Proof. intros H. unfold bind. by destruct (m w) as [[a|e] w1]. Qed.

Lemma for_range_add a b body w :
  solver.for_range (a + b) body w
  = bind (solver.for_range a body) (λ _, solver.for_range b body) w.
Proof.
  revert w. induction a as [|a IH]; intros w; [done|].
  cbn [Nat.add solver.for_range]. rewrite bind_assoc.
  apply bind_ext. intros _ w1. apply IH.
Qed.

(** What remains of [solve] after [a] of [a + b] passes: [b] passes
    and the closing of the bar. *)
Lemma rest_needs_solver self b w :
  solvers w !! self = None →
  (solver.for_range b (solver.solve_iteration self);;;
   update_solver self (λ s, with__tqdm (tqdm.close <$> _tqdm s) s);;;
   update_solver self (with__tqdm None))%py w
  = (Raise SystemError, w).
Proof.
  intros Hnone. destruct b as [|b]; cbn [solver.for_range].
  - unfold bind, ret, update_solver. by rewrite Hnone.
  - unfold solver.solve_iteration, solver.step, bind, get_solver.
    by rewrite Hnone.
Qed.

Lemma tqdm_blind_resume self a b p p1 p2 :
  tqdm_blind self (solver.solve self (a + b) p)
    (solver.solve self a p1;;; solver.solve self b p2)%py.
Proof.
  set (rest := (solver.for_range b (solver.solve_iteration self);;;
                update_solver self (λ s, with__tqdm (tqdm.close <$> _tqdm s) s);;;
                update_solver self (with__tqdm None))%py).
  assert (tqdm_blind self rest rest) as Hrest.
  { apply tqdm_blind_bind;
      [apply tqdm_blind_for_range, tqdm_blind_solve_iteration|intros _].
    apply tqdm_blind_bind; [apply tqdm_blind_update_solver; erased|intros _].
    apply tqdm_blind_update_solver; erased. }
  eapply (tqdm_blind_ext_l self _
    (update_solver self (with__tqdm (Some (tqdm.trange (a + b) (negb p))));;;
     solver.for_range a (solver.solve_iteration self);;; rest)%py).
  { intros w. unfold solver.solve, bind at 1 4.
    destruct (update_solver self _ w) as [[[]|e] w1]; [|done].
    unfold bind at 1. rewrite for_range_add. unfold rest, bind.
    by destruct (solver.for_range a _ w1) as [[[]|e] w2]. }
  eapply (tqdm_blind_ext_r self _ _
    (update_solver self (with__tqdm (Some (tqdm.trange a (negb p1))));;;
     solver.for_range a (solver.solve_iteration self);;;
     update_solver self (λ s, with__tqdm (tqdm.close <$> _tqdm s) s);;;
     update_solver self (with__tqdm None);;;
     update_solver self (with__tqdm (Some (tqdm.trange b (negb p2))));;;
     rest)%py).
  { intros w. unfold solver.solve, rest, bind.
    destruct (update_solver self _ w) as [[[]|e] w1]; [|done].
    destruct (solver.for_range a _ w1) as [[[]|e] w2]; [|done].
    destruct (update_solver self _ w2) as [[[]|e] w3]; [|done].
    by destruct (update_solver self _ w3) as [[[]|e] w4]. }
  apply tqdm_blind_bind; [apply tqdm_blind_update_solver; erased|intros _].
  apply tqdm_blind_bind;
    [apply tqdm_blind_for_range, tqdm_blind_solve_iteration|intros _].
  eapply tqdm_blind_trans;
    [apply (tqdm_blind_skip self
              (with__tqdm (Some (tqdm.trange b (negb p2)))) rest);
     [by intros []|done|apply rest_needs_solver]|].
  set (rest1 := (update_solver self _;;; rest)%py).
  assert (tqdm_blind self rest1 rest1) as Hrest1.
  { apply tqdm_blind_bind; [apply tqdm_blind_update_solver; erased|done]. }
  assert (∀ w, solvers w !! self = None → rest1 w = (Raise SystemError, w))
    as Hnone1.
  { intros w Hnone. unfold rest1, bind, update_solver. by rewrite Hnone. }
  eapply tqdm_blind_trans;
    [apply (tqdm_blind_skip self (with__tqdm None) rest1);
     [by intros []|done|done]|].
  set (rest2 := (update_solver self _;;; rest1)%py).
  assert (tqdm_blind self rest2 rest2) as Hrest2.
  { apply tqdm_blind_bind; [apply tqdm_blind_update_solver; erased|done]. }
  assert (∀ w, solvers w !! self = None → rest2 w = (Raise SystemError, w))
    as Hnone2.
  { intros w Hnone. unfold rest2, bind, update_solver. by rewrite Hnone. }
  apply (tqdm_blind_skip self
           (λ s, with__tqdm (tqdm.close <$> _tqdm s) s) rest2);
    [by intros []|done|done].
Qed.

(** When [solve] returns, the bar has been removed. *)
Lemma solve_ok_without_tqdm self n p w u w' :
  solver.solve self n p w = (Ok u, w') → without_tqdm self w' = w'.
Proof.
  unfold solver.solve, bind.
  destruct (update_solver self _ w) as [[[]|e] w1]; [|done].
  destruct (solver.for_range n _ w1) as [[[]|e] w2]; [|done].
  destruct (update_solver self _ w2) as [[[]|e] w3]; [|done].
  unfold update_solver.
  destruct (solvers w3 !! self) as [s|] eqn:Hs; [|done].
  intros [= _ <-]. unfold without_tqdm, with_solvers. cbn [arrays solutions solvers rng].
  by rewrite alter_insert_eq.
Qed.

End Resume.

(** ** The diagonal in the [sum] objective *)

Module Diagonal.
Import Np Py Spec ScoreFacts ScoreBounds objectives.

Lemma sum_Z_plus {A} (f g : A → Z) l :
  sum_Z ((λ x, f x + g x)%Z <$> l) = (sum_Z (f <$> l) + sum_Z (g <$> l))%Z.
Proof.
  induction l as [|x l IH]; [done|].
  cbn [fmap list_fmap sum_Z foldr].
  fold (sum_Z ((λ x, f x + g x)%Z <$> l)).
  fold (sum_Z (f <$> l)). fold (sum_Z (g <$> l)). lia.
Qed.

(** A sum with one term taken out. *)
Lemma sum_Z_remove (f : nat → Z) n a :
  a < n →
  sum_Z (f <$> seq 0 n)
  = (sum_Z ((λ b, if decide (a = b) then 0 else f b) <$> seq 0 n) + f a)%Z.
Proof.
  intros Ha.
  rewrite (NpSums.sum_Z_ext f
    (λ b, (if decide (a = b) then 0 else f b)
          + (if decide (a = b) then f b else 0))%Z)
    by (intros b _; case_decide; lia).
  rewrite sum_Z_plus. f_equal.
  rewrite (NpSums.sum_Z_single _ n a Ha).
  - by rewrite decide_True.
  - intros j _ Hne. by rewrite decide_False.
Qed.

Lemma slot_total_off_diagonal corr g c n i :
  (∀ a, a < c → (0 ≤ item g [a; i] < Z.of_nat n)%Z) →
  (∀ j, j < n → item corr [j; j] = 1%Z) →
  slot_total corr g c i
  = (sum_Z ((λ a, sum_Z ((λ b, if decide (a = b) then 0
                               else aligned corr g i a b) <$> seq 0 c))
              <$> seq 0 c) + Z.of_nat c)%Z.
Proof.
  intros Hg Hdiag. rewrite slot_total_unfold.
  rewrite (NpSums.sum_Z_ext _
    (λ a, sum_Z ((λ b, if decide (a = b) then 0
                       else aligned corr g i a b) <$> seq 0 c) + 1)%Z).
  - rewrite sum_Z_plus, NpSums.sum_Z_const, length_seq. lia.
  - intros a Ha%elem_of_seq.
    rewrite (sum_Z_remove (λ b, aligned corr g i a b) c a) by lia.
    f_equal. unfold aligned. apply Hdiag.
    pose proof (Hg a ltac:(lia)). lia.
Qed.

End Diagonal.

(** ** Further properties of the objectives and of [evaluate] *)

Import Np Py Spec.

(** X1.  Over a tensor of integers small enough for every sum to be
    exact, on a solution that holds a valid table, the [abs_sum]
    objective is at least the [sum] objective and at least
    [- n_modes * n_channels]; the two coincide when no entry of the
    correlation tensor is negative. *)
Theorem abs_sum_dominates_sum corr m c ps pa w sol t :
  problem.__init__ corr m c (problem.Member objectives.SUM) = Ok ps →
  problem.__init__ corr m c (problem.Member objectives.ABS_SUM) = Ok pa →
  shape corr = [c * m; c * m] → sums_are_exact corr m c →
  holds_table w sol c m t → valid_table c m t →
  ∃ vs va,
    problem.evaluate ps sol w = (Ok vs, w) ∧
    problem.evaluate pa sol w = (Ok va, w) ∧
    (vs ≤ va)%Z ∧ (- (Z.of_nat m * Z.of_nat c) ≤ va)%Z ∧
    ((∀ j k, j < c * m → k < c * m → (0 ≤ item corr [j; k])%Z) → va = vs).
Proof.
  rewrite !SolverInit.problem_init_member.
  intros [= <-] [= <-] Hcorr _ Hh Hv.
  apply ScoreFacts.holds_current_table in Hh.
  rewrite !(ScoreFacts.evaluate_of_table _ w sol t Hh).
  rewrite (ScoreBounds.score_sum corr m c t Hv Hcorr).
  rewrite (ScoreBounds.score_abs_sum corr m c t Hv Hcorr).
  eexists _, _. split; [done|]. split; [done|].
  split; [|split].
  - apply Z.sub_le_mono_r. apply ScoreBounds.sum_Z_mono. intros i _. lia.
  - pose proof (ScoreBounds.sum_Z_mono (λ _, 0%Z)
      (λ i, Z.abs (slot_total corr (global_table t m) c i)) (seq 0 m)
      ltac:(intros; cbn; lia)) as H.
    rewrite NpSums.sum_Z_const in H. lia.
  - intros Hpos. f_equal. apply NpSums.sum_Z_ext. intros i Hi%elem_of_seq.
    apply Z.abs_eq.
    pose proof (ScoreBounds.slot_total_lower corr (global_table t m) c (c * m) i 0
      ltac:(intros a Ha; apply (ProblemFacts.global_table_range m c t Hv); lia)
      Hpos). lia.
Qed.

(** On the sample tensor, which has no negative entry, the two
    objectives agree on the shuffled table. *)
Lemma abs_sum_dominates_sum_witness :
  ∃ vs va,
    problem.evaluate Sample.problem_sum 0 Sample.permuted
    = (Ok vs, Sample.permuted) ∧
    problem.evaluate
      (MetaModeProblem.Make Sample.corr 3 2 3 objectives.ABS_SUM
         (scale (arange 2) 3)) 0 Sample.permuted
    = (Ok va, Sample.permuted) ∧
    (vs ≤ va)%Z ∧ (- (Z.of_nat 3 * Z.of_nat 2) ≤ va)%Z ∧
    ((∀ j k, j < 2 * 3 → k < 2 * 3 → (0 ≤ item Sample.corr [j; k])%Z) →
     va = vs).
Proof.
  apply (abs_sum_dominates_sum Sample.corr 3 2 _ _ Sample.permuted 0
           Sample.shuffled).
  - reflexivity.
  - reflexivity.
  - reflexivity.
  - exact example_sums_are_exact.
  - exact example_permuted_holds.
  - exact example_permuted_valid.
Defined.

(** X2.  Over a tensor of integers small enough for every sum to be
    exact: when every entry of the correlation tensor lies between
    [lo] and [hi], the [sum] objective of a solution that holds a valid
    table lies between [n_modes * n_channels^2 * lo] and
    [n_modes * n_channels^2 * hi], each less [n_modes * n_channels]. *)
Theorem sum_score_bounds corr m c p w sol t lo hi :
  problem.__init__ corr m c (problem.Member objectives.SUM) = Ok p →
  shape corr = [c * m; c * m] → sums_are_exact corr m c →
  holds_table w sol c m t → valid_table c m t →
  (∀ j k, j < c * m → k < c * m → (lo ≤ item corr [j; k] ≤ hi)%Z) →
  ∃ v,
    problem.evaluate p sol w = (Ok v, w) ∧
    (Z.of_nat m * (Z.of_nat c * Z.of_nat c * lo) - Z.of_nat m * Z.of_nat c ≤ v
     ≤ Z.of_nat m * (Z.of_nat c * Z.of_nat c * hi) - Z.of_nat m * Z.of_nat c)%Z.
Proof.
  rewrite SolverInit.problem_init_member. intros [= <-] Hcorr _ Hh Hv Hb.
  apply ScoreFacts.holds_current_table in Hh.
  rewrite (ScoreFacts.evaluate_of_table _ w sol t Hh).
  rewrite (ScoreBounds.score_sum corr m c t Hv Hcorr).
  eexists. split; [done|].
  pose proof (ScoreBounds.sum_Z_bounds (slot_total corr (global_table t m) c)
    (seq 0 m) (Z.of_nat c * Z.of_nat c * lo) (Z.of_nat c * Z.of_nat c * hi)) as H.
  rewrite length_seq in H.
  assert (∀ i, i ∈ seq 0 m →
            (Z.of_nat c * Z.of_nat c * lo
             ≤ slot_total corr (global_table t m) c i
             ≤ Z.of_nat c * Z.of_nat c * hi)%Z) as Hslot.
  { intros i Hi%elem_of_seq.
    apply (ScoreBounds.slot_total_bounds corr _ c (c * m)); [|done].
    intros a Ha. apply (ProblemFacts.global_table_range m c t Hv); lia. }
  specialize (H Hslot). lia.
Qed.

(** The entries of the sample tensor lie between 0 and 5. *)
Lemma sum_score_bounds_witness :
  ∃ v,
    problem.evaluate Sample.problem_sum 0 Sample.permuted
    = (Ok v, Sample.permuted) ∧
    (Z.of_nat 3 * (Z.of_nat 2 * Z.of_nat 2 * 0) - Z.of_nat 3 * Z.of_nat 2 ≤ v
     ≤ Z.of_nat 3 * (Z.of_nat 2 * Z.of_nat 2 * 5) - Z.of_nat 3 * Z.of_nat 2)%Z.
Proof.
  apply (sum_score_bounds Sample.corr 3 2 _ Sample.permuted 0 Sample.shuffled).
  - reflexivity.
  - reflexivity.
  - exact example_sums_are_exact.
  - exact example_permuted_holds.
  - exact example_permuted_valid.
  - intros j k Hj Hk.
    assert (Forall (λ j, Forall (λ k, (0 ≤ item Sample.corr [j; k] ≤ 5)%Z)
                           (seq 0 6)) (seq 0 6)) as H.
    { apply (bool_decide_unpack _). vm_compute. exact I. }
    rewrite Forall_forall in H. specialize (H j ltac:(apply elem_of_seq; lia)).
    rewrite Forall_forall in H. apply H. apply elem_of_seq. lia.
Defined.

(** X3.  Over a tensor of integers small enough for every sum to be
    exact, the score does not depend on the order of the metamode
    slots: a solution whose table is a valid table with its columns
    taken in another order holds a valid table again and evaluates to
    the same result, for every objective. *)
Theorem evaluate_ignores_slot_order corr m c sel p w sol sol' t σ :
  problem.__init__ corr m c sel = Ok p →
  shape corr = [c * m; c * m] → sums_are_exact corr m c →
  holds_table w sol c m t → valid_table c m t →
  σ ≡ₚ seq 0 m →
  holds_table w sol' c m (reorder_slots σ t) →
  valid_table c m (reorder_slots σ t) ∧
  (∀ a i, a < c → i < m →
     item (reorder_slots σ t) [a; i] = item t [a; nth i σ 0]) ∧
  problem.evaluate p sol' w = problem.evaluate p sol w.
Proof.
  intros Hp Hcorr _ Hh Hv Hσ Hh'.
  split; [by apply ScoreBounds.valid_reorder_slots|]. split.
  - intros a i Ha Hi. destruct Hv as [Hsh _].
    by apply (ScoreBounds.item_reorder_slots σ t c m).
  - apply ProblemFacts.init_ok in Hp. rewrite Hp.
    apply ScoreFacts.holds_current_table in Hh, Hh'.
    rewrite (ScoreFacts.evaluate_of_table _ w sol t Hh).
    rewrite (ScoreFacts.evaluate_of_table _ w sol' _ Hh').
    by rewrite ScoreBounds.score_reorder.
Qed.

(** The two solutions of the sample state evaluate alike. *)
Lemma evaluate_ignores_slot_order_witness :
  valid_table 2 3 (reorder_slots [2; 0; 1] Sample.shuffled) ∧
  (∀ a i, a < 2 → i < 3 →
     item (reorder_slots [2; 0; 1] Sample.shuffled) [a; i]
     = item Sample.shuffled [a; nth i [2; 0; 1] 0]) ∧
  problem.evaluate Sample.problem_sum 1 Sample.reordered
  = problem.evaluate Sample.problem_sum 0 Sample.reordered.
Proof.
  apply (evaluate_ignores_slot_order Sample.corr 3 2 (problem.Name "SUM")).
  - reflexivity.
  - reflexivity.
  - exact example_sums_are_exact.
  - exists (MetaModeSolution.Make 3 2 3 0 (Some 0)), 0.
    repeat split; vm_compute; reflexivity.
  - exact example_permuted_valid.
  - apply (bool_decide_unpack _). vm_compute. exact I.
  - exists (MetaModeSolution.Make 3 2 3 1 (Some 1)), 1.
    repeat split; vm_compute; reflexivity.
Defined.

(** X4.  [evaluate] and [generate] of a problem, and [get_solution],
    [get_value] and [generate] of a solver, never change the state,
    whatever their arguments and however they end. *)
Theorem queries_leave_state_unchanged :
  (∀ p sol, read_only (problem.evaluate p sol) ∧
            read_only (problem.generate p sol)) ∧
  (∀ self, read_only (solver.get_solution self) ∧
           read_only (solver.get_value self) ∧
           read_only (solver.generate self)).
Proof.
  split.
  - intros p sol. split;
      [apply Frame.read_only_evaluate|apply Frame.read_only_generate].
  - intros self. unfold solver.get_solution, solver.get_value, solver.generate.
    repeat split; apply Frame.read_only_bind;
      try apply Frame.read_only_get_solver; intros sv;
      try apply Frame.read_only_ret; apply Frame.read_only_generate.
Qed.

(** X5.  [evaluate] and [generate] read nothing of a solution but its
    current table: for a problem over a tensor of side
    [n_channels * n_modes], two solutions that hold the same valid
    table, in whatever states, give the same outcome, whatever their
    own [n_modes], [n_channels] and [unpermuted_modes] are. *)
Theorem evaluate_reads_only_the_table corr m c sel p w sol w' sol' t :
  problem.__init__ corr m c sel = Ok p →
  shape corr = [c * m; c * m] → valid_table c m t →
  current_table w sol t → current_table w' sol' t →
  (problem.evaluate p sol w).1 = (problem.evaluate p sol' w').1 ∧
  (problem.generate p sol w).1 = (problem.generate p sol' w').1.
Proof.
  intros _ _ _ H H'.
  rewrite (ScoreFacts.evaluate_of_table p w sol t H).
  rewrite (ScoreFacts.evaluate_of_table p w' sol' t H').
  rewrite (ScoreFacts.generate_of_table p w sol t H).
  by rewrite (ScoreFacts.generate_of_table p w' sol' t H').
Qed.

Lemma evaluate_reads_only_the_table_witness :
  (problem.evaluate Sample.problem_sum 0 Sample.permuted).1
  = (problem.evaluate Sample.problem_sum 0 Sample.reordered).1 ∧
  (problem.generate Sample.problem_sum 0 Sample.permuted).1
  = (problem.generate Sample.problem_sum 0 Sample.reordered).1.
Proof.
  apply (evaluate_reads_only_the_table Sample.corr 3 2 (problem.Name "SUM")
           Sample.problem_sum
           Sample.permuted 0 Sample.reordered 0 Sample.shuffled).
  - reflexivity.
  - reflexivity.
  - exact example_permuted_valid.
  - exists (MetaModeSolution.Make 3 2 3 0 (Some 1)), 1.
    repeat split; vm_compute; reflexivity.
  - exists (MetaModeSolution.Make 3 2 3 0 (Some 0)), 0.
    repeat split; vm_compute; reflexivity.
Defined.

(** ** Further properties of the solver *)

(** X6.  Constructing a solver, [step()] and [solve(n_steps)] never
    change an array or a solution object that existed before the call,
    however the call ends: the candidates are built in new objects.  In
    particular a solution handed out by [get_solution()] stays as it is
    while the search goes on. *)
Theorem solver_keeps_existing_objects :
  (∀ corr m c sel, keeps_objects (solver.__init__ corr m c sel)) ∧
  (∀ self, keeps_objects (solver.step self)) ∧
  (∀ self n progress, keeps_objects (solver.solve self n progress)).
Proof.
  split; [|split].
  - apply Objects.keeps_objects_solver_init.
  - apply Objects.keeps_objects_solver_step.
  - apply Objects.keeps_objects_solve.
Qed.

(** X7.  [best_value] is always the score of [best_solution]: this
    holds for every solver that its constructor returns, and [step()]
    and [solve(n_steps)] keep it, however they end; so evaluating the
    solution of [get_solution()] with the problem of the solver gives
    the value of [get_value()]. *)
Theorem best_value_is_score_of_best_solution :
  (∀ corr m c sel w self w',
     solver.__init__ corr m c sel w = (Ok self, w') → value_is_score w' self) ∧
  (∀ self w,
     value_is_score w self → value_is_score (solver.step self w).2 self) ∧
  (∀ self n progress w,
     value_is_score w self →
     value_is_score (solver.solve self n progress w).2 self) ∧
  (∀ self w,
     value_is_score w self →
     ∃ sv sol v,
       solvers w !! self = Some sv ∧
       solver.get_solution self w = (Ok sol, w) ∧
       solver.get_value self w = (Ok v, w) ∧
       problem.evaluate (MetaModeSolver.problem sv) sol w = (Ok v, w)).
Proof.
  split; [|split; [|split]].
  - apply BestFacts.value_is_score_init.
  - apply BestFacts.value_is_score_step.
  - apply BestFacts.value_is_score_solve.
  - intros self w (sv & t & Hsv & Hcur & Hscore).
    exists sv, (MetaModeSolver.best_solution sv), (MetaModeSolver.best_value sv).
    unfold solver.get_solution, solver.get_value, bind, get_solver, ret.
    rewrite Hsv. do 3 (split; [done|]).
    by rewrite (ScoreFacts.evaluate_of_table _ w _ t Hcur), Hscore.
Qed.

(** The sample solver after six iterations of [solve]. *)
Lemma best_value_is_score_of_best_solution_witness :
  value_is_score (solver.solve 0 6 true Sample.solver_new).2 0.
Proof.
  apply (proj1 (proj2 (proj2 best_value_is_score_of_best_solution))).
  apply (proj1 best_value_is_score_of_best_solution
           Sample.corr 3 2 (problem.Name "SUM") Sample.start).
  vm_compute. reflexivity.
Defined.

(** X8.  What one call of [solve(n_steps)] on a ready solver appends to
    [record]: the recorded values are strictly increasing, each is
    greater than the best value before the call and at most the best
    value after it.  Either nothing was appended and the best solution
    and its value are what they were, or the last recorded value is the
    final [best_value] and the last tensor of [steps] is what
    [generate()] returns for the solver afterwards. *)
Theorem solve_records_strict_improvements self n progress w sv :
  solver_ready w self → solvers w !! self = Some sv →
  ∃ w' sv' rs gs,
    solver.solve self n progress w = (Ok (), w') ∧
    solvers w' !! self = Some sv' ∧
    MetaModeSolver.record sv' = MetaModeSolver.record sv ++ rs ∧
    MetaModeSolver.steps sv' = MetaModeSolver.steps sv ++ gs ∧
    StronglySorted Z.lt (rs.*2) ∧
    Forall (λ v, MetaModeSolver.best_value sv < v
                 ≤ MetaModeSolver.best_value sv')%Z (rs.*2) ∧
    ((rs = [] ∧ gs = [] ∧
      MetaModeSolver.best_value sv' = MetaModeSolver.best_value sv ∧
      MetaModeSolver.best_solution sv' = MetaModeSolver.best_solution sv) ∨
     (∃ k g,
        last rs = Some (k, MetaModeSolver.best_value sv') ∧
        last gs = Some g ∧
        solver.generate self w' = (Ok g, w') ∧
        solver.get_value self w' = (Ok (MetaModeSolver.best_value sv'), w'))).
Proof.
  intros Hready Hsv.
  destruct (History.solve_history self n progress w sv Hready Hsv)
    as (w' & sv' & rs & gs & Hrun & Hsv' & Hrec & Hsteps & _ & Hsorted
        & Hrange & Hlast).
  exists w', sv', rs, gs. do 6 (split; [done|]).
  destruct Hlast as [?|(k & g & Hl1 & Hl2 & Hg)]; [by left|right].
  exists k, g. do 2 (split; [done|]).
  unfold solver.generate, solver.get_value, bind, get_solver, ret.
  by rewrite Hsv'.
Qed.

(** Six iterations on the sample solver record the values 10 and
    30. *)
Lemma solve_records_strict_improvements_witness :
  ∃ w' sv' rs gs,
    solver.solve 0 6 true Sample.solver_new = (Ok (), w') ∧
    solvers w' !! 0 = Some sv' ∧
    MetaModeSolver.record sv' = [] ++ rs ∧
    MetaModeSolver.steps sv' = [] ++ gs ∧
    StronglySorted Z.lt (rs.*2) ∧
    Forall (λ v, 0 < v ≤ MetaModeSolver.best_value sv')%Z (rs.*2) ∧
    ((rs = [] ∧ gs = [] ∧
      MetaModeSolver.best_value sv' = 0%Z ∧
      MetaModeSolver.best_solution sv' = 0) ∨
     (∃ k g,
        last rs = Some (k, MetaModeSolver.best_value sv') ∧
        last gs = Some g ∧
        solver.generate 0 w' = (Ok g, w') ∧
        solver.get_value 0 w' = (Ok (MetaModeSolver.best_value sv'), w'))).
Proof.
  apply (solve_records_strict_improvements 0 6 true Sample.solver_new
           (MetaModeSolver.Make Sample.problem_sum 0 0 0 [] [] None)).
  - exact example_solver_new_ready.
  - vm_compute. reflexivity.
Defined.

(** X9.  One call of [step()] on a solver whose best solution holds a
    table with at least one channel.  When the call returns true, the
    new best solution is a new object whose table differs from the
    table of the old best solution in one row only, which has been
    replaced by a permutation of [0..n_modes-1]; otherwise the solver
    object is as it was.  In both cases the old best solution still
    holds its table. *)
Theorem accepted_step_changes_one_row w self sv c m t r w' :
  solvers w !! self = Some sv →
  holds_table w (MetaModeSolver.best_solution sv) c m t →
  shape t = [c; m] → c ≠ 0 →
  solver.step self w = (r, w') →
  ∃ sv',
    solvers w' !! self = Some sv' ∧
    holds_table w' (MetaModeSolver.best_solution sv) c m t ∧
    match r with
    | Ok true =>
        ∃ k p t',
          k < c ∧ is_permutation m p ∧
          shape t' = [c; m] ∧ rows t' = <[k := p]> (rows t) ∧
          holds_table w' (MetaModeSolver.best_solution sv') c m t' ∧
          solutions w !! MetaModeSolver.best_solution sv' = None
    | _ => sv' = sv
    end.
Proof.
  intros Hsv Hholds Hsh Hc.
  rewrite (SolverStep.solver_step_unfold w self sv Hsv).
  destruct (Candidate.candidate_run w _ c m t Hholds Hsh Hc)
    as (k & p & g' & t' & Hk & Hp & Hsh' & Hrows & Hcopy & Hstep).
  cbn zeta in Hcopy, Hstep. rewrite Hcopy, Hstep. clear Hcopy Hstep.
  set (w2 := World (<[_ := t']> _) _ _ _).
  assert (holds_table w2 (MetaModeSolver.best_solution sv) c m t) as Hold.
  { by eapply Candidate.holds_table_candidate. }
  pose proof (Frame.read_only_evaluate (MetaModeSolver.problem sv)
                (fresh (dom (solutions w))) w2) as He.
  destruct (problem.evaluate (MetaModeSolver.problem sv) _ w2) as [[v|e] w3];
    cbn [snd] in He; subst w3.
  2:{ intros [= <- <-]. by exists sv. }
  case_decide as Hgt; intros [= <- <-].
  - eexists. unfold with_solvers. cbn [solvers].
    split; [apply lookup_insert_eq|]. split; [exact Hold|].
    exists k, p, t'. do 4 (split; [done|]).
    assert (MetaModeSolver.best_solution
              match MetaModeSolver._tqdm sv with
              | Some b =>
                  MetaModeSolver.with__tqdm (Some (tqdm.set_postfix v b))
                    (MetaModeSolver.with_best (fresh (dom (solutions w))) v sv)
              | None =>
                  MetaModeSolver.with_best (fresh (dom (solutions w))) v sv
              end = fresh (dom (solutions w))) as ->
      by (by destruct (MetaModeSolver._tqdm sv)).
    split; [|apply SolutionFacts.fresh_solution_None].
    eexists _, _. cbn [solutions arrays w2].
    split; [apply lookup_insert_eq|]. cbn.
    do 3 (split; [done|]). apply lookup_insert_eq.
  - by exists sv.
Qed.

(** The first step of the sample solver is accepted. *)
Lemma accepted_step_changes_one_row_witness :
  ∃ sv',
    solvers (solver.step 0 Sample.solver_new).2 !! 0 = Some sv' ∧
    holds_table (solver.step 0 Sample.solver_new).2 0 2 3 Sample.shuffled ∧
    ∃ k p t',
      k < 2 ∧ is_permutation 3 p ∧
      shape t' = [2; 3] ∧ rows t' = <[k := p]> (rows Sample.shuffled) ∧
      holds_table (solver.step 0 Sample.solver_new).2
        (MetaModeSolver.best_solution sv') 2 3 t' ∧
      solutions Sample.solver_new !! MetaModeSolver.best_solution sv' = None.
Proof.
  apply (accepted_step_changes_one_row Sample.solver_new 0
           (MetaModeSolver.Make Sample.problem_sum 0 0 0 [] [] None)
           2 3 Sample.shuffled (Ok true)).
  - vm_compute. reflexivity.
  - exists (MetaModeSolution.Make 3 2 3 0 (Some 1)), 1.
    repeat split; vm_compute; reflexivity.
  - reflexivity.
  - discriminate.
  - vm_compute. reflexivity.
Defined.

(** ** Further properties of the solutions *)

(** X10.  [permute_one_channel] does not accumulate: each call starts
    again from [unpermuted_modes].  After two calls in a row, with
    channels inside [-n_channels, n_channels), the current table is
    [unpermuted_modes] with the row of the second call alone replaced
    by a permutation; the row of the first call is back to what
    [unpermuted_modes] has, and [unpermuted_modes] itself is
    untouched. *)
Theorem permute_one_channel_restarts_from_baseline w self s u c m ch1 ch2 :
  solutions w !! self = Some s →
  arrays w !! MetaModeSolution.unpermuted_modes s = Some u →
  shape u = [c; m] → MetaModeSolution.n_modes s = m →
  (- Z.of_nat c ≤ ch1 < Z.of_nat c)%Z →
  (- Z.of_nat c ≤ ch2 < Z.of_nat c)%Z →
  ∃ w' l t p,
    (solution.permute_one_channel self ch1;;;
     solution.permute_one_channel self ch2)%py w = (Ok self, w') ∧
    solutions w' !! self
    = Some (MetaModeSolution.with_permuted_modes (Some l) s) ∧
    arrays w' !! l = Some t ∧
    arrays w' !! MetaModeSolution.unpermuted_modes s = Some u ∧
    shape t = [c; m] ∧ is_permutation m p ∧
    rows t = <[Z.to_nat (ch2 `mod` Z.of_nat c) := p]> (rows u).
Proof.
  intros Hs Hu Hsh Hm Hch1 Hch2.
  destruct (SolutionFacts.permute_one_channel_run w self s u c m ch1 _
              Hs Hu Hsh Hm (StepShape.norm_index_in_range c ch1 Hch1))
    as (p1 & g1 & t1 & _ & _ & _ & _ & Hrun1).
  unfold bind. rewrite Hrun1.
  set (w1 := World _ _ _ _).
  assert (solutions w1 !! self
          = Some (MetaModeSolution.with_permuted_modes
                    (Some (fresh (dom (arrays w)))) s)) as Hs1
    by apply lookup_insert_eq.
  assert (arrays w1 !! MetaModeSolution.unpermuted_modes s = Some u) as Hu1.
  { cbn [arrays w1]. rewrite lookup_insert_ne; [done|].
    intros Heq. pose proof (SolutionFacts.fresh_array_None w) as Hf.
    rewrite Heq in Hf. congruence. }
  destruct (SolutionFacts.permute_one_channel_run w1 self _ u c m ch2 _
              Hs1 Hu1 Hsh Hm (StepShape.norm_index_in_range c ch2 Hch2))
    as (p2 & g2 & t2 & _ & Hp2 & Hsh2 & Hrows2 & Hrun2).
  rewrite Hrun2. eexists _, _, t2, p2. split; [done|]. cbn [arrays solutions].
  rewrite !lookup_insert_eq. split; [by destruct s|]. split; [done|].
  split; [|done].
  rewrite lookup_insert_ne; [done|].
  intros Heq. pose proof (SolutionFacts.fresh_array_None w1) as Hf.
  rewrite Heq in Hf. congruence.
Qed.

(** Channel 0 and then channel -1 on the sample solution. *)
Lemma permute_one_channel_restarts_from_baseline_witness :
  ∃ w' l t p,
    (solution.permute_one_channel 0 0;;;
     solution.permute_one_channel 0 (-1))%py Sample.constructed = (Ok 0, w') ∧
    solutions w' !! 0
    = Some (MetaModeSolution.with_permuted_modes (Some l)
              (MetaModeSolution.Make 3 2 3 0 None)) ∧
    arrays w' !! l = Some t ∧
    arrays w' !! 0 = Some Sample.identity ∧
    shape t = [2; 3] ∧ is_permutation 3 p ∧
    rows t = <[Z.to_nat ((-1) `mod` Z.of_nat 2) := p]> (rows Sample.identity).
Proof.
  apply (permute_one_channel_restarts_from_baseline Sample.constructed 0
           (MetaModeSolution.Make 3 2 3 0 None) Sample.identity 2 3 0 (-1));
    first [reflexivity | vm_compute; reflexivity | cbn; lia].
Defined.

(** X11.  A call of [permute_one_channel] with a channel outside
    [-n_channels, n_channels) is not undone when it fails: by the time
    the [IndexError] is raised, [permuted_modes] has been replaced by a
    new copy of [unpermuted_modes] and the permutation has been drawn
    from the generator.  The table that [permuted_modes] held before,
    and [unpermuted_modes], are not written to. *)
Theorem failed_permute_one_channel_resets_table w self s u c m channel :
  solutions w !! self = Some s →
  arrays w !! MetaModeSolution.unpermuted_modes s = Some u →
  shape u = [c; m] →
  ¬ (- Z.of_nat c ≤ channel < Z.of_nat c)%Z →
  ∃ w' l,
    solution.permute_one_channel self channel w = (Raise IndexError, w') ∧
    arrays w !! l = None ∧
    solutions w' !! self
    = Some (MetaModeSolution.with_permuted_modes (Some l) s) ∧
    arrays w' !! l = Some u ∧
    arrays w ⊆ arrays w' ∧
    rng w' = (Rng.permutation_int (MetaModeSolution.n_modes s) (rng w)).2.
Proof.
  intros Hs Hu Hsh Hch.
  rewrite (SolutionFacts.permute_one_channel_out_of_range w self s u c [m])
    by done.
  eexists _, _. split; [done|]. cbn [arrays solutions rng].
  split; [apply SolutionFacts.fresh_array_None|].
  rewrite !lookup_insert_eq. do 2 (split; [done|]).
  split; [apply Invariant.insert_fresh_array_subseteq|done].
Qed.

(** Channel 2 on the sample solution with two channels. *)
Lemma failed_permute_one_channel_resets_table_witness :
  ∃ w' l,
    solution.permute_one_channel 0 2 Sample.permuted = (Raise IndexError, w') ∧
    arrays Sample.permuted !! l = None ∧
    solutions w' !! 0
    = Some (MetaModeSolution.with_permuted_modes (Some l)
              (MetaModeSolution.Make 3 2 3 0 (Some 1))) ∧
    arrays w' !! l = Some Sample.identity ∧
    arrays Sample.permuted ⊆ arrays w' ∧
    rng w' = (Rng.permutation_int 3 (rng Sample.permuted)).2.
Proof.
  apply (failed_permute_one_channel_resets_table Sample.permuted 0
           (MetaModeSolution.Make 3 2 3 0 (Some 1)) Sample.identity 2 3 2);
    first [reflexivity | vm_compute; reflexivity | cbn; lia].
Defined.

(** X12.  [random_permutation()] on a solution with an arbitrary
    baseline table, as a caller can supply through the [permutation]
    argument of the constructor.  Without rows it fails with NumPy's
    [ValueError] and changes nothing.  Otherwise it returns the
    solution, whose [permuted_modes] is then a new table of the same
    shape in which every row is a rearrangement of the corresponding
    row of [unpermuted_modes]; [unpermuted_modes] is unchanged. *)
Theorem random_permutation_rearranges_rows w self s u c m :
  solutions w !! self = Some s →
  arrays w !! MetaModeSolution.unpermuted_modes s = Some u →
  shape u = [c; m] →
  (c = 0 → solution.random_permutation self w = (Raise ValueError, w)) ∧
  (c ≠ 0 →
   ∃ w' l t,
     solution.random_permutation self w = (Ok self, w') ∧
     arrays w !! l = None ∧
     solutions w' !! self
     = Some (MetaModeSolution.with_permuted_modes (Some l) s) ∧
     arrays w' !! l = Some t ∧
     arrays w' !! MetaModeSolution.unpermuted_modes s = Some u ∧
     shape t = [c; m] ∧ Forall2 (≡ₚ) (rows t) (rows u)).
Proof.
  intros Hs Hu Hsh. split.
  - intros ->. by apply (SolutionFacts.random_permutation_no_rows w self s u m).
  - intros Hc.
    rewrite (SolutionFacts.random_permutation_run w self s u c m) by done.
    pose proof (RngFacts.permute_rows_perm (rows u) (rng w)) as Hperm.
    set (rs := (Rng.permute_rows (rows u) (rng w)).1) in *.
    assert (Forall (λ r, length r = m) rs) as Hlen.
    { apply Forall_forall. intros r Hr.
      apply list_elem_of_lookup in Hr as [i Hi].
      destruct (Forall2_lookup_l _ _ _ _ _ Hperm Hi) as (r' & Hr' & Hrr').
      rewrite (Permutation_length Hrr').
      pose proof (lookup_lt_Some _ _ _ Hr') as Hlt.
      rewrite (TableFacts.length_rows u c m Hsh) in Hlt.
      rewrite (TableFacts.rows_lookup u c m i Hsh Hlt) in Hr'.
      injection Hr' as <-. by rewrite length_fmap, length_seq. }
    eexists _, _, _. split; [done|]. cbn [arrays solutions].
    split; [apply SolutionFacts.fresh_array_None|].
    rewrite !lookup_insert_eq. do 2 (split; [done|]).
    split.
    { rewrite lookup_insert_ne; [done|].
      intros Heq. pose proof (SolutionFacts.fresh_array_None w) as Hf.
      rewrite Heq in Hf. congruence. }
    split.
    { unfold of_rows. cbn [shape tabulate].
      by rewrite (Forall2_length _ _ _ Hperm), (TableFacts.length_rows u c m). }
    by rewrite TableFacts.rows_of_rows.
Qed.

(** The sample solution after its construction. *)
Lemma random_permutation_rearranges_rows_witness :
  ∃ w' l t,
    solution.random_permutation 0 Sample.constructed = (Ok 0, w') ∧
    arrays Sample.constructed !! l = None ∧
    solutions w' !! 0
    = Some (MetaModeSolution.with_permuted_modes (Some l)
              (MetaModeSolution.Make 3 2 3 0 None)) ∧
    arrays w' !! l = Some t ∧
    arrays w' !! 0 = Some Sample.identity ∧
    shape t = [2; 3] ∧ Forall2 (≡ₚ) (rows t) (rows Sample.identity).
Proof.
  refine (proj2 (random_permutation_rearranges_rows Sample.constructed 0
                   (MetaModeSolution.Make 3 2 3 0 None) Sample.identity 2 3
                   _ _ _) _);
    first [reflexivity | vm_compute; reflexivity | discriminate].
Defined.

(** X13.  The names that [Objective._names()] lists are exactly the
    strings that select a member: looking a string up succeeds if and
    only if it is in the list.  The lookup is by name, not by value:
    the values ["sum"], ["abs_sum"] and ["dyn_sum"] are refused with a
    [KeyError] that carries the string. *)
Theorem names_are_the_accepted_selectors :
  (∀ self key,
     key ∈ objectives._names self ↔ ∃ o, objectives.__getitem__ key = Ok o) ∧
  (∀ self, NoDup (objectives._names self)) ∧
  (∀ o, objectives.__getitem__ (objectives.value o)
        = Raise (KeyError (objectives.value o))).
Proof.
  split; [|split].
  - intros self key. unfold objectives._names. split.
    + intros ((n & o) & -> & Hin)%list_elem_of_fmap. exists o.
      unfold objectives.__members__ in Hin.
      apply list_elem_of_fmap in Hin as (o' & [= -> ->] & _).
      apply getitem_name.
    + intros [o Ho].
      destruct (decide (key ∈ objectives.__members__.*1)) as [|Hno]; [done|].
      rewrite (getitem_unknown key Hno) in Ho. discriminate.
  - intros self. apply (bool_decide_unpack _). vm_compute. exact I.
  - intros o. apply getitem_unknown. destruct o; apply (bool_decide_unpack _);
      vm_compute; exact I.
Qed.

(** ** The search can be resumed *)

(** X14.  [solve(a + b)] and [solve(a)] followed by [solve(b)] end
    alike, and so do two calls of [solve(n_steps)] that differ in the
    [progress] flag: the same outcome, the same draws from the
    generator, and the same state but for the progress bar of the
    solver; when the call returns, the states are equal.  This holds
    from every state and however the calls end. *)
Theorem solve_can_be_resumed self w :
  (∀ a b p p1 p2,
     let whole := solver.solve self (a + b) p w in
     let parts := (solver.solve self a p1;;; solver.solve self b p2)%py w in
     whole.1 = parts.1 ∧
     without_tqdm self whole.2 = without_tqdm self parts.2 ∧
     (whole.1 = Ok () → whole.2 = parts.2)) ∧
  (∀ n p p',
     let one := solver.solve self n p w in
     let other := solver.solve self n p' w in
     one.1 = other.1 ∧
     without_tqdm self one.2 = without_tqdm self other.2 ∧
     (one.1 = Ok () → one.2 = other.2)).
Proof.
  split.
  - intros a b p p1 p2 whole parts.
    destruct (Resume.tqdm_blind_resume self a b p p1 p2 w w eq_refl)
      as [Hr Hs].
    fold whole in Hr, Hs. fold parts in Hr, Hs.
    split; [done|]. split; [done|]. intros Hok.
    assert (without_tqdm self whole.2 = whole.2) as Hw.
    { subst whole. destruct (solver.solve self (a + b) p w) as [r w'] eqn:Hrun.
      cbn [fst snd] in *. rewrite Hok in Hrun.
      by apply (Resume.solve_ok_without_tqdm self (a + b) p w ()). }
    assert (without_tqdm self parts.2 = parts.2) as Hp.
    { rewrite Hok in Hr. subst parts. clear Hs Hw Hok whole. revert Hr.
      unfold bind.
      destruct (solver.solve self a p1 w) as [[[]|e] w1]; [|done].
      destruct (solver.solve self b p2 w1) as [r w'] eqn:Hrun.
      cbn [fst snd]. intros <-.
      by apply (Resume.solve_ok_without_tqdm self b p2 w1 ()). }
    congruence.
  - intros n p p' one other.
    destruct (Resume.tqdm_blind_solve self n p p' w w eq_refl) as [Hr Hs].
    fold one in Hr, Hs. fold other in Hr, Hs.
    split; [done|]. split; [done|]. intros Hok.
    assert (without_tqdm self one.2 = one.2) as Hw.
    { subst one. destruct (solver.solve self n p w) as [r w'] eqn:Hrun.
      cbn [fst snd] in *. rewrite Hok in Hrun.
      by apply (Resume.solve_ok_without_tqdm self n p w ()). }
    assert (without_tqdm self other.2 = other.2) as Hp.
    { rewrite Hok in Hr. subst other.
      destruct (solver.solve self n p' w) as [r w'] eqn:Hrun.
      cbn [fst snd] in *. rewrite <- Hr in Hrun.
      by apply (Resume.solve_ok_without_tqdm self n p' w ()). }
    congruence.
Qed.

(** ** The tensor of [generate] and the diagonal *)

(** X15.  [generate] on an arbitrary tensor of side
    [n_channels * n_modes], symmetric or not: the result has shape
    [(n_modes, n_channels, n_channels)] and its entry at [(i, a, b)] is
    the entry of the tensor at the row of channel [b] and the column of
    channel [a] in slot [i].  Hence the diagonal of every slice is
    taken from the diagonal of the tensor, and a slice is symmetric
    whenever the tensor is. *)
Theorem generate_entries corr m c sel p w sol t :
  problem.__init__ corr m c sel = Ok p →
  shape corr = [c * m; c * m] →
  holds_table w sol c m t → valid_table c m t →
  ∃ g,
    problem.generate p sol w = (Ok g, w) ∧
    shape g = [m; c; c] ∧
    (∀ i a b, i < m → a < c → b < c →
       item g [i; a; b]
       = item corr
           [Z.to_nat (item t [b; i] + Z.of_nat b * Z.of_nat m);
            Z.to_nat (item t [a; i] + Z.of_nat a * Z.of_nat m)]) ∧
    (symmetric (c * m) corr →
     ∀ i a b, i < m → a < c → b < c → item g [i; a; b] = item g [i; b; a]).
Proof.
  intros Hp Hcorr Hh Hv.
  apply ProblemFacts.init_ok in Hp. rewrite Hp.
  pose proof Hh as (s & l & Hs & Hm & Hc & Hl & Ht).
  rewrite (ProblemFacts.generate_run corr m c _ w sol s l t) by done.
  eexists. split; [done|]. split; [done|].
  assert (∀ i a b, i < m → a < c → b < c →
            item (tabulate [m; c; c]
                    (λ idx, aligned corr (global_table t m)
                              (nth 0 idx 0) (nth 2 idx 0) (nth 1 idx 0)))
              [i; a; b]
            = item corr
                [Z.to_nat (item t [b; i] + Z.of_nat b * Z.of_nat m);
                 Z.to_nat (item t [a; i] + Z.of_nat a * Z.of_nat m)]) as Hentry.
  { intros i a b Hi Ha Hb.
    rewrite NpFacts.item_tabulate by NpPipeline.solve_inb. cbn [nth].
    unfold aligned. by rewrite !(ProblemFacts.item_global_table m c t Hv). }
  split; [exact Hentry|].
  intros [_ Hsym] i a b Hi Ha Hb. rewrite !Hentry by done.
  pose proof (ProblemFacts.global_table_range m c t Hv a i Ha Hi) as Hra.
  pose proof (ProblemFacts.global_table_range m c t Hv b i Hb Hi) as Hrb.
  rewrite (ProblemFacts.item_global_table m c t Hv) in Hra, Hrb by done.
  apply Hsym; lia.
Qed.

(** The tensor generated for the shuffled sample table. *)
Lemma generate_entries_witness :
  ∃ g,
    problem.generate Sample.problem_sum 0 Sample.permuted
    = (Ok g, Sample.permuted) ∧
    shape g = [3; 2; 2] ∧
    (∀ i a b, i < 3 → a < 2 → b < 2 →
       item g [i; a; b]
       = item Sample.corr
           [Z.to_nat (item Sample.shuffled [b; i] + Z.of_nat b * Z.of_nat 3);
            Z.to_nat (item Sample.shuffled [a; i] + Z.of_nat a * Z.of_nat 3)]) ∧
    (symmetric (2 * 3) Sample.corr →
     ∀ i a b, i < 3 → a < 2 → b < 2 → item g [i; a; b] = item g [i; b; a]).
Proof.
  apply (generate_entries Sample.corr 3 2 (problem.Name "SUM")).
  - reflexivity.
  - reflexivity.
  - exact example_permuted_holds.
  - exact example_permuted_valid.
Defined.

(** X16.  Over a tensor of integers small enough for every sum to be
    exact, with ones on its diagonal, the [sum] objective of a solution
    that holds a valid table is the total of the off-diagonal entries
    of the aligned sub-matrices: the term [n_modes * n_channels] that
    the objective subtracts is exactly the contribution of the
    diagonals. *)
Theorem sum_is_off_diagonal_total corr m c p w sol t :
  problem.__init__ corr m c (problem.Member objectives.SUM) = Ok p →
  shape corr = [c * m; c * m] → sums_are_exact corr m c →
  (∀ j, j < c * m → item corr [j; j] = 1%Z) →
  holds_table w sol c m t → valid_table c m t →
  problem.evaluate p sol w = (Ok (off_diagonal_total corr t m c), w).
Proof.
  rewrite SolverInit.problem_init_member. intros [= <-] Hcorr _ Hdiag Hh Hv.
  apply ScoreFacts.holds_current_table in Hh.
  rewrite (ScoreFacts.evaluate_of_table _ w sol t Hh).
  rewrite (ScoreBounds.score_sum corr m c t Hv Hcorr). do 2 f_equal.
  unfold off_diagonal_total.
  rewrite (NpSums.sum_Z_ext (slot_total corr (global_table t m) c)
    (λ i, sum_Z ((λ a,
            sum_Z ((λ b,
              if decide (a = b) then 0%Z
              else item corr
                     [Z.to_nat (item t [a; i] + Z.of_nat a * Z.of_nat m);
                      Z.to_nat (item t [b; i] + Z.of_nat b * Z.of_nat m)])
              <$> seq 0 c))
            <$> seq 0 c) + Z.of_nat c)%Z).
  - rewrite Diagonal.sum_Z_plus, NpSums.sum_Z_const, length_seq. lia.
  - intros i Hi%elem_of_seq.
    rewrite (Diagonal.slot_total_off_diagonal corr _ c (c * m) i);
      [|intros a Ha; apply (ProblemFacts.global_table_range m c t Hv); lia
       |done].
    f_equal. apply NpSums.sum_Z_ext. intros a Ha%elem_of_seq.
    apply NpSums.sum_Z_ext. intros b Hb%elem_of_seq.
    case_decide; [done|]. unfold aligned.
    by rewrite !(ProblemFacts.item_global_table m c t Hv) by lia.
Qed.

(** The sample tensor has ones on its diagonal. *)
Lemma sum_is_off_diagonal_total_witness :
  problem.evaluate Sample.problem_sum 0 Sample.permuted
  = (Ok (off_diagonal_total Sample.corr Sample.shuffled 3 2), Sample.permuted).
Proof.
  apply (sum_is_off_diagonal_total Sample.corr 3 2 _ Sample.permuted 0
           Sample.shuffled).
  - reflexivity.
  - reflexivity.
  - exact example_sums_are_exact.
  - intros j Hj.
    assert (Forall (λ j, item Sample.corr [j; j] = 1%Z) (seq 0 6)) as H.
    { apply (bool_decide_unpack _). vm_compute. exact I. }
    rewrite Forall_forall in H. apply H. apply elem_of_seq. lia.
  - exact example_permuted_holds.
  - exact example_permuted_valid.
Defined.
